(** * Canvas: the drag-and-inertia positioning engine of [src/Canvas.tsx]

    A shallow embedding of the [Canvas] component's motion controller: the
    five refs the component keeps ([offset], [isDragging], [lastPos],
    [velocity], [animationFrame]), its three pointer handlers, the inertia
    callback [animateMomentum], and as much of the browser as the handlers
    talk to: the window's list of animation frame callbacks
    ([requestAnimationFrame] / [cancelAnimationFrame]), the pointer capture
    of the container, and the [style.transform] of the content element.
    The effect that registers the handlers is modelled on the container's
    list of listeners, and the two layout constants on any list of cards.

    Numbers.  A JavaScript number is modelled as an exact rational ([Q]):
    [+], [-], [*], [Math.min], [Math.max] and [Math.abs] are the rational
    operations, [0.9] is [9/10] and [0.5] is [1/2].  Rounding of binary64
    arithmetic, NaN and the infinities are outside this model.  Two rationals
    are compared with [==] ([Qeq]); [=] is used only where the code copies a
    value unchanged.  The DOM attributes [clientWidth], [innerWidth] and
    [innerHeight] are integers ([Z]), as CSSOM declares them.  Real numbers
    ([R]) appear only in the logarithmic bound on the length of an inertia
    run, which the program does not compute.

    The length of an inertia run is the one place where the rounding
    decides more than the last digit of a coordinate: the stop test
    compares rounded products with 0.5.  It is therefore counted in module
    [B64], where every operation returns the binary64 number nearest to
    its exact result; that rounding is compared with the machine's on
    primitive floats, and one run is replayed on them at the end. *)

From Stdlib Require Import QArith Qminmax Qabs Qround Qpower.
From Stdlib Require Import ZArith List Bool Lia Lqa.
From Stdlib Require Import Reals Qreals.
From Stdlib Require Lra.
From Stdlib Require Import Floats.
Import ListNotations.
Open Scope Q_scope.

(* [0.9] is not a binary64 value; the nearest one is used, as JavaScript
   does. *)
Set Warnings "-inexact-float".

(** ** Data *)

(** The object type [{ x: number, y: number }] of [offset], [lastPos] and
    [velocity]. *)
Module Point.
Record t : Type := mk { x : Q; y : Q }.

Definition zero : t := mk 0 0.
Definition add (p q : t) : t := mk (x p + x q) (y p + y q).
Definition sub (p q : t) : t := mk (x p - x q) (y p - y q).

(** Numeric equality of both coordinates. *)
Definition eq (p q : t) : Prop := x p == x q /\ y p == y q.
End Point.

Infix "=p=" := Point.eq (at level 70, no associativity).

(** What the content cards contribute to the handlers: the two closure
    constants [totalWidth] and [tallestCard] (the dependency list of the
    component's [useEffect]). *)
Record Layout : Type := mkLayout {
  totalWidth : Q;
  tallestCard : Q
}.

(** The [steps] literal of the component, one height per card. *)
Definition steps : list Q :=
  [200; 400; 150; 150; 150; 150; 150; 150; 150; 150].

Definition cardWidth : Q := 200.
Definition gap : Q := 20.
Definition paddingX : Q := 16 * 2.

(** [Math.max(...heights)] on a list; the spread of the empty array (which
    JavaScript maps to [-Infinity]) does not occur for the literal above. *)
Definition max_of (l : list Q) : Q :=
  match l with
  | [] => 0
  | h :: t => fold_left Qmax t h
  end.

(** Lines 37-42. *)
Definition canvasLayout : Layout :=
  let n := inject_Z (Z.of_nat (length steps)) in
  {| totalWidth := n * cardWidth + (n - 1) * gap + paddingX;
     tallestCard := max_of steps |}.

(** What the handlers read from the DOM when they recompute the limits:
    [containerRef.current?.clientWidth] ([None] when the ref is null),
    [window.innerWidth] and [window.innerHeight]. *)
Record Window : Type := mkWindow {
  clientWidth : option Z;
  innerWidth : Z;
  innerHeight : Z
}.

(** The pair [(minX, minY)] both mutating paths compute. *)
Record Bounds : Type := mkBounds {
  minX : Q;
  minY : Q
}.

(** The two functions the component hands to [requestAnimationFrame]. *)
Inductive FrameCallback : Type :=
  | AnimateMomentum
  | UpdateTransform.

(** The component's refs (lines 8-20; the first mounted state is [mounted]
    below), followed by the browser state they act on. *)
Record Canvas : Type := mkCanvas {
  offset : Point.t;
  isDragging : bool;
  lastPos : Point.t;
  velocity : Point.t;
  animationFrame : option nat;
  (* the window's pending animation frame callbacks, by handle *)
  frameCallbacks : list (nat * FrameCallback);
  (* the handle the next request gets *)
  nextHandle : nat;
  (* the pointer ids the container has captured *)
  captured : list nat;
  (* the translation in the content's style, once written *)
  transform : option Point.t
}.

Definition mounted : Canvas :=
  {| offset := Point.zero;
     isDragging := false;
     lastPos := Point.zero;
     velocity := Point.zero;
     animationFrame := None;
     frameCallbacks := [];
     nextHandle := 1;
     captured := [];
     transform := None |}.

Definition set_offset (o : Point.t) (c : Canvas) : Canvas :=
  mkCanvas o (isDragging c) (lastPos c) (velocity c) (animationFrame c)
           (frameCallbacks c) (nextHandle c) (captured c) (transform c).
Definition set_isDragging (b : bool) (c : Canvas) : Canvas :=
  mkCanvas (offset c) b (lastPos c) (velocity c) (animationFrame c)
           (frameCallbacks c) (nextHandle c) (captured c) (transform c).
Definition set_lastPos (p : Point.t) (c : Canvas) : Canvas :=
  mkCanvas (offset c) (isDragging c) p (velocity c) (animationFrame c)
           (frameCallbacks c) (nextHandle c) (captured c) (transform c).
Definition set_velocity (v : Point.t) (c : Canvas) : Canvas :=
  mkCanvas (offset c) (isDragging c) (lastPos c) v (animationFrame c)
           (frameCallbacks c) (nextHandle c) (captured c) (transform c).
Definition set_animationFrame (h : option nat) (c : Canvas) : Canvas :=
  mkCanvas (offset c) (isDragging c) (lastPos c) (velocity c) h
           (frameCallbacks c) (nextHandle c) (captured c) (transform c).
Definition set_frameCallbacks (l : list (nat * FrameCallback)) (c : Canvas)
  : Canvas :=
  mkCanvas (offset c) (isDragging c) (lastPos c) (velocity c)
           (animationFrame c) l (nextHandle c) (captured c) (transform c).
Definition set_nextHandle (n : nat) (c : Canvas) : Canvas :=
  mkCanvas (offset c) (isDragging c) (lastPos c) (velocity c)
           (animationFrame c) (frameCallbacks c) n (captured c) (transform c).
Definition set_captured (l : list nat) (c : Canvas) : Canvas :=
  mkCanvas (offset c) (isDragging c) (lastPos c) (velocity c)
           (animationFrame c) (frameCallbacks c) (nextHandle c) l
           (transform c).
Definition set_transform (t : option Point.t) (c : Canvas) : Canvas :=
  mkCanvas (offset c) (isDragging c) (lastPos c) (velocity c)
           (animationFrame c) (frameCallbacks c) (nextHandle c) (captured c)
           t.

(** ** The browser primitives the handlers call *)

(** [requestAnimationFrame(cb)]: appends the callback under a fresh handle
    and returns the handle. *)
Definition requestAnimationFrame (cb : FrameCallback) (c : Canvas)
  : nat * Canvas :=
  let h := nextHandle c in
  (h, set_nextHandle (S h)
        (set_frameCallbacks (frameCallbacks c ++ [(h, cb)]) c)).

(** [cancelAnimationFrame(h)]: removes the entry with that handle, if any. *)
Definition cancelAnimationFrame (h : nat) (c : Canvas) : Canvas :=
  set_frameCallbacks
    (filter (fun e => negb (Nat.eqb (fst e) h)) (frameCallbacks c)) c.

Definition setPointerCapture (pid : nat) (c : Canvas) : Canvas :=
  set_captured (pid :: remove Nat.eq_dec pid (captured c)) c.

Definition releasePointerCapture (pid : nat) (c : Canvas) : Canvas :=
  set_captured (remove Nat.eq_dec pid (captured c)) c.

(** [a > b] on numbers. *)
Definition Qgtb (a b : Q) : bool := negb (Qle_bool a b).

(** ** The component *)

Section Controller.

Variable L : Layout.

(** [containerRef.current?.clientWidth || window.innerWidth] *)
Definition containerWidth (w : Window) : Q :=
  match clientWidth w with
  | Some cw => if Z.eqb cw 0 then inject_Z (innerWidth w) else inject_Z cw
  | None => inject_Z (innerWidth w)
  end.

(** Lines 57-58 and 115-116: the limits, recomputed at every mutation. *)
Definition bounds (w : Window) : Bounds :=
  {| minX := Qmin 0 (containerWidth w - totalWidth L);
     minY := Qmin 0 (inject_Z (innerHeight w) - tallestCard L - 32) |}.

(** Lines 61-68 and 119-120: [Math.max(min, Math.min(0, proposed))] on
    each axis. *)
Definition clamp (b : Bounds) (p : Point.t) : Point.t :=
  {| Point.x := Qmax (minX b) (Qmin 0 (Point.x p));
     Point.y := Qmax (minY b) (Qmin 0 (Point.y p)) |}.

(** Lines 45-49 (the content element is mounted). *)
Definition updateTransform (c : Canvas) : Canvas :=
  set_transform (Some (offset c)) c.

(** Lines 71-72. *)
Definition friction (v : Point.t) : Point.t :=
  {| Point.x := Point.x v * 0.9; Point.y := Point.y v * 0.9 |}.

(** Lines 77-80. *)
Definition moving (v : Point.t) : bool :=
  Qgtb (Qabs (Point.x v)) 0.5 || Qgtb (Qabs (Point.y v)) 0.5.

(** Lines 52-83. *)
Definition animateMomentum (w : Window) (c : Canvas) : Canvas :=
  let b := bounds w in
  let c1 := set_offset (clamp b (Point.add (offset c) (velocity c))) c in
  let c2 := set_velocity (friction (velocity c1)) c1 in
  let c3 := updateTransform c2 in
  if moving (velocity c3) then
    let (h, c4) := requestAnimationFrame AnimateMomentum c3 in
    set_animationFrame (Some h) c4
  else c3.

(** Lines 90-102.  The test [if (animationFrame.current)] is a truthiness
    test: [null] and [0] are falsy. *)
Definition onPointerDown (p : Point.t) (pid : nat) (c : Canvas) : Canvas :=
  let c1 :=
    match animationFrame c with
    | Some (S h) => cancelAnimationFrame (S h) c
    | _ => c
    end in
  let c2 := set_isDragging true c1 in
  let c3 := set_lastPos p c2 in
  let c4 := set_velocity Point.zero c3 in
  setPointerCapture pid c4.

(** Lines 105-129. *)
Definition onPointerMove (w : Window) (p : Point.t) (c : Canvas) : Canvas :=
  if negb (isDragging c) then c
  else
    let d := Point.sub p (lastPos c) in
    let b := bounds w in
    let c1 := set_offset (clamp b (Point.add (offset c) d)) c in
    let c2 := set_velocity d c1 in
    let c3 := set_lastPos p c2 in
    snd (requestAnimationFrame UpdateTransform c3).

(** Lines 132-138. *)
Definition onPointerUp (pid : nat) (c : Canvas) : Canvas :=
  let c1 := set_isDragging false c in
  let c2 := releasePointerCapture pid c1 in
  let (h, c3) := requestAnimationFrame AnimateMomentum c2 in
  set_animationFrame (Some h) c3.

Definition callback (w : Window) (cb : FrameCallback) (c : Canvas) : Canvas :=
  match cb with
  | AnimateMomentum => animateMomentum w c
  | UpdateTransform => updateTransform c
  end.

(** The callbacks of one display refresh, run in the order of their
    requests. *)
Definition runCallbacks (w : Window) (cbs : list (nat * FrameCallback))
  (c : Canvas) : Canvas :=
  fold_left (fun acc e => callback w (snd e) acc) cbs c.

(** One display refresh: the browser takes the callbacks requested so far,
    empties the list and runs them; callbacks requested meanwhile wait for
    the next refresh. *)
Definition runFrame (w : Window) (c : Canvas) : Canvas :=
  runCallbacks w (frameCallbacks c) (set_frameCallbacks [] c).

(** What can happen to a mounted component.  Lines 141-144 register
    [onPointerUp] for both [pointerup] and [pointerleave]. *)
Inductive Event : Type :=
  | PointerDown (p : Point.t) (pid : nat)
  | PointerMove (p : Point.t)
  | PointerUp (pid : nat)
  | PointerLeave (pid : nat)
  | Frame.

Definition dispatch (w : Window) (e : Event) (c : Canvas) : Canvas :=
  match e with
  | PointerDown p pid => onPointerDown p pid c
  | PointerMove p => onPointerMove w p c
  | PointerUp pid => onPointerUp pid c
  | PointerLeave pid => onPointerUp pid c
  | Frame => runFrame w c
  end.

(** A history: each event with the DOM readings at the time it is handled. *)
Definition run (tr : list (Window * Event)) (c : Canvas) : Canvas :=
  fold_left (fun acc we => dispatch (fst we) (snd we) acc) tr c.

End Controller.

(** ** Vocabulary of the properties *)

(** [p] lies in [[minX, 0] x [minY, 0]]. *)
Definition in_range (b : Bounds) (p : Point.t) : Prop :=
  (minX b <= Point.x p <= 0) /\ (minY b <= Point.y p <= 0).

Definition is_momentum (e : nat * FrameCallback) : bool :=
  match snd e with
  | AnimateMomentum => true
  | UpdateTransform => false
  end.

(** The number of inertia continuations waiting for the next refresh. *)
Definition momentum_pending (c : Canvas) : nat :=
  length (filter is_momentum (frameCallbacks c)).

(** The events that assign to [offset.current]: a move during a drag, and a
    refresh that runs at least one [animateMomentum]. *)
Definition mutates (e : Event) (c : Canvas) : bool :=
  match e with
  | PointerMove _ => isDragging c
  | Frame => existsb is_momentum (frameCallbacks c)
  | _ => false
  end.

(** The limits computed by the latest mutation of a history ([b] when the
    history has none). *)
Fixpoint limits_in_force (L : Layout) (tr : list (Window * Event))
  (c : Canvas) (b : Bounds) : Bounds :=
  match tr with
  | [] => b
  | (w, e) :: tr' =>
      limits_in_force L tr' (dispatch L w e c)
        (if mutates e c then bounds L w else b)
  end.

(** Consecutive display refreshes, one per reading of the DOM. *)
Definition frames (ws : list Window) : list (Window * Event) :=
  map (fun w => (w, Frame)) ws.

(** The two axes, to state a property of both at once. *)
Inductive Axis : Type :=
  | AxisX
  | AxisY.

Definition coord (a : Axis) (p : Point.t) : Q :=
  match a with
  | AxisX => Point.x p
  | AxisY => Point.y p
  end.

Definition lower (a : Axis) (b : Bounds) : Q :=
  match a with
  | AxisX => minX b
  | AxisY => minY b
  end.

(** The velocity after [k] applications of the friction. *)
Fixpoint decay (k : nat) (v : Point.t) : Point.t :=
  match k with
  | O => v
  | S k' => decay k' (friction v)
  end.

(** [0.9 ^ k] *)
Fixpoint friction_pow (k : nat) : Q :=
  match k with
  | O => 1
  | S k' => 0.9 * friction_pow k'
  end.

(** The loop of [animateMomentum] on the velocity alone, on exact products:
    a step applies the friction and continues while the result is still
    [moving]; the value is the number of steps executed ([0] when the fuel
    runs out first). *)
Fixpoint coast (fuel : nat) (v : Point.t) : nat :=
  match fuel with
  | O => O
  | S f =>
      if moving (friction v) then
        match coast f (friction v) with
        | O => O
        | S n => S (S n)
        end
      else 1%nat
  end.

(** How many of [k] consecutive calls of [animateMomentum] reschedule
    themselves, from velocity [v]. *)
Fixpoint rescheduled (k : nat) (v : Point.t) : nat :=
  match k with
  | O => O
  | S k' =>
      ((if moving (friction v) then 1 else 0)
       + rescheduled k' (friction v))%nat
  end.

(** The larger of the two speeds. *)
Definition speed (v : Point.t) : Q :=
  Qmax (Qabs (Point.x v)) (Qabs (Point.y v)).

(** Fuel that is always enough: [0.9 ^ k <= 9 / (9 + k)]. *)
Definition coast_fuel (v : Point.t) : nat :=
  S (Z.to_nat (Qceiling (18 * speed v))).

(** The distance [v + 0.9 v + ... + 0.9^(k-1) v] covered in [k] unclamped
    steps. *)
Fixpoint coast_distance (k : nat) (v : Q) : Q :=
  match k with
  | O => 0
  | S k' => v + coast_distance k' (v * 0.9)
  end.

(** An axis is pinned when the offset sits on one end of its range and the
    velocity points out of the range (or is zero). *)
Definition pinned_low (b : Bounds) (a : Axis) (c : Canvas) : Prop :=
  coord a (offset c) == lower a b /\ coord a (velocity c) <= 0.

Definition pinned_high (a : Axis) (c : Canvas) : Prop :=
  coord a (offset c) == 0 /\ 0 <= coord a (velocity c).

(** The events between the start of a gesture and its release: moves and
    display refreshes.  [leftward last evs] says every move goes left of (or
    stays at) the pointer position before it, starting from abscissa [last];
    [pointer_x last evs] is the abscissa of the pointer after them. *)
Fixpoint leftward (last : Q) (evs : list Event) : Prop :=
  match evs with
  | [] => True
  | PointerMove p :: evs' => Point.x p <= last /\ leftward (Point.x p) evs'
  | Frame :: evs' => leftward last evs'
  | _ :: _ => False
  end.

Fixpoint pointer_x (last : Q) (evs : list Event) : Q :=
  match evs with
  | [] => last
  | PointerMove p :: evs' => pointer_x (Point.x p) evs'
  | _ :: evs' => pointer_x last evs'
  end.

(** A history in which the DOM readings do not change. *)
Definition within (w : Window) (evs : list Event) : list (Window * Event) :=
  map (fun e => (w, e)) evs.

(** Histories in which a release ([pointerup] or [pointerleave]) arrives
    only while a gesture is active; [dragging] says whether one is active
    at the start. *)
Fixpoint well_formed (dragging : bool) (tr : list (Window * Event)) : Prop :=
  match tr with
  | [] => True
  | (_, PointerDown _ _) :: tr' => well_formed true tr'
  | (_, PointerUp _) :: tr' => dragging = true /\ well_formed false tr'
  | (_, PointerLeave _) :: tr' => dragging = true /\ well_formed false tr'
  | (_, PointerMove _) :: tr' => well_formed dragging tr'
  | (_, Frame) :: tr' => well_formed dragging tr'
  end.

(** The events of a gesture in progress. *)
Definition drag_event (we : Window * Event) : Prop :=
  match snd we with
  | PointerMove _ => True
  | Frame => True
  | _ => False
  end.

(** The inertia is tracked when at most one continuation is pending, none
    during a gesture, and [animationFrame] holds the handle of the pending
    one. *)
Definition tracked (c : Canvas) : Prop :=
  (1 <= nextHandle c)%nat /\
  (momentum_pending c <= 1)%nat /\
  (isDragging c = true -> momentum_pending c = 0%nat) /\
  (forall e, In e (frameCallbacks c) -> is_momentum e = true ->
             animationFrame c = Some (fst e) /\ (1 <= fst e)%nat).

(** The least integer that is not below [r]. *)
Definition Rceil (r : R) : Z := (1 - up (- r))%Z.

(** [log(0.5 / A) / log(0.9)] *)
Definition log_ratio (A : R) : R := (ln ((1 / 2) / A) / ln (9 / 10))%R.

(** [ceil(log(0.5 / |v0|) / log(0.9))], the bound on the number of steps in
    which a velocity component [v0] comes down to [0.5]. *)
Definition log_bound (v0 : Q) : Z := Rceil (log_ratio (Q2R (Qabs v0))).

(** The loop of [animateMomentum] on the abscissa in binary64, for a run
    that is not clamped: the number of steps executed ([0] when the fuel
    runs out first) and the final offset. *)
Fixpoint coast64 (fuel : nat) (o v : float) : nat * float :=
  match fuel with
  | O => (O, o)
  | S f =>
      let o' := PrimFloat.add o v in
      let v' := PrimFloat.mul v 0.9%float in
      if PrimFloat.ltb 0.5%float (PrimFloat.abs v') then
        match coast64 f o' v' with
        | (O, o'') => (O, o'')
        | (S n, o'') => (S (S n), o'')
        end
      else (1%nat, o')
  end.

(** ** Concrete histories *)

(** A 500 by 500 viewport. *)
Definition w500 : Window :=
  {| clientWidth := Some 500%Z; innerWidth := 500; innerHeight := 500 |}.

Definition at500 (evs : list Event) : list (Window * Event) :=
  within w500 evs.

(** A content 2000 wide whose tallest card is 150 high. *)
Definition scenarioLayout : Layout :=
  {| totalWidth := 2000; tallestCard := 150 |}.

(** A one-pixel drag to the left, its release, and the seven refreshes the
    inertia of that release takes: the controller is at rest again. *)
Definition settled_history : list (Window * Event) :=
  at500 ([PointerDown (Point.mk 0 0) 1%nat;
          PointerMove (Point.mk (-1) 0);
          PointerUp 1%nat]
         ++ repeat Frame 7).

(** A ten-pixel drag whose release is reported twice, as [pointerup] and
    then [pointerleave] (what a touch pointer does when it is lifted),
    followed by the start of the next gesture. *)
Definition double_release_history : list (Window * Event) :=
  at500 [PointerDown (Point.mk 0 0) 1%nat;
         PointerMove (Point.mk (-10) 0);
         PointerUp 1%nat;
         PointerLeave 1%nat;
         PointerDown (Point.mk 0 0) 2%nat].

(** The same window widened to 1500 pixels. *)
Definition w1500 : Window :=
  {| clientWidth := Some 1500%Z; innerWidth := 1500; innerHeight := 500 |}.

(** A drag of 1500 pixels to the left in the 500-pixel viewport that ends
    with the pointer held still: the release has zero velocity and its
    single refresh leaves the content parked at -1500. *)
Definition parked_history : list (Window * Event) :=
  at500 [PointerDown (Point.mk 0 0) 1%nat;
         PointerMove (Point.mk (-1500) 0);
         PointerMove (Point.mk (-1500) 0);
         PointerUp 1%nat;
         Frame].

(** An inertia run about to start in the 500-pixel viewport: velocity
    [(10, 0)], offset [(-200, 0)], one continuation pending. *)
Definition coasting_start : Canvas :=
  {| offset := Point.mk (-200) 0;
     isDragging := false;
     lastPos := Point.zero;
     velocity := Point.mk 10 0;
     animationFrame := Some 1%nat;
     frameCallbacks := [(1%nat, AnimateMomentum)];
     nextHandle := 2;
     captured := [];
     transform := None |}.

(** A drag held against the left end of the range. *)
Definition held_at_left_end : Canvas :=
  {| offset := Point.mk (-1712) 0;
     isDragging := true;
     lastPos := Point.mk 100 100;
     velocity := Point.mk (-10) 5;
     animationFrame := None;
     frameCallbacks := [];
     nextHandle := 1;
     captured := [1%nat];
     transform := None |}.

(** ** Further vocabulary: layout, gestures, scheduling, listeners *)

(** Lines 37-42 for any list of card heights ([canvasLayout] is the one of
    [steps]). *)
Definition layoutOf (heights : list Q) : Layout :=
  let n := inject_Z (Z.of_nat (length heights)) in
  {| totalWidth := n * cardWidth + (n - 1) * gap + paddingX;
     tallestCard := max_of heights |}.

(** The content is not larger than the viewport along an axis: the
    difference the code takes the minimum of with [0] is not negative. *)
Definition fits (a : Axis) (L : Layout) (w : Window) : Prop :=
  match a with
  | AxisX => totalWidth L <= containerWidth w
  | AxisY => tallestCard L + 32 <= inject_Z (innerHeight w)
  end.

(** The position of the pointer after the events of a gesture. *)
Fixpoint pointer_at (last : Point.t) (tr : list (Window * Event)) : Point.t :=
  match tr with
  | [] => last
  | (_, PointerMove p) :: tr' => pointer_at p tr'
  | _ :: tr' => pointer_at last tr'
  end.

(** The moves of a gesture never ask for an offset outside the limits of
    their viewport: [o] is the offset and [last] the pointer position before
    the events. *)
Fixpoint unclamped (L : Layout) (o last : Point.t)
  (tr : list (Window * Event)) : Prop :=
  match tr with
  | [] => True
  | (w, PointerMove p) :: tr' =>
      in_range (bounds L w) (Point.add o (Point.sub p last)) /\
      unclamped L (Point.add o (Point.sub p last)) p tr'
  | (_, Frame) :: tr' => unclamped L o last tr'
  | _ :: _ => False
  end.

Definition is_render (e : nat * FrameCallback) : bool :=
  negb (is_momentum e).

(** What the handles of a reachable state satisfy: pending callbacks have
    distinct handles that were issued already, [animationFrame] holds an
    issued handle, and a pending callback with that handle is an inertia
    continuation. *)
Definition handles_ok (c : Canvas) : Prop :=
  (1 <= nextHandle c)%nat /\
  NoDup (map fst (frameCallbacks c)) /\
  (forall e, In e (frameCallbacks c) -> (1 <= fst e < nextHandle c)%nat) /\
  (forall h, animationFrame c = Some h -> (1 <= h < nextHandle c)%nat) /\
  (forall e, In e (frameCallbacks c) -> animationFrame c = Some (fst e) ->
             is_momentum e = true).

(** The content shows the current offset, or a render is on its way, or
    nothing was ever set. *)
Definition in_sync (c : Canvas) : Prop :=
  transform c = Some (offset c)
  \/ (exists e, In e (frameCallbacks c) /\ is_render e = true)
  \/ (transform c = None /\ offset c = Point.zero).


(** *** The effect of lines 85-153 *)

Inductive EventType : Type :=
  | pointerdown
  | pointermove
  | pointerup
  | pointerleave.

(** The three closures an effect run creates. *)
Inductive Handler : Type :=
  | OnPointerDown
  | OnPointerMove
  | OnPointerUp.

(** A registered listener: its event type, and its callback, identified by
    the effect run that created the closure and by which closure it is. *)
Record Listener : Type := mkListener {
  eventType : EventType;
  effectRun : nat;
  handler : Handler
}.

Definition EventType_eqb (s t : EventType) : bool :=
  match s, t with
  | pointerdown, pointerdown => true
  | pointermove, pointermove => true
  | pointerup, pointerup => true
  | pointerleave, pointerleave => true
  | _, _ => false
  end.

Definition Handler_eqb (g h : Handler) : bool :=
  match g, h with
  | OnPointerDown, OnPointerDown => true
  | OnPointerMove, OnPointerMove => true
  | OnPointerUp, OnPointerUp => true
  | _, _ => false
  end.

Definition Listener_eqb (l m : Listener) : bool :=
  EventType_eqb (eventType l) (eventType m)
  && Nat.eqb (effectRun l) (effectRun m)
  && Handler_eqb (handler l) (handler m).

(** [el.addEventListener(type, callback)]: a listener already registered
    with the same type and callback is not registered again. *)
Definition addEventListener (l : Listener) (reg : list Listener)
  : list Listener :=
  if existsb (Listener_eqb l) reg then reg else reg ++ [l].

(** [el.removeEventListener(type, callback)] *)
Definition removeEventListener (l : Listener) (reg : list Listener)
  : list Listener :=
  filter (fun m => negb (Listener_eqb l m)) reg.

(** Lines 141-144, for the closures of effect run [k]. *)
Definition registerListeners (k : nat) (reg : list Listener) : list Listener :=
  let r1 := addEventListener (mkListener pointerdown k OnPointerDown) reg in
  let r2 := addEventListener (mkListener pointermove k OnPointerMove) r1 in
  let r3 := addEventListener (mkListener pointerup k OnPointerUp) r2 in
  addEventListener (mkListener pointerleave k OnPointerUp) r3.

(** Lines 147-152, the cleanup the effect returns. *)
Definition cleanupListeners (k : nat) (reg : list Listener) : list Listener :=
  let r1 := removeEventListener (mkListener pointerdown k OnPointerDown) reg in
  let r2 := removeEventListener (mkListener pointermove k OnPointerMove) r1 in
  let r3 := removeEventListener (mkListener pointerup k OnPointerUp) r2 in
  removeEventListener (mkListener pointerleave k OnPointerUp) r3.

(** Lines 85-87 and 141-144: the effect body; [el] says whether
    [containerRef.current] is set. *)
Definition runEffect (el : bool) (k : nat) (reg : list Listener)
  : list Listener :=
  if el then registerListeners k reg else reg.

(** A pointer event as the handlers read it. *)
Record PointerEvent : Type := mkPointerEvent {
  kind : EventType;
  client : Point.t;
  pointerId : nat
}.

Definition invoke (L : Layout) (w : Window) (h : Handler) (e : PointerEvent)
  (c : Canvas) : Canvas :=
  match h with
  | OnPointerDown => onPointerDown (client e) (pointerId e) c
  | OnPointerMove => onPointerMove L w (client e) c
  | OnPointerUp => onPointerUp (pointerId e) c
  end.

(** The container dispatches an event to its listeners of that type, in
    the order of their registration. *)
Definition fire (L : Layout) (w : Window) (reg : list Listener)
  (e : PointerEvent) (c : Canvas) : Canvas :=
  fold_left
    (fun acc l =>
       if EventType_eqb (eventType l) (kind e) then invoke L w (handler l) e acc
       else acc)
    reg c.

(** The event of the history vocabulary a pointer event stands for. *)
Definition event_of (e : PointerEvent) : Event :=
  match kind e with
  | pointerdown => PointerDown (client e) (pointerId e)
  | pointermove => PointerMove (client e)
  | pointerup => PointerUp (pointerId e)
  | pointerleave => PointerLeave (pointerId e)
  end.

(** ** The inertia in binary64 *)

(** The length of an inertia run is decided by comparisons of rounded
    products with 0.5, so it is counted on the numbers the browser computes
    with.  A finite binary64 number is a rational; an operation returns the
    rational nearest to its exact result on the binary64 grid (53
    significant bits, last place never below [2^-1074]), ties to the even
    neighbour.  The infinities and NaN are outside this model.  A product
    of a finite number with 0.9 never overflows; a sum that overflows is
    clamped to the same end of the range as its exact value; an infinite
    velocity, which only an overflowing pointer displacement produces, is
    excluded by the hypothesis [finite]. *)
Module B64.

(** [2 ^ e] *)
Definition pow2 (e : Z) : Q := 2 ^ e.

(** The integer nearest to [q], the even one of two that are equally near. *)
Definition nearest_even (q : Q) : Z :=
  let f := Qfloor q in
  match Qcompare (q - inject_Z f) (1 # 2) with
  | Lt => f
  | Gt => (f + 1)%Z
  | Eq => if Z.even f then f else (f + 1)%Z
  end.

(** [floor (log2 x)] for [0 < x]. *)
Definition ilog2 (x : Q) : Z :=
  let e := (Z.log2 (Qnum x) - Z.log2 (Zpos (Qden x)) - 1)%Z in
  if Qle_bool (pow2 (e + 1)) x then (e + 1)%Z else e.

(** The exponent of the last place of the binary64 numbers around [x]. *)
Definition ulp_exp (x : Q) : Z := Z.max (ilog2 (Qabs x) - 52) (-1074).

(** Rounding to the nearest binary64 number. *)
Definition round (x : Q) : Q :=
  if Qeq_bool x 0 then 0
  else
    let e := ulp_exp x in
    let m := inject_Z (nearest_even (Qabs x / pow2 e)) * pow2 e in
    if Qle_bool 0 x then m else - m.

(** The literal [0.9]. *)
Definition c09 : Q := round 0.9.

(** The value of a finite primitive float, to compare the rounding above
    with the machine's. *)
Definition of_float (f : float) : option Q :=
  match Prim2SF f with
  | S754_zero _ => Some 0
  | S754_finite s m e =>
      Some ((if s then -1 else 1) * inject_Z (Zpos m) * pow2 e)
  | _ => None
  end.

Definition value (f : float) : Q :=
  match of_float f with
  | Some q => q
  | None => 0
  end.

Definition agrees (f : float) (q : Q) : bool :=
  match of_float f with
  | Some r => Qeq_bool r q
  | None => false
  end.

(** [p.x + q.x], [p.y + q.y] *)
Definition add (p q : Point.t) : Point.t :=
  {| Point.x := round (Point.x p + Point.x q);
     Point.y := round (Point.y p + Point.y q) |}.

(** Lines 71-72. *)
Definition friction (v : Point.t) : Point.t :=
  {| Point.x := round (Point.x v * c09); Point.y := round (Point.y v * c09) |}.

(** Lines 57-58. *)
Definition bounds (L : Layout) (w : Window) : Bounds :=
  {| minX := Qmin 0 (round (containerWidth w - totalWidth L));
     minY := Qmin 0 (round (round (inject_Z (innerHeight w) - tallestCard L)
                            - 32)) |}.

(** Lines 52-83. *)
Definition animateMomentum (L : Layout) (w : Window) (c : Canvas) : Canvas :=
  let b := bounds L w in
  let c1 := set_offset (clamp b (add (offset c) (velocity c))) c in
  let c2 := set_velocity (friction (velocity c1)) c1 in
  let c3 := updateTransform c2 in
  if moving (velocity c3) then
    let (h, c4) := requestAnimationFrame AnimateMomentum c3 in
    set_animationFrame (Some h) c4
  else c3.

Definition callback (L : Layout) (w : Window) (cb : FrameCallback)
  (c : Canvas) : Canvas :=
  match cb with
  | AnimateMomentum => animateMomentum L w c
  | UpdateTransform => updateTransform c
  end.

Definition runCallbacks (L : Layout) (w : Window)
  (cbs : list (nat * FrameCallback)) (c : Canvas) : Canvas :=
  fold_left (fun acc e => callback L w (snd e) acc) cbs c.

(** One display refresh. *)
Definition runFrame (L : Layout) (w : Window) (c : Canvas) : Canvas :=
  runCallbacks L w (frameCallbacks c) (set_frameCallbacks [] c).

(** Consecutive display refreshes, one per reading of the DOM. *)
Definition runFrames (L : Layout) (ws : list Window) (c : Canvas) : Canvas :=
  fold_left (fun acc w => runFrame L w acc) ws c.

(** The velocity after [k] applications of the friction. *)
Fixpoint decay (k : nat) (v : Point.t) : Point.t :=
  match k with
  | O => v
  | S k' => decay k' (friction v)
  end.

(** How many of [k] consecutive calls of [animateMomentum] reschedule
    themselves, from velocity [v]. *)
Fixpoint rescheduled (k : nat) (v : Point.t) : nat :=
  match k with
  | O => O
  | S k' =>
      ((if moving (friction v) then 1 else 0)
       + rescheduled k' (friction v))%nat
  end.

(** The loop of [animateMomentum] on the velocity alone: a step applies the
    friction and continues while the result is still [moving]; the value is
    the number of steps executed ([0] when the fuel runs out first). *)
Fixpoint coast (fuel : nat) (v : Point.t) : nat :=
  match fuel with
  | O => O
  | S f =>
      if moving (friction v) then
        match coast f (friction v) with
        | O => O
        | S n => S (S n)
        end
      else 1%nat
  end.

(** Fuel that is enough for every finite velocity: seven steps at least
    halve a speed above 0.5, and a finite speed is below [2^1024]. *)
Definition fuel : nat := (7 * 1025 + 1)%nat.

(** The length of the inertia run a release with a finite velocity [v]
    starts. *)
Definition inertia_steps (v : Point.t) : nat := coast fuel v.

End B64.

(** A velocity the machine can hold: below [2^1024] in magnitude on both
    axes. *)
Definition finite (v : Point.t) : Prop :=
  forall a, Qabs (coord a v) <= B64.pow2 1024.

(** [(1 + 2^-52) ^ k], what [k] roundings can add to a product. *)
Fixpoint growth (k : nat) : Q :=
  match k with
  | O => 1
  | S k' => (1 + B64.pow2 (-52)) * growth k'
  end.

(** A release at the double nearest to 0.76207895137936288 pixels per
    event along the abscissa, and the state it leaves: one continuation
    pending. *)
Definition threshold_release_history : list (Window * Event) :=
  at500 [PointerDown (Point.mk 0 0) 1%nat;
         PointerMove (Point.mk (B64.round 0.76207895137936288) 0);
         PointerUp 1%nat].

Definition threshold_start : Canvas :=
  run canvasLayout threshold_release_history mounted.

(** The same for a quarter of a pixel per event on both axes. *)
Definition slow_release_history : list (Window * Event) :=
  at500 [PointerDown (Point.mk 0 0) 1%nat;
         PointerMove (Point.mk 0.25 0.25);
         PointerUp 1%nat].

Definition slow_start : Canvas :=
  run canvasLayout slow_release_history mounted.

(** ** Min and max pick one of their arguments *)

Lemma Qmax_pick (a b : Q) : (a < b /\ Qmax a b = b) \/ (b <= a /\ Qmax a b = a).
Proof.
  unfold Qmax, GenericMinMax.gmax.
  destruct (Qcompare_spec a b); [right|left|right]; split; auto; lra.
Qed.

Lemma Qmin_pick (a b : Q) : (b < a /\ Qmin a b = b) \/ (a <= b /\ Qmin a b = a).
Proof.
  unfold Qmin, GenericMinMax.gmin.
  destruct (Qcompare_spec a b); [right|right|left]; split; auto; lra.
Qed.

(** Case analysis on every [Qmin] and [Qmax] of the goal. *)
Ltac pick_minmax :=
  repeat match goal with
  | |- context [Qmin ?a ?b] =>
      let H := fresh "Hmin" in
      let E := fresh "Emin" in
      destruct (Qmin_pick a b) as [[H E]|[H E]]; rewrite E in *; clear E
  | |- context [Qmax ?a ?b] =>
      let H := fresh "Hmax" in
      let E := fresh "Emax" in
      destruct (Qmax_pick a b) as [[H E]|[H E]]; rewrite E in *; clear E
  end.

Ltac minmax_lra := pick_minmax; try reflexivity; try lra; try (exfalso; lra).

(** ** The clamp *)

Lemma clamp_axis_idem (m v : Q) :
  Qmax m (Qmin 0 (Qmax m (Qmin 0 v))) = Qmax m (Qmin 0 v).
Proof. minmax_lra. Qed.

Lemma clamp_axis_range (m v : Q) :
  m <= 0 -> m <= Qmax m (Qmin 0 v) <= 0.
Proof. intros Hm. minmax_lra. Qed.

Lemma clamp_axis_fix (m v : Q) :
  m <= v <= 0 -> Qmax m (Qmin 0 v) == v.
Proof. intros Hv. minmax_lra. Qed.

Lemma clamp_idem (b : Bounds) (p : Point.t) : clamp b (clamp b p) = clamp b p.
Proof.
  unfold clamp; cbn [Point.x Point.y].
  now rewrite !clamp_axis_idem.
Qed.

Lemma clamp_in_range (b : Bounds) (p : Point.t) :
  minX b <= 0 -> minY b <= 0 -> in_range b (clamp b p).
Proof.
  intros Hx Hy; split; cbn [clamp Point.x Point.y];
    now apply clamp_axis_range.
Qed.

Lemma clamp_fix (b : Bounds) (p : Point.t) :
  in_range b p -> clamp b p =p= p.
Proof.
  intros [Hx Hy]; split; cbn [clamp Point.x Point.y];
    now apply clamp_axis_fix.
Qed.

Lemma bounds_nonpos (L : Layout) (w : Window) :
  minX (bounds L w) <= 0 /\ minY (bounds L w) <= 0.
Proof. split; cbn [bounds minX minY]; apply Q.le_min_l. Qed.

Lemma clamp_bounds_in_range (L : Layout) (w : Window) (p : Point.t) :
  in_range (bounds L w) (clamp (bounds L w) p).
Proof. apply clamp_in_range; apply bounds_nonpos. Qed.

(** Every pair of non-positive minima is the pair some layout and window
    give. *)
Lemma bounds_onto (b : Bounds) :
  minX b <= 0 -> minY b <= 0 ->
  exists (L : Layout) (w : Window),
    minX (bounds L w) == minX b /\ minY (bounds L w) == minY b.
Proof.
  intros Hx Hy.
  exists (mkLayout (1 - minX b) (- minY b - 32)), (mkWindow (Some 1%Z) 0 0).
  cbn [bounds minX minY containerWidth clientWidth innerHeight totalWidth
       tallestCard Z.eqb].
  change (inject_Z 1) with 1; change (inject_Z 0) with 0.
  split; minmax_lra.
Qed.

(** C5. The clamp is idempotent for every pair of minima and every proposed
    offset, and it saturates: whenever the minima are non-positive, as the
    computed limits always are, the result lies in [[minX, 0] x [minY, 0]]
    however far the proposed offset is outside. *)
Theorem clamp_idempotent_saturating :
  forall (b : Bounds) (p : Point.t),
    clamp b (clamp b p) = clamp b p /\
    (minX b <= 0 -> minY b <= 0 -> in_range b (clamp b p)) /\
    (forall (L : Layout) (w : Window),
        in_range (bounds L w) (clamp (bounds L w) p)).
Proof.
  intros b p; split; [apply clamp_idem|split].
  - apply clamp_in_range.
  - intros L w; apply clamp_bounds_in_range.
Qed.

Lemma clamp_idempotent_saturating_witness :
  let b := mkBounds (-1500) 0 in
  let p := Point.mk (-3000) 250 in
  minX b <= 0 /\ minY b <= 0 /\
  clamp b (clamp b p) = clamp b p /\ in_range b (clamp b p).
Proof.
  intros b p.
  assert (Hx : minX b <= 0) by (cbn; lra).
  assert (Hy : minY b <= 0) by (cbn; lra).
  destruct (clamp_idempotent_saturating b p) as [Hi [Hr _]].
  exact (conj Hx (conj Hy (conj Hi (Hr Hx Hy)))).
Defined.

(** ** What each handler does to the offset *)

Lemma runCallbacks_cons (L : Layout) (w : Window) (h : nat)
  (cb : FrameCallback) (cbs : list (nat * FrameCallback)) (c : Canvas) :
  runCallbacks L w ((h, cb) :: cbs) c
  = runCallbacks L w cbs (callback L w cb c).
Proof. reflexivity. Qed.

Lemma offset_updateTransform (c : Canvas) :
  offset (updateTransform c) = offset c.
Proof. reflexivity. Qed.

Lemma offset_animateMomentum (L : Layout) (w : Window) (c : Canvas) :
  offset (animateMomentum L w c)
  = clamp (bounds L w) (Point.add (offset c) (velocity c)).
Proof. unfold animateMomentum; destruct (moving _); reflexivity. Qed.

Lemma velocity_animateMomentum (L : Layout) (w : Window) (c : Canvas) :
  velocity (animateMomentum L w c) = friction (velocity c).
Proof. unfold animateMomentum; destruct (moving _); reflexivity. Qed.

Lemma isDragging_animateMomentum (L : Layout) (w : Window) (c : Canvas) :
  isDragging (animateMomentum L w c) = isDragging c.
Proof. unfold animateMomentum; destruct (moving _); reflexivity. Qed.

Lemma lastPos_animateMomentum (L : Layout) (w : Window) (c : Canvas) :
  lastPos (animateMomentum L w c) = lastPos c.
Proof. unfold animateMomentum; destruct (moving _); reflexivity. Qed.

Lemma offset_onPointerDown (p : Point.t) (pid : nat) (c : Canvas) :
  offset (onPointerDown p pid c) = offset c.
Proof.
  unfold onPointerDown; destruct (animationFrame c) as [[|h]|]; reflexivity.
Qed.

Lemma offset_onPointerUp (pid : nat) (c : Canvas) :
  offset (onPointerUp pid c) = offset c.
Proof. reflexivity. Qed.

Lemma offset_onPointerMove (L : Layout) (w : Window) (p : Point.t) (c : Canvas) :
  offset (onPointerMove L w p c)
  = if isDragging c
    then clamp (bounds L w) (Point.add (offset c) (Point.sub p (lastPos c)))
    else offset c.
Proof. unfold onPointerMove; destruct (isDragging c); reflexivity. Qed.

(** The callbacks of one refresh: the last [animateMomentum] among them, if
    there is one, decides the offset. *)
Lemma callbacks_offset (L : Layout) (w : Window) :
  forall (cbs : list (nat * FrameCallback)) (c : Canvas),
    let c' := runCallbacks L w cbs c in
    if existsb is_momentum cbs
    then in_range (bounds L w) (offset c')
    else offset c' = offset c.
Proof.
  unfold runCallbacks.
  induction cbs as [|[h cb] cbs IH]; intros c; cbn [fold_left existsb].
  - reflexivity.
  - specialize (IH (callback L w (snd (h, cb)) c)); cbv zeta in IH |- *.
    destruct (existsb is_momentum cbs).
    + rewrite orb_true_r; exact IH.
    + rewrite orb_false_r, IH; unfold is_momentum; cbn [snd].
      destruct cb; cbn [callback].
      * rewrite offset_animateMomentum; apply clamp_bounds_in_range.
      * reflexivity.
Qed.

Lemma dispatch_offset (L : Layout) (w : Window) (e : Event) (c : Canvas) :
  if mutates e c
  then in_range (bounds L w) (offset (dispatch L w e c))
  else offset (dispatch L w e c) = offset c.
Proof.
  destruct e as [p pid|p|pid|pid|]; cbn [mutates dispatch].
  - apply offset_onPointerDown.
  - rewrite offset_onPointerMove; destruct (isDragging c);
      [apply clamp_bounds_in_range|reflexivity].
  - reflexivity.
  - reflexivity.
  - apply (callbacks_offset L w (frameCallbacks c) (set_frameCallbacks [] c)).
Qed.

Lemma run_in_range (L : Layout) :
  forall (tr : list (Window * Event)) (c : Canvas) (b : Bounds),
    in_range b (offset c) ->
    in_range (limits_in_force L tr c b) (offset (run L tr c)).
Proof.
  induction tr as [|[w e] tr IH]; intros c b Hb; cbn [limits_in_force].
  - exact Hb.
  - change (run L ((w, e) :: tr) c) with (run L tr (dispatch L w e c)).
    apply IH.
    pose proof (dispatch_offset L w e c) as Hd.
    destruct (mutates e c); [exact Hd|now rewrite Hd].
Qed.

Lemma zero_in_range (L : Layout) (w : Window) :
  in_range (bounds L w) Point.zero.
Proof.
  destruct (bounds_nonpos L w) as [Hx Hy].
  split; cbn [Point.zero Point.x Point.y]; split; (assumption || lra).
Qed.

(** ** What the content element shows *)

Lemma transform_runCallbacks (L : Layout) (w : Window) :
  forall (cbs : list (nat * FrameCallback)) (c : Canvas),
    let c' := runCallbacks L w cbs c in
    (transform c' = transform c /\ offset c' = offset c)
    \/ transform c' = Some (offset c').
Proof.
  induction cbs as [|[h cb] cbs IH]; intros c; [left; now split|].
  cbv zeta; rewrite runCallbacks_cons.
  assert (Hcb : transform (callback L w cb c)
                = Some (offset (callback L w cb c))).
  { destruct cb; cbn [callback]; [|reflexivity].
    unfold animateMomentum; destruct (moving _); reflexivity. }
  destruct (IH (callback L w cb c)) as [[Ht Ho]|Ht]; right.
  - now rewrite Ht, Ho.
  - exact Ht.
Qed.

Lemma transform_dispatch (L : Layout) (w : Window) (e : Event) (c : Canvas) :
  transform (dispatch L w e c) = transform c
  \/ transform (dispatch L w e c) = Some (offset (dispatch L w e c)).
Proof.
  destruct e as [p pid|p|pid|pid|]; cbn [dispatch].
  - left; unfold onPointerDown; destruct (animationFrame c) as [[|h]|];
      reflexivity.
  - left; unfold onPointerMove; destruct (isDragging c); reflexivity.
  - left; reflexivity.
  - left; reflexivity.
  - destruct (transform_runCallbacks L w (frameCallbacks c)
                (set_frameCallbacks [] c)) as [[Ht _]|Ht];
      [left|right]; exact Ht.
Qed.

Lemma run_snoc (L : Layout) (tr : list (Window * Event)) (w : Window)
  (e : Event) (c : Canvas) :
  run L (tr ++ [(w, e)]) c = dispatch L w e (run L tr c).
Proof. unfold run; now rewrite fold_left_app. Qed.

(** The translation applied to the content is an offset the history went
    through. *)
Lemma transform_was_offset (L : Layout) :
  forall (tr : list (Window * Event)) (t : Point.t),
    transform (run L tr mounted) = Some t ->
    exists tr1 tr2, tr = tr1 ++ tr2 /\ t = offset (run L tr1 mounted).
Proof.
  induction tr as [|[w e] tr IH] using rev_ind; intros t Ht; [discriminate|].
  rewrite run_snoc in Ht.
  destruct (transform_dispatch L w e (run L tr mounted)) as [Hsame|Hnew].
  - rewrite Hsame in Ht.
    destruct (IH t Ht) as (tr1 & tr2 & Htr & Hoff).
    exists tr1, (tr2 ++ [(w, e)]); split; [|exact Hoff].
    now rewrite Htr, app_assoc.
  - rewrite Hnew in Ht; injection Ht as <-.
    exists (tr ++ [(w, e)]), []; split; [now rewrite app_nil_r|].
    now rewrite run_snoc.
Qed.

(** C1. Every assignment to the offset leaves it inside the limits computed
    for that assignment: [animateMomentum] always, a move during a drag, and
    a display refresh that runs inertia; every other event leaves the offset
    as it was.  Hence along every history of a mounted component, under any
    sequence of viewport sizes, the offset lies within the limits computed
    by the latest mutation (within any computed limits before the first),
    and the translation the content element shows is one of these offsets,
    within the limits that were in force when it was reached. *)
Theorem offset_always_within_limits :
  forall (L : Layout),
    (forall (w : Window) (c : Canvas),
        in_range (bounds L w) (offset (animateMomentum L w c))) /\
    (forall (w : Window) (e : Event) (c : Canvas),
        if mutates e c
        then in_range (bounds L w) (offset (dispatch L w e c))
        else offset (dispatch L w e c) = offset c) /\
    (forall (w0 : Window) (tr : list (Window * Event)),
        in_range (limits_in_force L tr mounted (bounds L w0))
                 (offset (run L tr mounted))) /\
    (forall (w0 : Window) (tr : list (Window * Event)) (t : Point.t),
        transform (run L tr mounted) = Some t ->
        exists tr1 tr2,
          tr = tr1 ++ tr2 /\ t = offset (run L tr1 mounted) /\
          in_range (limits_in_force L tr1 mounted (bounds L w0)) t).
Proof.
  intros L; split; [|split; [|split]].
  - intros w c; rewrite offset_animateMomentum; apply clamp_bounds_in_range.
  - apply dispatch_offset.
  - intros w0 tr; apply run_in_range, zero_in_range.
  - intros w0 tr t Ht.
    destruct (transform_was_offset L tr t Ht) as (tr1 & tr2 & Htr & Hoff).
    exists tr1, tr2; split; [exact Htr|split; [exact Hoff|]].
    rewrite Hoff; apply run_in_range, zero_in_range.
Qed.

(** In particular the offset of a mounted component is never right of or
    below the origin. *)
Lemma reachable_offset_nonpos (L : Layout) (tr : list (Window * Event)) :
  Point.x (offset (run L tr mounted)) <= 0 /\
  Point.y (offset (run L tr mounted)) <= 0.
Proof.
  pose proof (run_in_range L tr mounted (bounds L (mkWindow None 0 0))
                (zero_in_range L _)) as [[_ Hx] [_ Hy]].
  now split.
Qed.

(** ** One display refresh *)

Lemma animateMomentum_after_render (L : Layout) (w : Window) (c : Canvas) :
  animateMomentum L w (updateTransform c) = animateMomentum L w c.
Proof. unfold animateMomentum; cbn; destruct (moving _); reflexivity. Qed.

Lemma render_after_animateMomentum (L : Layout) (w : Window) (c : Canvas) :
  updateTransform (animateMomentum L w c) = animateMomentum L w c.
Proof. unfold animateMomentum; cbn; destruct (moving _); reflexivity. Qed.

Lemma render_twice (c : Canvas) :
  updateTransform (updateTransform c) = updateTransform c.
Proof. reflexivity. Qed.

(** Refresh callbacks that are all renders amount to at most one render. *)
Lemma run_renders (L : Layout) (w : Window) :
  forall (cbs : list (nat * FrameCallback)) (c : Canvas),
    filter is_momentum cbs = [] ->
    runCallbacks L w cbs c
    = match cbs with [] => c | _ :: _ => updateTransform c end.
Proof.
  induction cbs as [|[h cb] cbs IH]; intros c Hf; [reflexivity|].
  cbn [filter] in Hf; unfold is_momentum in Hf at 1; cbn [snd] in Hf.
  destruct cb; [discriminate|].
  rewrite runCallbacks_cons; cbn [callback]; rewrite (IH _ Hf).
  destruct cbs; reflexivity.
Qed.

(** With exactly one inertia continuation among the callbacks the refresh is
    one call of [animateMomentum]. *)
Lemma run_single_momentum (L : Layout) (w : Window) :
  forall (cbs : list (nat * FrameCallback)) (c : Canvas),
    length (filter is_momentum cbs) = 1%nat ->
    runCallbacks L w cbs c = animateMomentum L w c.
Proof.
  induction cbs as [|[h cb] cbs IH]; intros c Hf; [discriminate|].
  cbn [filter] in Hf; unfold is_momentum in Hf at 1; cbn [snd] in Hf.
  rewrite runCallbacks_cons; destruct cb; cbn [callback].
  - cbn [length] in Hf.
    assert (Hnil : filter is_momentum cbs = [])
      by (destruct (filter is_momentum cbs); [reflexivity|discriminate]).
    rewrite (run_renders L w cbs _ Hnil).
    destruct cbs; [reflexivity|apply render_after_animateMomentum].
  - rewrite (IH _ Hf); apply animateMomentum_after_render.
Qed.

Lemma runFrame_single (L : Layout) (w : Window) (c : Canvas) :
  momentum_pending c = 1%nat ->
  runFrame L w c = animateMomentum L w (set_frameCallbacks [] c).
Proof. intros H; unfold runFrame; now apply run_single_momentum. Qed.

Lemma momentum_pending_animateMomentum (L : Layout) (w : Window) (c : Canvas) :
  momentum_pending (animateMomentum L w c)
  = (momentum_pending c
     + if moving (friction (velocity c)) then 1 else 0)%nat.
Proof.
  unfold animateMomentum, momentum_pending; cbn.
  destruct (moving _); cbn.
  - now rewrite filter_app, length_app.
  - now rewrite Nat.add_0_r.
Qed.

(** A refresh with one inertia continuation pending. *)
Lemma runFrame_coasting (L : Layout) (w : Window) (c : Canvas) :
  momentum_pending c = 1%nat ->
  offset (runFrame L w c)
  = clamp (bounds L w) (Point.add (offset c) (velocity c)) /\
  velocity (runFrame L w c) = friction (velocity c) /\
  isDragging (runFrame L w c) = isDragging c /\
  momentum_pending (runFrame L w c)
  = (if moving (friction (velocity c)) then 1 else 0)%nat.
Proof.
  intros H; rewrite (runFrame_single L w c H).
  rewrite offset_animateMomentum, velocity_animateMomentum,
    isDragging_animateMomentum, momentum_pending_animateMomentum.
  repeat split.
Qed.

(** A refresh with no inertia continuation pending. *)
Lemma runFrame_at_rest (L : Layout) (w : Window) (c : Canvas) :
  momentum_pending c = 0%nat ->
  offset (runFrame L w c) = offset c /\
  velocity (runFrame L w c) = velocity c /\
  isDragging (runFrame L w c) = isDragging c /\
  lastPos (runFrame L w c) = lastPos c /\
  momentum_pending (runFrame L w c) = 0%nat.
Proof.
  intros H; unfold runFrame.
  assert (Hnil : filter is_momentum (frameCallbacks c) = []).
  { unfold momentum_pending in H.
    destruct (filter is_momentum (frameCallbacks c)); [reflexivity|discriminate]. }
  rewrite (run_renders L w _ _ Hnil).
  destruct (frameCallbacks c); repeat split.
Qed.

Lemma run_frames_at_rest (L : Layout) :
  forall (ws : list Window) (c : Canvas),
    momentum_pending c = 0%nat ->
    offset (run L (frames ws) c) = offset c /\
    velocity (run L (frames ws) c) = velocity c /\
    momentum_pending (run L (frames ws) c) = 0%nat.
Proof.
  induction ws as [|w ws IH]; intros c H; [now repeat split|].
  change (run L (frames (w :: ws)) c) with (run L (frames ws) (runFrame L w c)).
  destruct (runFrame_at_rest L w c H) as (Ho & Hv & _ & _ & Hp).
  destruct (IH _ Hp) as (Ho' & Hv' & Hp').
  rewrite Ho', Hv', Ho, Hv; now repeat split.
Qed.

(** ** Axis by axis *)

Lemma coord_clamp (a : Axis) (b : Bounds) (p : Point.t) :
  coord a (clamp b p) = Qmax (lower a b) (Qmin 0 (coord a p)).
Proof. destruct a; reflexivity. Qed.

Lemma coord_add (a : Axis) (p q : Point.t) :
  coord a (Point.add p q) = coord a p + coord a q.
Proof. destruct a; reflexivity. Qed.

Lemma coord_sub (a : Axis) (p q : Point.t) :
  coord a (Point.sub p q) = coord a p - coord a q.
Proof. destruct a; reflexivity. Qed.

Lemma coord_friction (a : Axis) (v : Point.t) :
  coord a (friction v) = coord a v * 0.9.
Proof. destruct a; reflexivity. Qed.

Lemma lower_nonpos (L : Layout) (w : Window) (a : Axis) :
  lower a (bounds L w) <= 0.
Proof. destruct a; apply bounds_nonpos. Qed.

Lemma in_range_coord (b : Bounds) (p : Point.t) :
  in_range b p <-> forall a, lower a b <= coord a p <= 0.
Proof.
  split.
  - intros [Hx Hy] [|]; assumption.
  - intros H; split; [apply (H AxisX)|apply (H AxisY)].
Qed.

(** A clamped step never exceeds the proposed one and never goes against
    it, provided it starts inside the range. *)
Lemma clamp_axis_step (m o d : Q) :
  m <= o <= 0 ->
  let o' := Qmax m (Qmin 0 (o + d)) in
  Qabs (o' - o) <= Qabs d /\
  (0 <= d -> 0 <= o' - o) /\
  (d <= 0 -> o' - o <= 0).
Proof.
  intros Ho o'; subst o'.
  split; [|split; intros Hd; minmax_lra].
  apply Qabs_Qle_condition.
  destruct (Qlt_le_dec d 0) as [Hd|Hd].
  - rewrite (Qabs_neg d) by lra. split; minmax_lra.
  - rewrite (Qabs_pos d) by lra. split; minmax_lra.
Qed.

Lemma clamp_axis_pinned_low (m o v : Q) :
  o == m -> v <= 0 -> Qmax m (Qmin 0 (o + v)) == m.
Proof. intros Ho Hv. minmax_lra. Qed.

Lemma clamp_axis_pinned_high (m o v : Q) :
  m <= 0 -> o == 0 -> 0 <= v -> Qmax m (Qmin 0 (o + v)) == 0.
Proof. intros Hm Ho Hv. minmax_lra. Qed.

(** ** Sticking at a boundary *)

Lemma animateMomentum_pinned_low (L : Layout) (w : Window) (a : Axis)
  (c : Canvas) :
  pinned_low (bounds L w) a c ->
  pinned_low (bounds L w) a (animateMomentum L w c).
Proof.
  intros [Ho Hv]; unfold pinned_low.
  rewrite offset_animateMomentum, velocity_animateMomentum, coord_clamp,
    coord_add, coord_friction.
  split; [now apply clamp_axis_pinned_low|lra].
Qed.

Lemma animateMomentum_pinned_high (L : Layout) (w : Window) (a : Axis)
  (c : Canvas) :
  pinned_high a c -> pinned_high a (animateMomentum L w c).
Proof.
  intros [Ho Hv]; unfold pinned_high.
  rewrite offset_animateMomentum, velocity_animateMomentum, coord_clamp,
    coord_add, coord_friction.
  split; [apply clamp_axis_pinned_high; auto using lower_nonpos|lra].
Qed.

Lemma iter_pinned_low (L : Layout) (w : Window) (a : Axis) (c : Canvas)
  (k : nat) :
  pinned_low (bounds L w) a c ->
  pinned_low (bounds L w) a (Nat.iter k (animateMomentum L w) c).
Proof.
  intros H; induction k as [|k IH]; [exact H|].
  cbn [Nat.iter nat_rect]; now apply animateMomentum_pinned_low.
Qed.

Lemma iter_pinned_high (L : Layout) (w : Window) (a : Axis) (c : Canvas)
  (k : nat) :
  pinned_high a c -> pinned_high a (Nat.iter k (animateMomentum L w) c).
Proof.
  intros H; induction k as [|k IH]; [exact H|].
  cbn [Nat.iter nat_rect]; now apply animateMomentum_pinned_high.
Qed.

Lemma runCallbacks_pinned_low (L : Layout) (w : Window) (a : Axis) :
  forall (cbs : list (nat * FrameCallback)) (c : Canvas),
    pinned_low (bounds L w) a c ->
    pinned_low (bounds L w) a (runCallbacks L w cbs c).
Proof.
  induction cbs as [|[h cb] cbs IH]; intros c H; [exact H|].
  rewrite runCallbacks_cons; apply IH.
  destruct cb; [now apply animateMomentum_pinned_low|exact H].
Qed.

Lemma runCallbacks_pinned_high (L : Layout) (w : Window) (a : Axis) :
  forall (cbs : list (nat * FrameCallback)) (c : Canvas),
    pinned_high a c -> pinned_high a (runCallbacks L w cbs c).
Proof.
  induction cbs as [|[h cb] cbs IH]; intros c H; [exact H|].
  rewrite runCallbacks_cons; apply IH.
  destruct cb; [now apply animateMomentum_pinned_high|exact H].
Qed.

Lemma runFrame_pinned_low (L : Layout) (w : Window) (a : Axis) (c : Canvas) :
  pinned_low (bounds L w) a c -> pinned_low (bounds L w) a (runFrame L w c).
Proof. intros H; unfold runFrame; now apply runCallbacks_pinned_low. Qed.

Lemma runFrame_pinned_high (L : Layout) (w : Window) (a : Axis) (c : Canvas) :
  pinned_high a c -> pinned_high a (runFrame L w c).
Proof. intros H; unfold runFrame; now apply runCallbacks_pinned_high. Qed.

Lemma run_frames_pinned_low (L : Layout) (w : Window) (a : Axis) :
  forall (n : nat) (c : Canvas),
    pinned_low (bounds L w) a c ->
    pinned_low (bounds L w) a (run L (frames (repeat w n)) c).
Proof.
  induction n as [|n IH]; intros c H; [exact H|].
  change (run L (frames (repeat w (S n))) c)
    with (run L (frames (repeat w n)) (runFrame L w c)).
  now apply IH, runFrame_pinned_low.
Qed.

Lemma run_frames_pinned_high (L : Layout) (a : Axis) :
  forall (ws : list Window) (c : Canvas),
    pinned_high a c -> pinned_high a (run L (frames ws) c).
Proof.
  induction ws as [|w ws IH]; intros c H; [exact H|].
  change (run L (frames (w :: ws)) c)
    with (run L (frames ws) (runFrame L w c)).
  now apply IH, runFrame_pinned_high.
Qed.

Lemma velocity_iter (L : Layout) (w : Window) (c : Canvas) (a : Axis) :
  forall k,
    coord a (velocity (Nat.iter k (animateMomentum L w) c))
    == coord a (velocity c) * friction_pow k.
Proof.
  induction k as [|k IH]; cbn [Nat.iter nat_rect friction_pow]; [lra|].
  rewrite velocity_animateMomentum, coord_friction, IH; lra.
Qed.

(** C6. In a step of the inertia the velocity is multiplied by 0.9 on each
    axis whatever the clamp did to the offset, so after [k] steps it is
    [0.9^k] times what it was, and each axis's new offset is the clamp of
    that axis's own sum.  So the velocity never changes sign, an offset that
    starts inside the range never moves against its velocity, and an axis
    pinned at an end of its range with outward velocity stays exactly
    there, step after step and display refresh after display refresh,
    while the other axis keeps advancing by its own clamped velocity. *)
Theorem inertia_sticks_without_bounce :
  forall (L : Layout) (w : Window) (c : Canvas) (a : Axis),
    let b := bounds L w in
    let c' := animateMomentum L w c in
    coord a (velocity c') == coord a (velocity c) * 0.9 /\
    (forall k,
       coord a (velocity (Nat.iter k (animateMomentum L w) c))
       == coord a (velocity c) * friction_pow k) /\
    coord a (offset c')
    = Qmax (lower a b) (Qmin 0 (coord a (offset c) + coord a (velocity c))) /\
    (0 <= coord a (velocity c) -> 0 <= coord a (velocity c')) /\
    (coord a (velocity c) <= 0 -> coord a (velocity c') <= 0) /\
    (in_range b (offset c) ->
     (0 <= coord a (velocity c) -> coord a (offset c) <= coord a (offset c')) /\
     (coord a (velocity c) <= 0 -> coord a (offset c') <= coord a (offset c))) /\
    (pinned_low b a c ->
     forall k,
       coord a (offset (Nat.iter k (animateMomentum L w) c)) == lower a b /\
       coord a (offset (run L (frames (repeat w k)) c)) == lower a b) /\
    (pinned_high a c ->
     forall k,
       coord a (offset (Nat.iter k (animateMomentum L w) c)) == 0 /\
       forall ws, coord a (offset (run L (frames ws) c)) == 0).
Proof.
  intros L w c a b c'; subst b c'.
  rewrite velocity_animateMomentum, offset_animateMomentum, coord_clamp,
    coord_add, coord_friction.
  split; [reflexivity|split; [apply velocity_iter|split; [reflexivity|]]].
  split; [intros; lra|split; [intros; lra|]].
  split; [|split].
  - intros Hr; apply in_range_coord with (a := a) in Hr.
    destruct (clamp_axis_step (lower a (bounds L w)) (coord a (offset c))
                (coord a (velocity c)) Hr) as (_ & Hup & Hdown).
    split; intros Hv; [specialize (Hup Hv)|specialize (Hdown Hv)]; lra.
  - intros H k; split.
    + apply (iter_pinned_low L w a c k H).
    + apply (run_frames_pinned_low L w a k c H).
  - intros H k; split.
    + apply (iter_pinned_high L w a c k H).
    + intros ws; apply (run_frames_pinned_high L a ws c H).
Qed.

Lemma inertia_sticks_without_bounce_witness :
  let c := held_at_left_end in
  let b := bounds canvasLayout w500 in
  pinned_low b AxisX c /\ pinned_high AxisY c /\
  coord AxisX (offset (Nat.iter 3 (animateMomentum canvasLayout w500) c))
  == lower AxisX b /\
  coord AxisY (offset (Nat.iter 3 (animateMomentum canvasLayout w500) c)) == 0.
Proof.
  intros c b.
  assert (Hlow : pinned_low b AxisX c)
    by (split; vm_compute; [reflexivity|discriminate]).
  assert (Hhigh : pinned_high AxisY c)
    by (split; vm_compute; [reflexivity|discriminate]).
  destruct (inertia_sticks_without_bounce canvasLayout w500 c AxisX)
    as (_ & _ & _ & _ & _ & _ & Hx & _).
  destruct (inertia_sticks_without_bounce canvasLayout w500 c AxisY)
    as (_ & _ & _ & _ & _ & _ & _ & Hy).
  exact (conj Hlow (conj Hhigh
           (conj (proj1 (Hx Hlow 3%nat)) (proj1 (Hy Hhigh 3%nat))))).
Defined.

(** ** A move during a drag *)

Lemma velocity_onPointerMove (L : Layout) (w : Window) (p : Point.t)
  (c : Canvas) :
  isDragging c = true ->
  velocity (onPointerMove L w p c) = Point.sub p (lastPos c).
Proof. intros H; unfold onPointerMove; rewrite H; reflexivity. Qed.

Lemma lastPos_onPointerMove (L : Layout) (w : Window) (p : Point.t)
  (c : Canvas) :
  isDragging c = true -> lastPos (onPointerMove L w p c) = p.
Proof. intros H; unfold onPointerMove; rewrite H; reflexivity. Qed.

Lemma isDragging_onPointerMove (L : Layout) (w : Window) (p : Point.t)
  (c : Canvas) :
  isDragging (onPointerMove L w p c) = isDragging c.
Proof.
  unfold onPointerMove; destruct (isDragging c) eqn:H; cbn; congruence.
Qed.

Lemma momentum_pending_onPointerMove (L : Layout) (w : Window) (p : Point.t)
  (c : Canvas) :
  momentum_pending (onPointerMove L w p c) = momentum_pending c.
Proof.
  unfold onPointerMove, momentum_pending; destruct (isDragging c); cbn;
    [|reflexivity].
  rewrite filter_app; cbn; now rewrite app_nil_r.
Qed.

Lemma momentum_pending_onPointerUp (pid : nat) (c : Canvas) :
  momentum_pending (onPointerUp pid c) = S (momentum_pending c).
Proof.
  unfold onPointerUp, momentum_pending; cbn.
  rewrite filter_app, length_app; cbn; lia.
Qed.

(** C10, for an offset that lies within the limits of the current viewport.
    A move during a drag changes each coordinate of the offset by no more
    than the raw displacement and never against it; the velocity becomes the
    raw displacement whatever the clamp did.  So when an axis is held against
    an end of its range and pushed further out, the offset stays, the velocity
    is not zero, and the release starts an inertia run that leaves that
    coordinate where it was at every refresh. *)
Theorem drag_step_within_displacement :
  forall (L : Layout) (w : Window) (p : Point.t) (c : Canvas),
    isDragging c = true ->
    in_range (bounds L w) (offset c) ->
    let d := Point.sub p (lastPos c) in
    let c' := onPointerMove L w p c in
    (forall a,
        Qabs (coord a (offset c') - coord a (offset c)) <= Qabs (coord a d) /\
        (0 <= coord a d -> 0 <= coord a (offset c') - coord a (offset c)) /\
        (coord a d <= 0 -> coord a (offset c') - coord a (offset c) <= 0)) /\
    velocity c' = d /\
    (forall a pid,
        (coord a (offset c) == lower a (bounds L w) /\ coord a d < 0) \/
        (coord a (offset c) == 0 /\ 0 < coord a d) ->
        let c'' := onPointerUp pid c' in
        coord a (offset c') == coord a (offset c) /\
        ~ coord a (velocity c'') == 0 /\
        (1 <= momentum_pending c'')%nat /\
        (forall n, coord a (offset (run L (frames (repeat w n)) c''))
                   == coord a (offset c))).
Proof.
  intros L w p c Hdrag Hr d c'; subst d c'.
  rewrite (velocity_onPointerMove L w p c Hdrag).
  split; [|split; [reflexivity|]].
  - intros a. rewrite offset_onPointerMove, Hdrag, coord_clamp, coord_add.
    apply clamp_axis_step. now apply in_range_coord.
  - intros a pid Hheld c''; subst c''.
    rewrite momentum_pending_onPointerUp.
    change (velocity (onPointerUp pid (onPointerMove L w p c)))
      with (velocity (onPointerMove L w p c)).
    rewrite (velocity_onPointerMove L w p c Hdrag).
    assert (Hmove : coord a (offset (onPointerMove L w p c))
                    == coord a (offset c)).
    { rewrite offset_onPointerMove, Hdrag, coord_clamp, coord_add.
      destruct Hheld as [[Ho Hd]|[Ho Hd]].
      - rewrite Ho at 2. apply clamp_axis_pinned_low; [exact Ho|lra].
      - rewrite Ho at 2.
        apply clamp_axis_pinned_high; [apply lower_nonpos|exact Ho|lra]. }
    split; [exact Hmove|].
    split; [destruct Hheld as [[_ Hd]|[_ Hd]]; lra|].
    split; [lia|].
    intros n.
    destruct Hheld as [[Ho Hd]|[Ho Hd]].
    + rewrite Ho.
      apply (run_frames_pinned_low L w a n).
      split; cbn [offset velocity onPointerUp set_frameCallbacks
                    requestAnimationFrame set_animationFrame set_nextHandle
                    releasePointerCapture set_captured set_isDragging].
      * now rewrite Hmove.
      * rewrite (velocity_onPointerMove L w p c Hdrag); lra.
    + rewrite Ho.
      apply (run_frames_pinned_high L a (repeat w n)).
      split; cbn [offset velocity onPointerUp set_frameCallbacks
                    requestAnimationFrame set_animationFrame set_nextHandle
                    releasePointerCapture set_captured set_isDragging].
      * now rewrite Hmove.
      * rewrite (velocity_onPointerMove L w p c Hdrag); lra.
Qed.

Lemma drag_step_within_displacement_witness :
  let c := held_at_left_end in
  let p := Point.mk 90 100 in
  let c' := onPointerMove canvasLayout w500 p c in
  isDragging c = true /\
  in_range (bounds canvasLayout w500) (offset c) /\
  (coord AxisX (offset c) == lower AxisX (bounds canvasLayout w500) /\
   coord AxisX (Point.sub p (lastPos c)) < 0) /\
  velocity c' = Point.sub p (lastPos c) /\
  coord AxisX (offset c') == coord AxisX (offset c) /\
  coord AxisX (offset (run canvasLayout (frames (repeat w500 5))
                           (onPointerUp 1%nat c')))
  == coord AxisX (offset c).
Proof.
  intros c p c'.
  assert (Hdrag : isDragging c = true) by reflexivity.
  assert (Hr : in_range (bounds canvasLayout w500) (offset c))
    by (repeat split; vm_compute; discriminate).
  assert (Hheld : coord AxisX (offset c) == lower AxisX (bounds canvasLayout w500)
                  /\ coord AxisX (Point.sub p (lastPos c)) < 0)
    by (split; vm_compute; reflexivity).
  destruct (drag_step_within_displacement canvasLayout w500 p c Hdrag Hr)
    as (_ & Hv & Hpin).
  destruct (Hpin AxisX 1%nat (or_introl Hheld)) as (Hstay & _ & _ & Hframe).
  exact (conj Hdrag (conj Hr (conj Hheld (conj Hv
           (conj Hstay (Hframe 5%nat)))))).
Defined.

(** C10 as stated, on the code, after the window was widened: the content
    parked at -1500 is outside the new limits (minX = -712), so a move of
    one pixel to the left carries the offset 788 pixels to the right. *)
Lemma drag_step_after_resize_exceeds_displacement :
  let c := run canvasLayout
               (parked_history ++ [(w1500, PointerDown (Point.mk 0 0) 2%nat)])
               mounted in
  let p := Point.mk (-1) 0 in
  let d := Point.sub p (lastPos c) in
  let c' := dispatch canvasLayout w1500 (PointerMove p) c in
  isDragging c = true /\
  Point.x d == -1 /\
  Point.x (offset c) == -1500 /\
  Point.x (offset c') == -712 /\
  ~ (Qabs (coord AxisX (offset c') - coord AxisX (offset c))
     <= Qabs (coord AxisX d)) /\
  ~ (coord AxisX d <= 0 ->
     coord AxisX (offset c') - coord AxisX (offset c) <= 0).
Proof.
  vm_compute.
  repeat split; try discriminate; intros H; apply H; try discriminate;
    reflexivity.
Qed.

(** ** The stop condition *)

Lemma Qgtb_true (a b : Q) : Qgtb a b = true <-> b < a.
Proof.
  unfold Qgtb; rewrite negb_true_iff.
  destruct (Qle_bool a b) eqn:H.
  - apply Qle_bool_iff in H; split; [discriminate|lra].
  - split; [intros _|reflexivity].
    apply Qnot_le_lt; intros Hle; apply Qle_bool_iff in Hle; congruence.
Qed.

Lemma moving_true (v : Point.t) :
  moving v = true <-> exists a, 0.5 < Qabs (coord a v).
Proof.
  unfold moving; rewrite orb_true_iff, !Qgtb_true; split.
  - intros [H|H]; [exists AxisX|exists AxisY]; exact H.
  - intros [[|] H]; [left|right]; exact H.
Qed.

Lemma moving_false (v : Point.t) :
  moving v = false <-> forall a, Qabs (coord a v) <= 0.5.
Proof.
  split.
  - intros H a; apply Qnot_lt_le; intros Ha.
    assert (Ht : moving v = true) by (apply moving_true; now exists a).
    congruence.
  - intros H; destruct (moving v) eqn:Hm; [|reflexivity].
    apply moving_true in Hm; destruct Hm as [a Ha].
    specialize (H a); lra.
Qed.

Lemma eq_coord (v v' : Point.t) (a : Axis) :
  v =p= v' -> coord a v == coord a v'.
Proof. intros [Hx Hy]; destruct a; assumption. Qed.

Lemma moving_eq (v v' : Point.t) : v =p= v' -> moving v = moving v'.
Proof.
  intros He.
  destruct (moving v') eqn:H'.
  - apply moving_true in H'; destruct H' as [a Ha].
    apply moving_true; exists a; now rewrite (eq_coord v v' a He).
  - apply moving_false; intros a.
    rewrite (eq_coord v v' a He); now apply moving_false.
Qed.

Lemma friction_eq (v v' : Point.t) : v =p= v' -> friction v =p= friction v'.
Proof. intros [Hx Hy]; split; cbn [friction Point.x Point.y]; lra. Qed.

Lemma decay_eq :
  forall (k : nat) (v v' : Point.t), v =p= v' -> decay k v =p= decay k v'.
Proof.
  induction k as [|k IH]; intros v v' He; [exact He|].
  cbn [decay]; now apply IH, friction_eq.
Qed.

Lemma Qabs_zero (q : Q) : q == 0 -> Qabs q == 0.
Proof. intros H; rewrite H; reflexivity. Qed.

Lemma friction_zero (v : Point.t) :
  v =p= Point.zero -> friction v =p= Point.zero.
Proof. intros [Hx Hy]; split; cbn in *; lra. Qed.

Lemma resting_zero (v : Point.t) : v =p= Point.zero -> moving v = false.
Proof.
  intros [Hx Hy]; apply moving_false; intros [|]; cbn [coord];
    rewrite Qabs_zero by assumption; lra.
Qed.

(** C9, for an offset that lies within the limits of the current viewport.
    A release with zero velocity schedules one inertia step; its refresh
    schedules nothing more, leaves the velocity zero and assigns to the
    offset the clamp of the offset plus that velocity, which is within the
    limits of the viewport at that refresh and is the same offset when that
    was within them already; later refreshes do not touch it.  The velocity
    at the release is zero when the gesture had no move, or when its last
    move had zero displacement. *)
Theorem zero_velocity_release_stays :
  forall (L : Layout) (w : Window) (pid : nat) (c : Canvas),
    velocity c =p= Point.zero ->
    momentum_pending c = 0%nat ->
    let c1 := onPointerUp pid c in
    let c2 := runFrame L w c1 in
    momentum_pending c1 = 1%nat /\
    momentum_pending c2 = 0%nat /\
    velocity c2 =p= Point.zero /\
    offset c2 = clamp (bounds L w) (Point.add (offset c) (velocity c)) /\
    in_range (bounds L w) (offset c2) /\
    (in_range (bounds L w) (offset c) -> offset c2 =p= offset c) /\
    (forall ws, offset (run L (frames ws) c2) = offset c2) /\
    (forall p0 pid0 c0, velocity (onPointerDown p0 pid0 c0) = Point.zero) /\
    (forall c0, isDragging c0 = true ->
                velocity (onPointerMove L w (lastPos c0) c0) =p= Point.zero).
Proof.
  intros L w pid c Hv Hp c1 c2; subst c1 c2.
  assert (H1 : momentum_pending (onPointerUp pid c) = 1%nat)
    by (rewrite momentum_pending_onPointerUp; lia).
  destruct (runFrame_coasting L w _ H1) as (Ho & Hv' & _ & Hp').
  change (velocity (onPointerUp pid c)) with (velocity c) in *.
  change (offset (onPointerUp pid c)) with (offset c) in *.
  rewrite (resting_zero _ (friction_zero _ Hv)) in Hp'.
  split; [exact H1|split; [exact Hp'|]].
  split; [|split; [exact Ho|split; [|split; [|split; [|split]]]]].
  - rewrite Hv'; now apply friction_zero.
  - rewrite Ho; apply clamp_bounds_in_range.
  - intros Hr; rewrite Ho.
    destruct Hv as [Hvx Hvy]; cbn in Hvx, Hvy.
    destruct (clamp_fix (bounds L w) (offset c) Hr) as [Hx Hy].
    split; cbn [clamp Point.add Point.x Point.y] in *.
    + rewrite <- Hx at 2.
      assert (E : Point.x (offset c) + Point.x (velocity c)
                  == Point.x (offset c)) by lra.
      now rewrite E.
    + rewrite <- Hy at 2.
      assert (E : Point.y (offset c) + Point.y (velocity c)
                  == Point.y (offset c)) by lra.
      now rewrite E.
  - intros ws; now apply run_frames_at_rest.
  - intros p0 pid0 c0.
    unfold onPointerDown; destruct (animationFrame c0) as [[|h]|]; reflexivity.
  - intros c0 Hd.
    unfold onPointerMove; rewrite Hd; cbn.
    split; cbn; lra.
Qed.

Lemma zero_velocity_release_stays_witness :
  let c := run canvasLayout
               (at500 [PointerDown (Point.mk 40 40) 1%nat]) mounted in
  let c2 := runFrame canvasLayout w500 (onPointerUp 1%nat c) in
  velocity c =p= Point.zero /\ momentum_pending c = 0%nat /\
  in_range (bounds canvasLayout w500) (offset c) /\
  momentum_pending c2 = 0%nat /\ offset c2 =p= offset c.
Proof.
  intros c c2.
  assert (Hv : velocity c =p= Point.zero) by (split; reflexivity).
  assert (Hp : momentum_pending c = 0%nat) by reflexivity.
  assert (Hr : in_range (bounds canvasLayout w500) (offset c))
    by (repeat split; vm_compute; discriminate).
  destruct (zero_velocity_release_stays canvasLayout w500 1%nat c Hv Hp)
    as (_ & Hrest & _ & _ & _ & Hsame & _).
  exact (conj Hv (conj Hp (conj Hr (conj Hrest (Hsame Hr))))).
Defined.

(** C9 as stated, on the code, with the content parked at -1500.  First, a
    click after the window was widened: the gesture has no movement, its
    release has zero velocity, and the single inertia step carries the
    content to the new limit -712.  Second, in the unchanged window, a
    gesture that goes ten pixels left and comes back: its net movement is
    zero, its release velocity is the last displacement (10, 0), and the
    refresh after the release moves the content to -1490. *)
Lemma motionless_gesture_moves_content :
  let parked := run canvasLayout parked_history mounted in
  let c := run canvasLayout [(w1500, PointerDown (Point.mk 0 0) 2%nat)] parked in
  let c2 := run canvasLayout [(w1500, PointerUp 2%nat); (w1500, Frame)] c in
  let d := run canvasLayout
               (at500 [PointerDown (Point.mk 0 0) 2%nat;
                       PointerMove (Point.mk (-10) 0);
                       PointerMove (Point.mk 0 0)]) parked in
  let d2 := run canvasLayout (at500 [PointerUp 2%nat; Frame]) d in
  momentum_pending parked = 0%nat /\
  Point.x (offset parked) == -1500 /\
  (velocity c = Point.zero /\
   Point.x (offset c) == -1500 /\
   Point.x (offset c2) == -712 /\
   ~ offset c2 =p= offset c) /\
  (lastPos d = Point.mk 0 0 /\
   Point.x (offset d) == -1500 /\
   velocity d = Point.mk 10 0 /\
   Point.x (offset d2) == -1490).
Proof.
  vm_compute.
  repeat split; try discriminate.
  intros [H _]; discriminate H.
Qed.

(** ** A whole drag to the left *)

Lemma isDragging_runCallbacks (L : Layout) (w : Window) :
  forall (cbs : list (nat * FrameCallback)) (c : Canvas),
    isDragging (runCallbacks L w cbs c) = isDragging c /\
    lastPos (runCallbacks L w cbs c) = lastPos c.
Proof.
  induction cbs as [|[h cb] cbs IH]; intros c; [now split|].
  rewrite runCallbacks_cons.
  destruct (IH (callback L w cb c)) as [Hd Hl]; rewrite Hd, Hl.
  destruct cb; cbn [callback];
    [now rewrite isDragging_animateMomentum, lastPos_animateMomentum|now split].
Qed.

(** Callbacks that run with a velocity pointing left never move the offset
    to the right of where the clamp would put it. *)
Lemma runCallbacks_leftward (L : Layout) (w : Window) (a : Axis) :
  forall (cbs : list (nat * FrameCallback)) (c : Canvas),
    coord a (velocity c) <= 0 ->
    coord a (velocity (runCallbacks L w cbs c)) <= 0 /\
    coord a (offset (runCallbacks L w cbs c))
    <= Qmax (lower a (bounds L w)) (coord a (offset c)).
Proof.
  induction cbs as [|[h cb] cbs IH]; intros c Hv.
  - split; [exact Hv|apply Q.le_max_r].
  - rewrite runCallbacks_cons; destruct cb; cbn [callback].
    + destruct (IH (animateMomentum L w c)) as [Hv' Ho'].
      { rewrite velocity_animateMomentum, coord_friction; lra. }
      split; [exact Hv'|].
      eapply Qle_trans; [exact Ho'|].
      rewrite offset_animateMomentum, coord_clamp, coord_add.
      minmax_lra.
    + exact (IH (updateTransform c) Hv).
Qed.

Section LeftwardDrag.

Variable L : Layout.
Variable w : Window.

(** The offset stays left of where the pointer would have carried it,
    or at the left end of the range. *)
Lemma leftward_drag_upper :
  forall (evs : list Event) (c : Canvas) (t : Q),
    isDragging c = true ->
    Point.x (velocity c) <= 0 ->
    leftward (Point.x (lastPos c)) evs ->
    Point.x (offset c) <= Qmax (minX (bounds L w)) t ->
    Point.x (offset (run L (within w evs) c))
    <= Qmax (minX (bounds L w))
            (t + (pointer_x (Point.x (lastPos c)) evs
                  - Point.x (lastPos c))).
Proof.
  induction evs as [|e evs IH]; intros c t Hdrag Hv Hleft Ho.
  - cbn [pointer_x within map run fold_left].
    revert Ho; minmax_lra.
  - change (run L (within w (e :: evs)) c)
      with (run L (within w evs) (dispatch L w e c)).
    destruct e as [p pid|p|pid|pid|]; cbn [leftward] in Hleft;
      try contradiction; cbn [dispatch pointer_x].
    + destruct Hleft as [Hp Hleft].
      pose proof (lastPos_onPointerMove L w p c Hdrag) as Hl.
      assert (Hstep : Point.x (offset (onPointerMove L w p c))
                      <= Qmax (minX (bounds L w))
                              (t + (Point.x p - Point.x (lastPos c)))).
      { rewrite offset_onPointerMove, Hdrag.
        cbn [clamp Point.add Point.sub Point.x].
        revert Ho; generalize (minX (bounds L w)); intros m; minmax_lra. }
      assert (Hv' : Point.x (velocity (onPointerMove L w p c)) <= 0).
      { rewrite (velocity_onPointerMove L w p c Hdrag); cbn; lra. }
      assert (Hd' : isDragging (onPointerMove L w p c) = true)
        by now rewrite isDragging_onPointerMove.
      assert (Hleft' : leftward (Point.x (lastPos (onPointerMove L w p c))) evs)
        by now rewrite Hl.
      pose proof (IH _ _ Hd' Hv' Hleft' Hstep) as H; rewrite Hl in H.
      eapply Qle_trans; [exact H|].
      apply Q.max_le_compat_l; lra.
    + destruct (isDragging_runCallbacks L w (frameCallbacks c)
                  (set_frameCallbacks [] c)) as [Hd Hl].
      destruct (runCallbacks_leftward L w AxisX (frameCallbacks c)
                  (set_frameCallbacks [] c) Hv) as [Hv' Ho'].
      fold (runFrame L w c) in Hd, Hl, Hv', Ho'.
      cbn [isDragging lastPos velocity set_frameCallbacks coord lower offset]
        in Hd, Hl, Hv', Ho'.
      assert (Hd' : isDragging (runFrame L w c) = true) by congruence.
      assert (Hleft' : leftward (Point.x (lastPos (runFrame L w c))) evs)
        by now rewrite Hl.
      assert (Hstep : Point.x (offset (runFrame L w c))
                      <= Qmax (minX (bounds L w)) t).
      { eapply Qle_trans; [exact Ho'|].
        revert Ho; generalize (minX (bounds L w)); intros m; minmax_lra. }
      pose proof (IH _ _ Hd' Hv' Hleft' Hstep) as H; rewrite Hl in H.
      exact H.
Qed.

(** Once a move has happened the offset is within the limits. *)
Lemma leftward_drag_in_range :
  forall (evs : list Event) (c : Canvas),
    isDragging c = true ->
    leftward (Point.x (lastPos c)) evs ->
    in_range (bounds L w) (offset c)
    \/ pointer_x (Point.x (lastPos c)) evs < Point.x (lastPos c) ->
    in_range (bounds L w) (offset (run L (within w evs) c)).
Proof.
  induction evs as [|e evs IH]; intros c Hdrag Hleft Hor.
  - cbn [pointer_x] in Hor; destruct Hor as [H|H]; [exact H|lra].
  - change (run L (within w (e :: evs)) c)
      with (run L (within w evs) (dispatch L w e c)).
    destruct e as [p pid|p|pid|pid|]; cbn [leftward] in Hleft;
      try contradiction; cbn [dispatch pointer_x] in *.
    + destruct Hleft as [Hp Hleft].
      apply IH.
      * now rewrite isDragging_onPointerMove.
      * now rewrite (lastPos_onPointerMove L w p c Hdrag).
      * left. rewrite offset_onPointerMove, Hdrag.
        apply clamp_bounds_in_range.
    + destruct (isDragging_runCallbacks L w (frameCallbacks c)
                  (set_frameCallbacks [] c)) as [Hd Hl].
      fold (runFrame L w c) in Hd, Hl.
      cbn [isDragging lastPos set_frameCallbacks] in Hd, Hl.
      apply IH.
      * congruence.
      * now rewrite Hl.
      * rewrite Hl. destruct Hor as [Hr|Hlt]; [left|now right].
        pose proof (dispatch_offset L w Frame c) as Hd'.
        cbn [dispatch] in Hd'.
        destruct (mutates Frame c); [exact Hd'|now rewrite Hd'].
Qed.

End LeftwardDrag.

Lemma offset_run_onPointerDown (L : Layout) (w : Window) (p0 : Point.t)
  (pid : nat) (evs : list Event) (c : Canvas) :
  run L (within w (PointerDown p0 pid :: evs)) c
  = run L (within w evs) (onPointerDown p0 pid c).
Proof. reflexivity. Qed.

Lemma onPointerDown_fields (p0 : Point.t) (pid : nat) (c : Canvas) :
  isDragging (onPointerDown p0 pid c) = true /\
  lastPos (onPointerDown p0 pid c) = p0 /\
  velocity (onPointerDown p0 pid c) = Point.zero.
Proof.
  unfold onPointerDown; destruct (animationFrame c) as [[|h]|];
    repeat split.
Qed.

(** C8. In a 500 by 500 viewport over a content 2000 wide and 150 high the
    limits are minX = -1500 and minY = 0; and a gesture that starts with the
    offset not right of the origin, moves only leftward (display refreshes
    may come in between) and ends 3000 pixels left of where it started
    leaves the offset at (-1500, 0). *)
Theorem clamped_drag_scenario :
  forall (w : Window) (c : Canvas) (p0 : Point.t) (pid : nat)
         (evs : list Event),
    containerWidth w == 500 ->
    innerHeight w = 500%Z ->
    Point.x (offset c) <= 0 ->
    leftward (Point.x p0) evs ->
    pointer_x (Point.x p0) evs - Point.x p0 == -3000 ->
    minX (bounds scenarioLayout w) == -1500 /\
    minY (bounds scenarioLayout w) == 0 /\
    offset (run scenarioLayout (within w (PointerDown p0 pid :: evs)) c)
    =p= Point.mk (-1500) 0.
Proof.
  intros w c p0 pid evs Hw Hh Ho Hleft Htotal.
  assert (Hmx : minX (bounds scenarioLayout w) == -1500).
  { cbn [bounds minX scenarioLayout totalWidth]; rewrite Hw; reflexivity. }
  assert (Hmy : minY (bounds scenarioLayout w) == 0).
  { cbn [bounds minY scenarioLayout tallestCard]; rewrite Hh; reflexivity. }
  split; [exact Hmx|split; [exact Hmy|]].
  rewrite offset_run_onPointerDown.
  destruct (onPointerDown_fields p0 pid c) as (Hd & Hl & Hv).
  set (c0 := onPointerDown p0 pid c) in *.
  assert (Ho0 : offset c0 = offset c) by apply offset_onPointerDown.
  assert (Hup := leftward_drag_upper scenarioLayout w evs c0
                   (Point.x (offset c)) Hd).
  rewrite Hl, Hv, Ho0 in Hup.
  specialize (Hup ltac:(cbn; lra) Hleft (Q.le_max_r _ _)).
  assert (Hin := leftward_drag_in_range scenarioLayout w evs c0 Hd).
  rewrite Hl in Hin.
  specialize (Hin Hleft ltac:(right; lra)).
  destruct Hin as [[Hx1 Hx2] [Hy1 Hy2]].
  rewrite Hmx in Hx1, Hup; rewrite Hmy in Hy1.
  split; cbn [Point.x Point.y]; [|lra].
  apply Qle_antisym; [|exact Hx1].
  eapply Qle_trans; [exact Hup|].
  apply Q.max_lub; lra.
Qed.

Lemma clamped_drag_scenario_witness :
  let evs := [PointerMove (Point.mk 2000 60); Frame;
              PointerMove (Point.mk 0 10); Frame] in
  let p0 := Point.mk 3000 50 in
  containerWidth w500 == 500 /\
  leftward (Point.x p0) evs /\
  pointer_x (Point.x p0) evs - Point.x p0 == -3000 /\
  offset (run scenarioLayout (within w500 (PointerDown p0 1%nat :: evs))
              mounted)
  =p= Point.mk (-1500) 0.
Proof.
  intros evs p0.
  assert (Hw : containerWidth w500 == 500) by reflexivity.
  assert (Hh : innerHeight w500 = 500%Z) by reflexivity.
  assert (Ho : Point.x (offset mounted) <= 0) by (vm_compute; discriminate).
  assert (Hleft : leftward (Point.x p0) evs)
    by (repeat split; vm_compute; discriminate).
  assert (Htotal : pointer_x (Point.x p0) evs - Point.x p0 == -3000)
    by reflexivity.
  destruct (clamped_drag_scenario w500 mounted p0 1%nat evs Hw Hh Ho Hleft
              Htotal) as (_ & _ & Hfinal).
  exact (conj Hw (conj Hleft (conj Htotal Hfinal))).
Defined.

(** Without the restriction to leftward moves the net displacement does not
    decide the result: 4000 to the left and then 1000 back to the right
    also totals 3000 to the left, and ends at -500. *)
Example net_displacement_is_not_enough :
  let evs := [PointerMove (Point.mk (-4000) 0); PointerMove (Point.mk (-3000) 0)] in
  pointer_x 0 evs - 0 == -3000 /\
  Point.x (offset (run scenarioLayout
                       (within w500 (PointerDown Point.zero 1%nat :: evs))
                       mounted))
  == -500.
Proof. vm_compute. split; reflexivity. Qed.

(** ** Releases outside a gesture, and the continuations they leave behind *)

(** C2, evaluated on the code.  [onPointerUp] has no [isDragging] guard (the
    one [onPointerMove] has), so in every state a [pointerup] or a
    [pointerleave] schedules one more inertia step, active gesture or not.
    After [settled_history] no gesture is active and nothing is scheduled;
    the [pointerleave] that arrives then schedules a step and overwrites
    [animationFrame], and the next refresh moves the offset by the residual
    velocity and decays it. *)
Theorem idle_release_starts_inertia :
  (forall (L : Layout) (w : Window) (pid : nat) (c : Canvas),
      momentum_pending (dispatch L w (PointerUp pid) c)
      = S (momentum_pending c) /\
      momentum_pending (dispatch L w (PointerLeave pid) c)
      = S (momentum_pending c)) /\
  let c := run canvasLayout settled_history mounted in
  let c1 := dispatch canvasLayout w500 (PointerLeave 1%nat) c in
  let c2 := dispatch canvasLayout w500 Frame c1 in
  isDragging c = false /\ momentum_pending c = 0%nat /\
  momentum_pending c1 = 1%nat /\
  animationFrame c = Some 8%nat /\ animationFrame c1 = Some 9%nat /\
  Point.x (offset c) == -6.217031 /\
  Point.x (offset c2) == -6.6953279 /\
  Point.x (velocity c) == -0.4782969 /\
  Point.x (velocity c2) == -0.43046721.
Proof.
  split.
  - intros L w pid c; split; apply momentum_pending_onPointerUp.
  - vm_compute. repeat split; congruence.
Qed.

Lemma In_length_pos {A : Type} (x : A) (l : list A) :
  In x l -> (1 <= length l)%nat.
Proof. destruct l; [contradiction|cbn; lia]. Qed.

(** A release handled twice leaves a continuation that the next
    [pointerdown] does not cancel. *)
Lemma double_release_survives (p : Point.t) (pid1 pid2 pid3 : nat)
  (c : Canvas) :
  (1 <= momentum_pending
          (onPointerDown p pid3 (onPointerUp pid2 (onPointerUp pid1 c))))%nat.
Proof.
  unfold momentum_pending.
  apply In_length_pos with (x := (nextHandle c, AnimateMomentum)).
  apply filter_In; split; [|reflexivity].
  unfold onPointerDown, onPointerUp; cbn.
  apply filter_In; split.
  - apply in_or_app; left; apply in_or_app; right; now left.
  - cbn [fst]. apply negb_true_iff, Nat.eqb_neq; lia.
Qed.

(** C3, evaluated on the code.  When the release of a gesture is handled
    twice, two inertia continuations are pending but [animationFrame] holds
    only the handle of the second; the next [pointerdown] cancels that one
    and the other survives, in every state.  On [double_release_history] it
    then runs during the new gesture: after a move has put the offset at
    -20, the refresh adds the velocity once more (offset -30) and
    reschedules itself. *)
Theorem pointerdown_leaves_untracked_inertia :
  (forall (L : Layout) (w : Window) (p : Point.t) (pid1 pid2 pid3 : nat)
          (c : Canvas),
      (1 <= momentum_pending
              (run L [(w, PointerUp pid1); (w, PointerLeave pid2);
                      (w, PointerDown p pid3)] c))%nat) /\
  let c := run canvasLayout double_release_history mounted in
  let c1 := dispatch canvasLayout w500 (PointerMove (Point.mk (-10) 0)) c in
  let c2 := dispatch canvasLayout w500 Frame c1 in
  isDragging c = true /\ momentum_pending c = 1%nat /\
  isDragging c1 = true /\ Point.x (offset c1) == -20 /\
  isDragging c2 = true /\ Point.x (offset c2) == -30 /\
  momentum_pending c2 = 1%nat.
Proof.
  split.
  - intros L w p pid1 pid2 pid3 c; apply double_release_survives.
  - vm_compute. repeat split; congruence.
Qed.

(** The cancellation does work when the pending continuation is the one
    [animationFrame] records. *)
Lemma onPointerDown_cancels_tracked (p : Point.t) (pid h : nat) (c : Canvas) :
  animationFrame c = Some (S h) ->
  (forall e, In e (frameCallbacks c) -> is_momentum e = true -> fst e = S h) ->
  momentum_pending (onPointerDown p pid c) = 0%nat.
Proof.
  intros Hh Htracked.
  unfold onPointerDown; rewrite Hh.
  unfold momentum_pending; cbn [frameCallbacks setPointerCapture set_captured
    set_velocity set_lastPos set_isDragging cancelAnimationFrame
    set_frameCallbacks].
  induction (frameCallbacks c) as [|e l IH]; [reflexivity|].
  cbn [filter].
  assert (Hl : forall e', In e' l -> is_momentum e' = true -> fst e' = S h)
    by (intros e' He'; apply Htracked; now right).
  destruct (Nat.eqb (fst e) (S h)) eqn:He; cbn [negb].
  - now apply IH.
  - cbn [filter].
    destruct (is_momentum e) eqn:Hm.
    + apply Htracked in Hm; [|now left].
      apply Nat.eqb_neq in He; contradiction.
    + now apply IH.
Qed.

(** ** Histories without stray releases *)

Lemma momentum_pending_0_none (c : Canvas) :
  momentum_pending c = 0%nat ->
  forall e, In e (frameCallbacks c) -> is_momentum e = false.
Proof.
  unfold momentum_pending; intros H e He.
  destruct (is_momentum e) eqn:Hm; [|reflexivity].
  assert (Hin : In e (filter is_momentum (frameCallbacks c)))
    by (apply filter_In; now split).
  destruct (filter is_momentum (frameCallbacks c)); [contradiction|discriminate].
Qed.

Lemma tracked_onPointerDown (p : Point.t) (pid : nat) (c : Canvas) :
  tracked c ->
  tracked (onPointerDown p pid c) /\
  momentum_pending (onPointerDown p pid c) = 0%nat.
Proof.
  intros (Hn & Hle & Hdrag & Htr).
  assert (H0 : momentum_pending (onPointerDown p pid c) = 0%nat).
  { destruct (animationFrame c) as [[|h]|] eqn:Ha.
    - unfold onPointerDown; rewrite Ha; cbn.
      unfold momentum_pending in *.
      destruct (filter is_momentum (frameCallbacks c)) as [|e l] eqn:Hf;
        [reflexivity|exfalso].
      assert (Hin : In e (filter is_momentum (frameCallbacks c)))
        by (rewrite Hf; now left).
      apply filter_In in Hin; destruct Hin as [Hin Hm].
      destruct (Htr e Hin Hm) as [He Hpos].
      try rewrite Ha in He; injection He as He; lia.
    - apply onPointerDown_cancels_tracked with (h := h); [exact Ha|].
      intros e Hin Hm; destruct (Htr e Hin Hm) as [He _].
      try rewrite Ha in He; now injection He as <-.
    - unfold onPointerDown; rewrite Ha; cbn.
      unfold momentum_pending in *.
      destruct (filter is_momentum (frameCallbacks c)) as [|e l] eqn:Hf;
        [reflexivity|exfalso].
      assert (Hin : In e (filter is_momentum (frameCallbacks c)))
        by (rewrite Hf; now left).
      apply filter_In in Hin; destruct Hin as [Hin Hm].
      destruct (Htr e Hin Hm) as [He _]; try rewrite Ha in He; discriminate. }
  split; [|exact H0].
  split; [|split; [lia|split; [intros _; exact H0|]]].
  - unfold onPointerDown; destruct (animationFrame c) as [[|h]|]; exact Hn.
  - intros e Hin Hm.
    rewrite (momentum_pending_0_none _ H0 e Hin) in Hm; discriminate.
Qed.

Lemma tracked_onPointerMove (L : Layout) (w : Window) (p : Point.t)
  (c : Canvas) :
  tracked c -> tracked (onPointerMove L w p c).
Proof.
  intros (Hn & Hle & Hdrag & Htr).
  unfold tracked.
  rewrite momentum_pending_onPointerMove, isDragging_onPointerMove.
  unfold onPointerMove; destruct (isDragging c) eqn:Hd; cbn [negb].
  - cbn. split; [lia|split; [exact Hle|split; [exact Hdrag|]]].
    intros e Hin Hm; apply in_app_or in Hin; destruct Hin as [Hin|[<-|[]]].
    + now apply Htr.
    + discriminate.
  - split; [exact Hn|split; [exact Hle|split; [exact Hdrag|exact Htr]]].
Qed.

Lemma tracked_onPointerUp (pid : nat) (c : Canvas) :
  tracked c -> isDragging c = true -> tracked (onPointerUp pid c).
Proof.
  intros (Hn & Hle & Hdrag & Htr) Hd.
  specialize (Hdrag Hd).
  unfold tracked; rewrite momentum_pending_onPointerUp, Hdrag.
  cbn. split; [lia|split; [lia|split; [discriminate|]]].
  intros e Hin Hm; apply in_app_or in Hin; destruct Hin as [Hin|[<-|[]]].
  - rewrite (momentum_pending_0_none _ Hdrag e Hin) in Hm; discriminate.
  - now split.
Qed.

Lemma tracked_runFrame (L : Layout) (w : Window) (c : Canvas) :
  tracked c -> tracked (runFrame L w c).
Proof.
  intros (Hn & Hle & Hdrag & Htr).
  destruct (momentum_pending c) as [|[|k]] eqn:Hp; [| |lia].
  - destruct (runFrame_at_rest L w c Hp) as (_ & _ & Hd & _ & Hp').
    assert (Hnil : filter is_momentum (frameCallbacks c) = []).
    { unfold momentum_pending in Hp.
      destruct (filter is_momentum (frameCallbacks c)); [reflexivity|discriminate]. }
    unfold tracked; rewrite Hp'.
    split; [|split; [lia|split; [reflexivity|]]].
    + unfold runFrame; rewrite (run_renders L w _ _ Hnil).
      destruct (frameCallbacks c); exact Hn.
    + intros e Hin Hm.
      rewrite (momentum_pending_0_none _ Hp' e Hin) in Hm; discriminate.
  - assert (Hd : isDragging c = false).
    { destruct (isDragging c); [specialize (Hdrag eq_refl); discriminate|reflexivity]. }
    rewrite (runFrame_single L w c Hp).
    unfold tracked.
    rewrite momentum_pending_animateMomentum, isDragging_animateMomentum.
    unfold momentum_pending at 1 2; cbn [frameCallbacks set_frameCallbacks filter length].
    unfold animateMomentum; cbn.
    destruct (moving _); cbn.
    + split; [lia|split; [lia|split; [congruence|]]].
      intros e [<-|[]] _; now split.
    + split; [exact Hn|split; [lia|split; [reflexivity|]]].
      intros e [].
Qed.

(** In a history without stray releases the inertia is always tracked. *)
Lemma well_formed_tracked (L : Layout) :
  forall (tr : list (Window * Event)) (c : Canvas),
    tracked c ->
    well_formed (isDragging c) tr ->
    tracked (run L tr c).
Proof.
  induction tr as [|[w e] tr IH]; intros c Ht Hwf; [exact Ht|].
  change (run L ((w, e) :: tr) c) with (run L tr (dispatch L w e c)).
  destruct e as [p pid|p|pid|pid|]; cbn [well_formed dispatch] in *.
  - apply IH; [now apply tracked_onPointerDown|].
    now rewrite (proj1 (onPointerDown_fields p pid c)).
  - apply IH; [now apply tracked_onPointerMove|].
    now rewrite isDragging_onPointerMove.
  - destruct Hwf as [Hd Hwf]; apply IH; [now apply tracked_onPointerUp|exact Hwf].
  - destruct Hwf as [Hd Hwf]; apply IH; [now apply tracked_onPointerUp|exact Hwf].
  - apply IH; [now apply tracked_runFrame|].
    unfold runFrame.
    now rewrite (proj1 (isDragging_runCallbacks L w _ _)).
Qed.

Lemma mounted_tracked : tracked mounted.
Proof.
  split; [cbn; lia|split; [cbn; lia|split; [discriminate|intros e []]]].
Qed.

Lemma drag_events_tracked (L : Layout) :
  forall (evs : list (Window * Event)) (c : Canvas),
    tracked c -> isDragging c = true -> Forall drag_event evs ->
    tracked (run L evs c) /\ isDragging (run L evs c) = true.
Proof.
  induction evs as [|[w e] evs IH]; intros c Ht Hd Hall; [now split|].
  change (run L ((w, e) :: evs) c) with (run L evs (dispatch L w e c)).
  inversion Hall as [|we evs' He Hall' Heq]; subst.
  destruct e as [p pid|p|pid|pid|]; cbn [drag_event snd] in He;
    try contradiction; cbn [dispatch]; apply IH; try exact Hall'.
  - now apply tracked_onPointerMove.
  - now rewrite isDragging_onPointerMove.
  - now apply tracked_runFrame.
  - unfold runFrame; now rewrite (proj1 (isDragging_runCallbacks L w _ _)).
Qed.

(** X5.
    Where the cancellation at the start of a gesture is complete: when no
    release arrives outside a gesture, the start of a gesture leaves no
    inertia continuation pending, none appears while the gesture lasts, and
    the display refreshes of the gesture do not touch the offset. *)
Lemma gesture_start_cancels_tracked_inertia (L : Layout) :
  forall (tr evs : list (Window * Event)) (w : Window) (p : Point.t)
         (pid : nat),
    well_formed false tr ->
    Forall drag_event evs ->
    let c := run L (tr ++ (w, PointerDown p pid) :: evs) mounted in
    isDragging c = true /\
    momentum_pending c = 0%nat /\
    (forall w', offset (runFrame L w' c) = offset c).
Proof.
  intros tr evs w p pid Hwf Hall c.
  assert (Hc : c = run L evs (onPointerDown p pid (run L tr mounted))).
  { unfold c, run; now rewrite fold_left_app. }
  assert (Ht : tracked (run L tr mounted))
    by (apply well_formed_tracked; [apply mounted_tracked|exact Hwf]).
  destruct (tracked_onPointerDown p pid _ Ht) as [Ht' _].
  destruct (drag_events_tracked L evs _ Ht'
              (proj1 (onPointerDown_fields p pid _)) Hall) as [Ht'' Hd].
  rewrite <- Hc in Ht'', Hd.
  assert (Hp : momentum_pending c = 0%nat) by (apply Ht''; exact Hd).
  split; [exact Hd|split; [exact Hp|]].
  intros w'; now apply runFrame_at_rest.
Qed.

(** ** The inertia run *)

Lemma decay_S (k : nat) (v : Point.t) : decay (S k) v = decay k (friction v).
Proof. reflexivity. Qed.

Lemma decay_coord (a : Axis) :
  forall (k : nat) (v : Point.t),
    coord a (decay k v) == coord a v * friction_pow k.
Proof.
  induction k as [|k IH]; intros v; cbn [decay friction_pow]; [lra|].
  rewrite IH, coord_friction; lra.
Qed.

Lemma friction_pow_pos (k : nat) : 0 < friction_pow k.
Proof. induction k as [|k IH]; cbn [friction_pow]; lra. Qed.

Lemma friction_pow_S (k : nat) : friction_pow (S k) = 0.9 * friction_pow k.
Proof. reflexivity. Qed.

(** [0.9^k * (9 + k) <= 9]: the powers decay at least harmonically. *)
Lemma friction_pow_harmonic (k : nat) :
  friction_pow k * (9 + inject_Z (Z.of_nat k)) <= 9.
Proof.
  induction k as [|k IH].
  { cbn [friction_pow Z.of_nat]; change (inject_Z 0) with 0; lra. }
  rewrite friction_pow_S, Nat2Z.inj_succ; unfold Z.succ.
  rewrite inject_Z_plus; change (inject_Z 1) with 1.
  pose proof (friction_pow_pos k) as Hpos.
  assert (Hk : 0 <= inject_Z (Z.of_nat k)).
  { change 0 with (inject_Z 0); rewrite <- Zle_Qle; lia. }
  set (q := friction_pow k) in *; set (n := inject_Z (Z.of_nat k)) in *.
  assert (H : 0 <= q * n) by (apply Qmult_le_0_compat; lra).
  nra.
Qed.

(** While the velocity keeps [moving], each refresh of a run with one
    continuation applies the friction once and reschedules. *)
Lemma run_frames_coasting (L : Layout) :
  forall (ws : list Window) (c : Canvas),
    momentum_pending c = 1%nat ->
    (forall k, (1 <= k < length ws)%nat ->
               moving (decay k (velocity c)) = true) ->
    velocity (run L (frames ws) c) = decay (length ws) (velocity c) /\
    momentum_pending (run L (frames ws) c)
    = match ws with
      | [] => 1%nat
      | _ :: _ => if moving (decay (length ws) (velocity c)) then 1%nat
                  else 0%nat
      end.
Proof.
  induction ws as [|w ws IH]; intros c Hp Hmov; [now split|].
  change (run L (frames (w :: ws)) c) with (run L (frames ws) (runFrame L w c)).
  destruct (runFrame_coasting L w c Hp) as (_ & Hv & _ & Hp').
  destruct ws as [|w' ws].
  - cbn [frames map run fold_left length decay]; now split.
  - assert (H1 : moving (friction (velocity c)) = true)
      by (apply (Hmov 1%nat); cbn [length]; lia).
    rewrite H1 in Hp'.
    destruct (IH (runFrame L w c) Hp') as [Hv' Hp''].
    { intros k Hk; rewrite Hv, <- decay_S; apply Hmov; cbn [length] in *; lia. }
    rewrite Hv', Hp'', Hv; now split.
Qed.

(** What [coast] returns is the first step after which the velocity has
    stopped [moving]. *)
Lemma coast_spec :
  forall (fuel : nat) (v : Point.t) (n : nat),
    coast fuel v = S n ->
    moving (decay (S n) v) = false /\
    (forall k, (1 <= k < S n)%nat -> moving (decay k v) = true).
Proof.
  induction fuel as [|fuel IH]; intros v n H; cbn [coast] in H; [discriminate|].
  destruct (moving (friction v)) eqn:Hm.
  - destruct (coast fuel (friction v)) as [|n'] eqn:Hc; [discriminate|].
    injection H as <-.
    destruct (IH _ _ Hc) as [Hstop Hgo].
    split; [exact Hstop|].
    intros [|[|k]] Hk; [lia|exact Hm|].
    rewrite decay_S; apply Hgo; lia.
  - injection H as <-; split; [exact Hm|intros k Hk; lia].
Qed.

Lemma coast_enough :
  forall (fuel : nat) (v : Point.t) (k : nat),
    (1 <= k <= fuel)%nat -> moving (decay k v) = false ->
    exists n, coast fuel v = S n.
Proof.
  induction fuel as [|fuel IH]; intros v k Hk Hstop; [lia|].
  cbn [coast]; destruct (moving (friction v)) eqn:Hm; [|now exists 0%nat].
  destruct k as [|[|k]]; [lia|cbn in Hstop; congruence|].
  destruct (IH (friction v) (S k)) as [n Hn]; [lia|exact Hstop|].
  rewrite Hn; now exists (S n).
Qed.

Lemma speed_bounds (a : Axis) (v : Point.t) : Qabs (coord a v) <= speed v.
Proof. unfold speed; destruct a; [apply Q.le_max_l|apply Q.le_max_r]. Qed.

Lemma coast_fuel_stops (v : Point.t) :
  moving (decay (coast_fuel v) v) = false.
Proof.
  apply moving_false; intros a.
  rewrite decay_coord, Qabs_Qmult.
  pose proof (friction_pow_pos (coast_fuel v)) as Hpos.
  rewrite (Qabs_pos (friction_pow _)) by lra.
  pose proof (friction_pow_harmonic (coast_fuel v)) as Hh.
  pose proof (speed_bounds a v) as Hs.
  pose proof (Qabs_nonneg (coord a v)) as Ha.
  assert (Hfuel : 18 * speed v <= inject_Z (Z.of_nat (coast_fuel v))).
  { unfold coast_fuel.
    pose proof (Qle_ceiling (18 * speed v)) as Hc.
    eapply Qle_trans; [exact Hc|].
    rewrite <- Zle_Qle. lia. }
  set (q := friction_pow (coast_fuel v)) in *.
  set (n := inject_Z (Z.of_nat (coast_fuel v))) in *.
  set (s := speed v) in *. set (x := Qabs (coord a v)) in *.
  assert (H1 : x * q <= s * q) by (apply Qmult_le_compat_r; lra).
  assert (H2 : 0 <= q * (n - 18 * s))
    by (apply Qmult_le_0_compat; lra).
  nra.
Qed.

(** ** Refreshes with any number of continuations *)

Lemma moving_friction_false (v : Point.t) :
  moving v = false -> moving (friction v) = false.
Proof.
  intros H; apply moving_false; intros a.
  pose proof (proj1 (moving_false v) H a) as Ha.
  rewrite coord_friction, Qabs_Qmult.
  change (Qabs 0.9) with 0.9.
  pose proof (Qabs_nonneg (coord a v)); lra.
Qed.


Lemma decay_add :
  forall (a b : nat) (v : Point.t), decay (a + b) v = decay b (decay a v).
Proof.
  induction a as [|a IH]; intros b v; [reflexivity|].
  cbn [Nat.add decay]; apply IH.
Qed.

Lemma rescheduled_resting :
  forall (k : nat) (v : Point.t), moving v = false -> rescheduled k v = 0%nat.
Proof.
  induction k as [|k IH]; intros v H; [reflexivity|].
  cbn [rescheduled].
  rewrite (moving_friction_false v H), IH;
    [reflexivity|now apply moving_friction_false].
Qed.



(** ** The logarithmic bound *)

Section LogBound.
Local Open Scope R_scope.

Lemma Rceil_spec (r : R) : IZR (Rceil r) - 1 < r <= IZR (Rceil r).
Proof.
  unfold Rceil; rewrite minus_IZR.
  destruct (archimed (- r)) as [H1 H2].
  split; Lra.lra.
Qed.

Lemma Rceil_le (r : R) (z : Z) : r <= IZR z -> (Rceil r <= z)%Z.
Proof.
  intros H; destruct (Rceil_spec r) as [H1 _].
  assert (H2 : IZR (Rceil r - 1) < IZR z) by (rewrite minus_IZR; Lra.lra).
  apply lt_IZR in H2; lia.
Qed.

Lemma Rceil_gt (r : R) (z : Z) : IZR z < r -> (z < Rceil r)%Z.
Proof.
  intros H; destruct (Rceil_spec r) as [_ H1].
  apply lt_IZR; Lra.lra.
Qed.

Lemma ln_friction_neg : ln (9 / 10) < 0.
Proof.
  rewrite <- ln_1; apply ln_increasing; Lra.lra.
Qed.

Lemma ln_le (x y : R) : 0 < x -> x <= y -> ln x <= ln y.
Proof.
  intros Hx [Hlt|Heq]; [left; now apply ln_increasing|subst; right; reflexivity].
Qed.

Lemma settled_iff_log (A : R) (k : nat) :
  1 / 2 < A ->
  (A * (9 / 10) ^ k <= 1 / 2 <-> log_ratio A <= INR k).
Proof.
  intros HA.
  pose proof ln_friction_neg as Hneg.
  assert (Hp : 0 < (9 / 10) ^ k) by (apply pow_lt; Lra.lra).
  assert (Hq : 0 < (1 / 2) / A) by (apply Rdiv_lt_0_compat; Lra.lra).
  assert (Hlnp : ln ((9 / 10) ^ k) = INR k * ln (9 / 10))
    by (apply ln_pow; Lra.lra).
  assert (Hr : ln ((1 / 2) / A) = log_ratio A * ln (9 / 10))
    by (unfold log_ratio; field; Lra.lra).
  assert (Hdiv : (9 / 10) ^ k <= (1 / 2) / A <-> A * (9 / 10) ^ k <= 1 / 2).
  { split; intros H.
    - apply (Rmult_le_compat_l A) in H; [|Lra.lra].
      replace (A * ((1 / 2) / A)) with (1 / 2) in H by (field; Lra.lra).
      exact H.
    - apply (Rmult_le_reg_l A); [Lra.lra|].
      replace (A * ((1 / 2) / A)) with (1 / 2) by (field; Lra.lra).
      exact H. }
  split; intros H.
  - apply Hdiv in H. apply (ln_le _ _ Hp) in H.
    rewrite Hlnp, Hr in H.
    assert (0 <= (INR k - log_ratio A) * - ln (9 / 10)) by Lra.lra.
    apply Rnot_lt_le; intros Hlt.
    assert (0 < (log_ratio A - INR k) * - ln (9 / 10))
      by (apply Rmult_lt_0_compat; Lra.lra).
    Lra.lra.
  - apply Hdiv. apply Rnot_lt_le; intros Hlt.
    apply ln_increasing in Hlt; [|exact Hq].
    rewrite Hlnp, Hr in Hlt.
    assert (0 <= (INR k - log_ratio A) * - ln (9 / 10))
      by (apply Rmult_le_pos; Lra.lra).
    Lra.lra.
Qed.

Lemma Q2R_friction_pow (k : nat) : Q2R (friction_pow k) = (9 / 10) ^ k.
Proof.
  induction k as [|k IH]; cbn [friction_pow pow].
  - unfold Q2R; cbn; Lra.lra.
  - rewrite Q2R_mult, IH; reflexivity.
Qed.

End LogBound.

Lemma settled_iff_log_bound (a : Q) (k : nat) :
  0.5 < Qabs a ->
  (Qabs a * friction_pow k <= 0.5 <-> (log_bound a <= Z.of_nat k)%Z).
Proof.
  intros Ha.
  assert (HA : (1 / 2 < Q2R (Qabs a))%R).
  { apply Qlt_Rlt in Ha. unfold Q2R at 1 in Ha; cbn in Ha. Lra.lra. }
  pose proof (settled_iff_log (Q2R (Qabs a)) k HA) as Hiff.
  rewrite <- Q2R_friction_pow, <- Q2R_mult in Hiff.
  assert (Hhalf : Q2R 0.5 = (1 / 2)%R) by (unfold Q2R; cbn; Lra.lra).
  rewrite <- Hhalf in Hiff at 1.
  split; intros H.
  - apply Qle_Rle in H. apply Hiff in H.
    unfold log_bound. apply Rceil_le. now rewrite <- INR_IZR_INZ.
  - apply Rle_Qle, Hiff.
    unfold log_bound in H.
    destruct (Rceil_spec (log_ratio (Q2R (Qabs a)))) as [_ Hc].
    apply IZR_le in H. rewrite <- INR_IZR_INZ in H.
    Lra.lra.
Qed.

Section SlowRelease.
Local Open Scope R_scope.

Lemma log_ratio_quarter : log_ratio (Q2R (Qabs 0.25%Q)) <= -1.
Proof.
  assert (E : Q2R (Qabs 0.25%Q) = 1 / 4) by (unfold Q2R; cbn; Lra.lra).
  rewrite E; unfold log_ratio.
  replace (1 / 2 / (1 / 4)) with 2 by Lra.lra.
  pose proof ln_friction_neg as Hneg.
  assert (Hinv : ln (10 / 9) = - ln (9 / 10)).
  { rewrite <- ln_Rinv by Lra.lra. f_equal; Lra.lra. }
  assert (Hlt : ln (10 / 9) < ln 2) by (apply ln_increasing; Lra.lra).
  apply Rnot_lt_le; intros H.
  assert (0 < (ln 2 / ln (9 / 10) + 1) * - ln (9 / 10))
    by (apply Rmult_lt_0_compat; Lra.lra).
  replace ((ln 2 / ln (9 / 10) + 1) * - ln (9 / 10))
    with (- ln 2 - ln (9 / 10)) in * by (field; Lra.lra).
  Lra.lra.
Qed.

End SlowRelease.

(** ** Rounding to binary64 *)

Lemma pow2_pos (e : Z) : 0 < B64.pow2 e.
Proof. apply Qpower_0_lt; reflexivity. Qed.

Lemma pow2_plus (a b : Z) : B64.pow2 (a + b) == B64.pow2 a * B64.pow2 b.
Proof. apply Qpower_plus; discriminate. Qed.

Lemma pow2_le (a b : Z) : (a <= b)%Z -> B64.pow2 a <= B64.pow2 b.
Proof. intros H; apply Qpower_le_compat_l; [exact H|discriminate]. Qed.

Lemma pow2_inject (n : Z) : (0 <= n)%Z -> B64.pow2 n == inject_Z (2 ^ n).
Proof. intros H; unfold B64.pow2; now rewrite Zpower_Qpower. Qed.

Lemma nearest_even_err (q : Q) :
  Qabs (inject_Z (B64.nearest_even q) - q) <= 1 # 2.
Proof.
  unfold B64.nearest_even.
  pose proof (Qfloor_le q) as Hlo.
  pose proof (Qlt_floor q) as Hhi.
  rewrite inject_Z_plus in Hhi; change (inject_Z 1) with 1 in Hhi.
  set (f := Qfloor q) in *.
  apply Qabs_Qle_condition.
  destruct (Qcompare_spec (q - inject_Z f) (1 # 2)) as [He|Hl|Hg].
  - destruct (Z.even f); rewrite ?inject_Z_plus;
      change (inject_Z 1) with 1; split; lra.
  - split; lra.
  - rewrite inject_Z_plus; change (inject_Z 1) with 1; split; lra.
Qed.

Lemma Qdiv_le_mono (a a' b b' : Q) :
  0 <= a <= a' -> 0 < b' <= b -> a / b <= a' / b'.
Proof.
  intros [Ha Haa] [Hb Hbb].
  apply Qle_shift_div_l; [exact Hb|].
  unfold Qdiv; rewrite <- Qmult_assoc, (Qmult_comm (/ b)), Qmult_assoc.
  apply Qle_shift_div_r; [lra|].
  assert (0 <= a * (b - b')) by (apply Qmult_le_0_compat; lra).
  assert (0 <= (a' - a) * b) by (apply Qmult_le_0_compat; lra).
  lra.
Qed.

Lemma Qdiv_lt_l (a a' b b' : Q) :
  0 <= a -> a < a' -> 0 < b' <= b -> a / b < a' / b'.
Proof.
  intros Ha Haa [Hb Hbb].
  apply Qlt_shift_div_l; [exact Hb|].
  unfold Qdiv; rewrite <- Qmult_assoc, (Qmult_comm (/ b)), Qmult_assoc.
  apply Qlt_shift_div_r; [lra|].
  assert (0 <= a * (b - b')) by (apply Qmult_le_0_compat; lra).
  assert (0 < (a' - a) * b) by (apply Qmult_lt_0_compat; lra).
  lra.
Qed.

Lemma ilog2_spec (x : Q) :
  0 < x -> B64.pow2 (B64.ilog2 x) <= x < B64.pow2 (B64.ilog2 x + 1).
Proof.
  intros Hx; unfold B64.ilog2.
  destruct x as [n d].
  assert (Hn : (0 < n)%Z) by (unfold Qlt in Hx; cbn in Hx; lia).
  cbn [Qnum Qden].
  destruct (Z.log2_spec n Hn) as [Hn1 Hn2].
  destruct (Z.log2_spec (Zpos d) (Pos2Z.is_pos d)) as [Hd1 Hd2].
  pose proof (Z.log2_nonneg n) as Hln.
  pose proof (Z.log2_nonneg (Zpos d)) as Hld.
  set (ln := Z.log2 n) in *; set (ld := Z.log2 (Zpos d)) in *.
  assert (Hq : n # d == inject_Z n / inject_Z (Zpos d)) by apply Qmake_Qdiv.
  assert (Hlow : B64.pow2 (ln - ld - 1) <= n # d).
  { replace (ln - ld - 1)%Z with (ln - (ld + 1))%Z by lia.
    unfold B64.pow2; rewrite Qpower_minus by discriminate.
    fold (B64.pow2 ln); fold (B64.pow2 (ld + 1)).
    rewrite Hq, !pow2_inject by lia.
    apply Qdiv_le_mono; split.
    - change 0 with (inject_Z 0); rewrite <- Zle_Qle; lia.
    - rewrite <- Zle_Qle; exact Hn1.
    - change 0 with (inject_Z 0); rewrite <- Zlt_Qlt; lia.
    - rewrite <- Zle_Qle; unfold Z.succ in Hd2; lia. }
  assert (Hhigh : n # d < B64.pow2 (ln - ld - 1 + 1 + 1)).
  { replace (ln - ld - 1 + 1 + 1)%Z with (ln + 1 - ld)%Z by lia.
    unfold B64.pow2; rewrite Qpower_minus by discriminate.
    fold (B64.pow2 (ln + 1)); fold (B64.pow2 ld).
    rewrite Hq, !pow2_inject by lia.
    apply Qdiv_lt_l.
    - change 0 with (inject_Z 0); rewrite <- Zle_Qle; lia.
    - rewrite <- Zlt_Qlt; unfold Z.succ in Hn2; exact Hn2.
    - split; [change 0 with (inject_Z 0); rewrite <- Zlt_Qlt; lia|].
      rewrite <- Zle_Qle; exact Hd1. }
  destruct (Qle_bool (B64.pow2 (ln - ld - 1 + 1)) (n # d)) eqn:Ht.
  - apply Qle_bool_iff in Ht; split; assumption.
  - split; [exact Hlow|].
    apply Qnot_le_lt; intros Hle; apply Qle_bool_iff in Hle; congruence.
Qed.

Lemma round_err (x : Q) :
  Qabs (B64.round x - x) <= B64.pow2 (B64.ulp_exp x) * (1 # 2).
Proof.
  unfold B64.round.
  pose proof (pow2_pos (B64.ulp_exp x)) as Hp.
  destruct (Qeq_bool x 0) eqn:H0.
  - apply Qeq_bool_iff in H0.
    assert (E : 0 - x == 0) by lra.
    rewrite E; change (Qabs 0) with 0; lra.
  - cbv zeta.
    set (p := B64.pow2 (B64.ulp_exp x)) in *.
    pose proof (nearest_even_err (Qabs x / p)) as Hn.
    set (N := inject_Z (B64.nearest_even (Qabs x / p))) in *.
    assert (Hq : Qabs x / p * p == Qabs x) by (field; lra).
    apply Qabs_Qle_condition in Hn; destruct Hn as [Hn1 Hn2].
    assert (H1 : 0 <= (N - Qabs x / p + (1 # 2)) * p)
      by (apply Qmult_le_0_compat; lra).
    assert (H2 : 0 <= ((1 # 2) - (N - Qabs x / p)) * p)
      by (apply Qmult_le_0_compat; lra).
    apply Qabs_Qle_condition.
    destruct (Qle_bool 0 x) eqn:Hs.
    + apply Qle_bool_iff in Hs.
      rewrite (Qabs_pos x Hs) in *; split; lra.
    + assert (Hneg : x <= 0).
      { apply Qlt_le_weak, Qnot_le_lt; intros Hle.
        apply Qle_bool_iff in Hle; congruence. }
      rewrite (Qabs_neg x Hneg) in *; split; lra.
Qed.

Lemma pow2_half (e : Z) : B64.pow2 e * (1 # 2) == B64.pow2 (e - 1).
Proof.
  unfold Z.sub; rewrite pow2_plus.
  change (B64.pow2 (-1)) with (1 # 2); reflexivity.
Qed.

(** Rounding moves a number by at most half a unit in the last place. *)
Lemma round_near (x : Q) :
  Qabs (B64.round x - x) <= Qabs x * B64.pow2 (-53) + B64.pow2 (-1075).
Proof.
  pose proof (Qabs_nonneg x) as Hx.
  pose proof (pow2_pos (-53)) as H53.
  pose proof (pow2_pos (-1075)) as H1075.
  assert (Hprod : 0 <= Qabs x * B64.pow2 (-53))
    by (apply Qmult_le_0_compat; lra).
  destruct (Qeq_bool x 0) eqn:H0.
  { unfold B64.round; rewrite H0.
    apply Qeq_bool_iff in H0.
    assert (E : 0 - x == 0) by lra.
    rewrite E; change (Qabs 0) with 0; lra. }
  assert (Hpos : 0 < Qabs x).
  { destruct (Qlt_le_dec 0 (Qabs x)) as [Hl|Hl]; [exact Hl|].
    assert (Hz : x == 0) by (apply Qabs_Qle_condition in Hl; lra).
    apply Qeq_bool_iff in Hz; congruence. }
  eapply Qle_trans; [apply round_err|].
  rewrite pow2_half; unfold B64.ulp_exp.
  destruct (Z.max_spec (B64.ilog2 (Qabs x) - 52) (-1074)) as [[_ ->]|[_ ->]].
  - change (-1074 - 1)%Z with (-1075)%Z; lra.
  - destruct (ilog2_spec (Qabs x) Hpos) as [Hlo _].
    replace (B64.ilog2 (Qabs x) - 52 - 1)%Z
      with (B64.ilog2 (Qabs x) + -53)%Z by lia.
    rewrite pow2_plus.
    assert (0 <= (Qabs x - B64.pow2 (B64.ilog2 (Qabs x))) * B64.pow2 (-53))
      by (apply Qmult_le_0_compat; lra).
    lra.
Qed.

Lemma round_bound (x : Q) :
  Qabs (B64.round x)
  <= Qabs x * (1 + B64.pow2 (-53)) + B64.pow2 (-1075).
Proof.
  pose proof (round_near x) as He.
  pose proof (Qabs_triangle (B64.round x - x) x) as Ht.
  assert (E : B64.round x - x + x == B64.round x) by lra.
  rewrite E in Ht; lra.
Qed.

Lemma c09_pos : 0 < B64.c09.
Proof. vm_compute; reflexivity. Qed.

(** [c09 * (1 + 2^-53) / 2 + 2^-1075 <= 1/2] *)
Lemma friction_const_small :
  (1 # 2) * (B64.c09 * (1 + B64.pow2 (-53))) + B64.pow2 (-1075) <= 1 # 2.
Proof. vm_compute; discriminate. Qed.

(** [c09 * (1 + 2^-53) + 2^-1074 <= 0.9 * (1 + 2^-52)] *)
Lemma friction_const_fast :
  B64.c09 * (1 + B64.pow2 (-53)) + 2 * B64.pow2 (-1075)
  <= 0.9 * (1 + B64.pow2 (-52)).
Proof. vm_compute; discriminate. Qed.

Lemma round_friction_bound (x : Q) :
  Qabs (B64.round (x * B64.c09))
  <= Qabs x * (B64.c09 * (1 + B64.pow2 (-53))) + B64.pow2 (-1075).
Proof.
  pose proof (round_bound (x * B64.c09)) as H.
  rewrite Qabs_Qmult, (Qabs_pos B64.c09) in H
    by (apply Qlt_le_weak, c09_pos).
  lra.
Qed.

(** A component that is not above 0.5 stays there. *)
Lemma round_friction_small (x : Q) :
  Qabs x <= 0.5 -> Qabs (B64.round (x * B64.c09)) <= 0.5.
Proof.
  intros Hx.
  pose proof (round_friction_bound x) as H.
  pose proof friction_const_small as Hc.
  pose proof c09_pos as H09; pose proof (pow2_pos (-53)) as H53.
  set (k := B64.c09 * (1 + B64.pow2 (-53))) in *.
  set (t := B64.pow2 (-1075)) in *.
  assert (Hk : 0 <= k) by (unfold k; apply Qmult_le_0_compat; lra).
  assert (0 <= (0.5 - Qabs x) * k) by (apply Qmult_le_0_compat; lra).
  lra.
Qed.

(** A component above 0.5 loses at least a tenth, up to two roundings. *)
Lemma round_friction_fast (x : Q) :
  0.5 < Qabs x ->
  Qabs (B64.round (x * B64.c09))
  <= Qabs x * (0.9 * (1 + B64.pow2 (-52))).
Proof.
  intros Hx.
  pose proof (round_friction_bound x) as H.
  pose proof friction_const_fast as Hc.
  pose proof (pow2_pos (-1075)) as Ht.
  set (k := B64.c09 * (1 + B64.pow2 (-53))) in *.
  set (t := B64.pow2 (-1075)) in *.
  set (g := 0.9 * (1 + B64.pow2 (-52))) in *.
  assert (0 <= (Qabs x - 0.5) * (2 * t)) by (apply Qmult_le_0_compat; lra).
  assert (0 <= Qabs x * (g - (k + 2 * t))) by (apply Qmult_le_0_compat; lra).
  lra.
Qed.

(** [c09 * 2^-53 + |c09 - 0.9| <= 2^-52] *)
Lemma friction_const_near :
  B64.c09 * B64.pow2 (-53) + Qabs (B64.c09 - 0.9) <= B64.pow2 (-52).
Proof. vm_compute; discriminate. Qed.

(** Each product is 0.9 times the velocity up to rounding. *)
Lemma round_friction_near (x : Q) :
  Qabs (B64.round (x * B64.c09) - x * 0.9)
  <= Qabs x * B64.pow2 (-52) + B64.pow2 (-1075).
Proof.
  pose proof (round_near (x * B64.c09)) as H.
  rewrite Qabs_Qmult, (Qabs_pos B64.c09) in H
    by (apply Qlt_le_weak, c09_pos).
  pose proof (Qabs_triangle (B64.round (x * B64.c09) - x * B64.c09)
                (x * (B64.c09 - 0.9))) as Ht.
  assert (E : B64.round (x * B64.c09) - x * B64.c09 + x * (B64.c09 - 0.9)
              == B64.round (x * B64.c09) - x * 0.9) by ring.
  rewrite E, (Qabs_Qmult x) in Ht.
  pose proof friction_const_near as Hc.
  pose proof (Qabs_nonneg x) as Hx.
  set (d := Qabs (B64.c09 - 0.9)) in *.
  set (u := B64.pow2 (-53)) in *; set (u2 := B64.pow2 (-52)) in *.
  set (t := B64.pow2 (-1075)) in *.
  assert (0 <= Qabs x * (u2 - (B64.c09 * u + d)))
    by (apply Qmult_le_0_compat; lra).
  lra.
Qed.

(** ** The decay of a rounded velocity *)

Lemma coord_friction64 (a : Axis) (v : Point.t) :
  coord a (B64.friction v) = B64.round (coord a v * B64.c09).
Proof. destruct a; reflexivity. Qed.

Lemma decay64_last :
  forall (k : nat) (v : Point.t),
    B64.decay (S k) v = B64.friction (B64.decay k v).
Proof.
  induction k as [|k IH]; intros v; [reflexivity|].
  change (B64.decay (S (S k)) v) with (B64.decay (S k) (B64.friction v)).
  now rewrite IH.
Qed.

Lemma decay64_add :
  forall (a b : nat) (v : Point.t),
    B64.decay (a + b) v = B64.decay b (B64.decay a v).
Proof.
  induction a as [|a IH]; intros b v; [reflexivity|].
  cbn [Nat.add B64.decay]; apply IH.
Qed.

Lemma decay64_small (a : Axis) :
  forall (k : nat) (v : Point.t),
    Qabs (coord a v) <= 0.5 -> Qabs (coord a (B64.decay k v)) <= 0.5.
Proof.
  induction k as [|k IH]; intros v H; [exact H|].
  cbn [B64.decay]; apply IH.
  rewrite coord_friction64; now apply round_friction_small.
Qed.

Lemma growth_pos (k : nat) : 0 < growth k.
Proof.
  induction k as [|k IH]; cbn [growth]; [reflexivity|].
  pose proof (pow2_pos (-52)).
  apply Qmult_lt_0_compat; lra.
Qed.

(** While a component is above 0.5 it is below the initial one times
    [(0.9 * (1 + 2^-52)) ^ k]. *)
Lemma decay64_bound (a : Axis) (v : Point.t) :
  forall k : nat,
    Qabs (coord a (B64.decay k v)) <= 0.5 \/
    Qabs (coord a (B64.decay k v))
    <= Qabs (coord a v) * (friction_pow k * growth k).
Proof.
  induction k as [|k IH].
  - right; cbn [B64.decay friction_pow growth]; lra.
  - rewrite decay64_last, coord_friction64.
    destruct (Qlt_le_dec 0.5 (Qabs (coord a (B64.decay k v)))) as [Hf|Hs].
    + right.
      destruct IH as [IH|IH]; [lra|].
      pose proof (round_friction_fast _ Hf) as Hr.
      cbn [friction_pow growth].
      pose proof (pow2_pos (-52)) as He.
      set (x := Qabs (coord a (B64.decay k v))) in *.
      set (y := Qabs (coord a v) * (friction_pow k * growth k)) in *.
      set (e := B64.pow2 (-52)) in *.
      assert (0 <= (y - x) * (0.9 * (1 + e)))
        by (apply Qmult_le_0_compat; [lra|apply Qmult_le_0_compat; lra]).
      assert (E : Qabs (coord a v)
                  * (0.9 * friction_pow k * ((1 + e) * growth k))
                  == y * (0.9 * (1 + e))) by (unfold y; ring).
      rewrite E; lra.
    + left; now apply round_friction_small.
Qed.

Lemma growth_bound (m : nat) :
  inject_Z (Z.of_nat m) * B64.pow2 (-52) <= 1 ->
  growth m * (1 - inject_Z (Z.of_nat m) * B64.pow2 (-52)) <= 1.
Proof.
  pose proof (pow2_pos (-52)) as He.
  set (e := B64.pow2 (-52)) in *.
  induction m as [|m IH]; intros Hm.
  - cbn [growth Z.of_nat]; change (inject_Z 0) with 0; lra.
  - rewrite Nat2Z.inj_succ in *; unfold Z.succ in *.
    rewrite inject_Z_plus in *; change (inject_Z 1) with 1 in *.
    assert (HM : 0 <= inject_Z (Z.of_nat m)).
    { change 0 with (inject_Z 0); rewrite <- Zle_Qle; lia. }
    cbn [growth]; fold e.
    pose proof (growth_pos m) as Hg.
    set (M := inject_Z (Z.of_nat m)) in *; set (g := growth m) in *.
    assert (HMe : 0 <= M * e) by (apply Qmult_le_0_compat; lra).
    assert (IH' : g * (1 - M * e) <= 1) by (apply IH; lra).
    assert (H2 : 0 <= g * ((M + 1) * (e * e))).
    { apply Qmult_le_0_compat; [lra|].
      apply Qmult_le_0_compat; [lra|apply Qmult_le_0_compat; lra]. }
    assert (E : (1 + e) * g * (1 - (M + 1) * e)
                == g * (1 - M * e) - g * ((M + 1) * (e * e))) by ring.
    rewrite E; lra.
Qed.

Lemma growth_small (m : nat) :
  (m <= B64.fuel)%nat -> growth m <= 10 # 9.
Proof.
  intros Hm.
  assert (Hme : inject_Z (Z.of_nat m) * B64.pow2 (-52) <= 1 # 10).
  { assert (Hf : inject_Z (Z.of_nat B64.fuel) * B64.pow2 (-52) <= 1 # 10)
      by (vm_compute; discriminate).
    assert (Hle : inject_Z (Z.of_nat m) <= inject_Z (Z.of_nat B64.fuel))
      by (rewrite <- Zle_Qle; lia).
    pose proof (pow2_pos (-52)) as He.
    set (e := B64.pow2 (-52)) in *.
    assert (0 <= (inject_Z (Z.of_nat B64.fuel) - inject_Z (Z.of_nat m)) * e)
      by (apply Qmult_le_0_compat; lra).
    lra. }
  pose proof (growth_bound m) as Hb.
  pose proof (growth_pos m) as Hg.
  set (g := growth m) in *.
  set (t := inject_Z (Z.of_nat m) * B64.pow2 (-52)) in *.
  assert (H1 : g * (1 - t) <= 1) by (apply Hb; lra).
  assert (0 <= g * ((1 # 10) - t)) by (apply Qmult_le_0_compat; lra).
  lra.
Qed.

Lemma friction_pow_add (a b : nat) :
  friction_pow (a + b) == friction_pow a * friction_pow b.
Proof.
  induction a as [|a IH]; cbn [Nat.add friction_pow]; [ring|].
  rewrite IH; ring.
Qed.

(** Seven steps at least halve: [0.9^(7 j) * 2^j <= 1]. *)
Lemma friction_pow_halving (j : nat) :
  friction_pow (7 * j) * B64.pow2 (Z.of_nat j) <= 1.
Proof.
  induction j as [|j IH].
  - vm_compute; discriminate.
  - replace (7 * S j)%nat with (7 + 7 * j)%nat by lia.
    rewrite friction_pow_add, Nat2Z.inj_succ; unfold Z.succ.
    rewrite pow2_plus; change (B64.pow2 1) with 2.
    assert (H7 : friction_pow 7 * 2 <= 1) by (vm_compute; discriminate).
    pose proof (friction_pow_pos 7) as Hp7.
    pose proof (friction_pow_pos (7 * j)) as Hp.
    pose proof (pow2_pos (Z.of_nat j)) as Hq.
    set (f7 := friction_pow 7) in *.
    set (f := friction_pow (7 * j)) in *.
    set (p := B64.pow2 (Z.of_nat j)) in *.
    assert (Hfp : 0 <= f * p) by (apply Qmult_le_0_compat; lra).
    assert (0 <= (1 - f * p) * (f7 * 2)) by (apply Qmult_le_0_compat; lra).
    assert (E : f7 * f * (p * 2) == f * p * (f7 * 2)) by ring.
    rewrite E; lra.
Qed.

(** A finite component is down to 0.5 after [7 * 1025] exact steps. *)
Lemma finite_settles (x : Q) :
  Qabs x <= B64.pow2 1024 -> Qabs x * friction_pow (7 * 1025) <= 0.5.
Proof.
  intros Hx.
  pose proof (friction_pow_halving 1025) as Hh.
  change (Z.of_nat 1025) with 1025%Z in Hh.
  pose proof (friction_pow_pos (7 * 1025)) as Hp.
  assert (E : B64.pow2 1025 == B64.pow2 1024 * 2).
  { change 1025%Z with (1024 + 1)%Z; rewrite pow2_plus; reflexivity. }
  rewrite E in Hh.
  pose proof (pow2_pos 1024) as Hq.
  pose proof (Qabs_nonneg x) as Ha.
  set (f := friction_pow (7 * 1025)) in *.
  set (p := B64.pow2 1024) in *.
  assert (0 <= (p - Qabs x) * f) by (apply Qmult_le_0_compat; lra).
  lra.
Qed.

Lemma log_bound_finite (x : Q) :
  0.5 < Qabs x -> Qabs x <= B64.pow2 1024 ->
  (1 <= log_bound x <= Z.of_nat (7 * 1025))%Z.
Proof.
  intros Hf Hx; split.
  - destruct (Z_lt_le_dec (log_bound x) 1) as [Hlt|Hge]; [|exact Hge].
    exfalso.
    assert (H0 : (log_bound x <= Z.of_nat 0)%Z)
      by (change (Z.of_nat 0) with 0%Z; lia).
    apply (settled_iff_log_bound x 0 Hf) in H0.
    cbn [friction_pow] in H0; lra.
  - apply (settled_iff_log_bound x _ Hf), finite_settles, Hx.
Qed.

(** A finite component above 0.5 is down to 0.5 one step after the bound
    of the formula at the latest, and stays there. *)
Lemma decay64_settles (a : Axis) (v : Point.t) (k : nat) :
  0.5 < Qabs (coord a v) ->
  Qabs (coord a v) <= B64.pow2 1024 ->
  (log_bound (coord a v) + 1 <= Z.of_nat k)%Z ->
  Qabs (coord a (B64.decay k v)) <= 0.5.
Proof.
  intros Hf Hx Hk.
  destruct (log_bound_finite _ Hf Hx) as [H1 H2].
  set (b := Z.to_nat (log_bound (coord a v))).
  assert (Hb : Z.of_nat b = log_bound (coord a v))
    by (unfold b; apply Z2Nat.id; lia).
  replace k with (S b + (k - S b))%nat by lia.
  rewrite decay64_add; apply decay64_small.
  destruct (decay64_bound a v (S b)) as [H|H]; [exact H|].
  eapply Qle_trans; [exact H|].
  assert (Hs : Qabs (coord a v) * friction_pow b <= 0.5).
  { apply (settled_iff_log_bound _ b Hf); lia. }
  assert (Hg : growth (S b) <= 10 # 9).
  { apply growth_small; unfold B64.fuel; lia. }
  pose proof (growth_pos (S b)) as Hgp.
  pose proof (friction_pow_pos b) as Hfp.
  pose proof (Qabs_nonneg (coord a v)) as Ha.
  cbn [friction_pow].
  set (x := Qabs (coord a v)) in *; set (f := friction_pow b) in *.
  set (g := growth (S b)) in *.
  assert (Hxf : 0 <= x * f) by (apply Qmult_le_0_compat; lra).
  assert (0 <= (0.5 - x * f) * g) by (apply Qmult_le_0_compat; lra).
  assert (0 <= (x * f) * ((10 # 9) - g))
    by (apply Qmult_le_0_compat; lra).
  assert (E : x * (0.9 * f * g) == 0.9 * ((x * f) * g)) by ring.
  rewrite E; lra.
Qed.

(** ** Display refreshes in binary64 *)

Lemma runCallbacks64_cons (L : Layout) (w : Window) (h : nat)
  (cb : FrameCallback) (cbs : list (nat * FrameCallback)) (c : Canvas) :
  B64.runCallbacks L w ((h, cb) :: cbs) c
  = B64.runCallbacks L w cbs (B64.callback L w cb c).
Proof. reflexivity. Qed.

Lemma velocity_animateMomentum64 (L : Layout) (w : Window) (c : Canvas) :
  velocity (B64.animateMomentum L w c) = B64.friction (velocity c).
Proof. unfold B64.animateMomentum; destruct (moving _); reflexivity. Qed.

Lemma momentum_pending_animateMomentum64 (L : Layout) (w : Window)
  (c : Canvas) :
  momentum_pending (B64.animateMomentum L w c)
  = (momentum_pending c
     + if moving (B64.friction (velocity c)) then 1 else 0)%nat.
Proof.
  unfold B64.animateMomentum, momentum_pending; cbn.
  destruct (moving _); cbn.
  - now rewrite filter_app, length_app.
  - now rewrite Nat.add_0_r.
Qed.

(** However many continuations a refresh runs, each applies the friction
    once, and those after which the velocity is still [moving] come back. *)
Lemma runCallbacks64_momentum (L : Layout) (w : Window) :
  forall (cbs : list (nat * FrameCallback)) (c : Canvas),
    velocity (B64.runCallbacks L w cbs c)
    = B64.decay (length (filter is_momentum cbs)) (velocity c) /\
    momentum_pending (B64.runCallbacks L w cbs c)
    = (momentum_pending c
       + B64.rescheduled (length (filter is_momentum cbs)) (velocity c))%nat.
Proof.
  induction cbs as [|[h cb] cbs IH]; intros c.
  - cbn; split; [reflexivity|lia].
  - rewrite runCallbacks64_cons.
    destruct (IH (B64.callback L w cb c)) as [Hv Hp]; rewrite Hv, Hp.
    destruct cb; cbn [B64.callback].
    + change (filter is_momentum ((h, AnimateMomentum) :: cbs))
        with ((h, AnimateMomentum) :: filter is_momentum cbs).
      cbn [length B64.decay B64.rescheduled].
      rewrite velocity_animateMomentum64, momentum_pending_animateMomentum64.
      split; [reflexivity|].
      destruct (moving (B64.friction (velocity c))); lia.
    + change (filter is_momentum ((h, UpdateTransform) :: cbs))
        with (filter is_momentum cbs).
      split; reflexivity.
Qed.

Lemma runFrame64_momentum (L : Layout) (w : Window) (c : Canvas) :
  velocity (B64.runFrame L w c)
  = B64.decay (momentum_pending c) (velocity c) /\
  momentum_pending (B64.runFrame L w c)
  = B64.rescheduled (momentum_pending c) (velocity c).
Proof.
  unfold B64.runFrame.
  destruct (runCallbacks64_momentum L w (frameCallbacks c)
              (set_frameCallbacks [] c)) as [Hv Hp].
  rewrite Hv, Hp; split; reflexivity.
Qed.

Lemma runFrames64_cons (L : Layout) (w : Window) (ws : list Window)
  (c : Canvas) :
  B64.runFrames L (w :: ws) c = B64.runFrames L ws (B64.runFrame L w c).
Proof. reflexivity. Qed.

Lemma moving_friction64_false (v : Point.t) :
  moving v = false -> moving (B64.friction v) = false.
Proof.
  intros H; apply moving_false; intros a.
  rewrite coord_friction64; apply round_friction_small.
  now apply moving_false.
Qed.

Lemma moving_decay64_false :
  forall (j : nat) (v : Point.t),
    moving v = false -> moving (B64.decay j v) = false.
Proof.
  induction j as [|j IH]; intros v H; [exact H|].
  cbn [B64.decay]; now apply IH, moving_friction64_false.
Qed.

Lemma rescheduled64_resting :
  forall (k : nat) (v : Point.t),
    moving v = false -> B64.rescheduled k v = 0%nat.
Proof.
  induction k as [|k IH]; intros v H; [reflexivity|].
  cbn [B64.rescheduled].
  rewrite (moving_friction64_false v H), IH;
    [reflexivity|now apply moving_friction64_false].
Qed.

Lemma runFrames64_at_rest (L : Layout) :
  forall (ws : list Window) (c : Canvas),
    momentum_pending c = 0%nat ->
    momentum_pending (B64.runFrames L ws c) = 0%nat.
Proof.
  induction ws as [|w ws IH]; intros c H; [exact H|].
  rewrite runFrames64_cons; apply IH.
  destruct (runFrame64_momentum L w c) as [_ Hp].
  now rewrite Hp, H.
Qed.

(** While the velocity keeps [moving], each refresh of a run with one
    continuation applies the friction once and reschedules. *)
Lemma runFrames64_coasting (L : Layout) :
  forall (ws : list Window) (c : Canvas),
    momentum_pending c = 1%nat ->
    (forall k, (1 <= k < length ws)%nat ->
               moving (B64.decay k (velocity c)) = true) ->
    velocity (B64.runFrames L ws c) = B64.decay (length ws) (velocity c) /\
    momentum_pending (B64.runFrames L ws c)
    = match ws with
      | [] => 1%nat
      | _ :: _ => if moving (B64.decay (length ws) (velocity c)) then 1%nat
                  else 0%nat
      end.
Proof.
  induction ws as [|w ws IH]; intros c Hp Hmov; [now split|].
  rewrite runFrames64_cons.
  destruct (runFrame64_momentum L w c) as [Hv Hp'].
  rewrite Hp in Hv, Hp'; cbn [B64.decay B64.rescheduled] in Hv, Hp'.
  rewrite Nat.add_0_r in Hp'.
  destruct ws as [|w' ws].
  - cbn [B64.runFrames fold_left length B64.decay]; now split.
  - assert (H1 : moving (B64.friction (velocity c)) = true)
      by (apply (Hmov 1%nat); cbn [length]; lia).
    rewrite H1 in Hp'.
    destruct (IH (B64.runFrame L w c) Hp') as [Hv' Hp''].
    { intros k Hk; rewrite Hv.
      change (B64.decay k (B64.friction (velocity c)))
        with (B64.decay (S k) (velocity c)).
      apply Hmov; cbn [length] in *; lia. }
    rewrite Hv', Hp'', Hv; now split.
Qed.

Lemma runFrames64_settle (L : Layout) :
  forall (n : nat) (c : Canvas) (ws : list Window),
    moving (B64.decay n (velocity c)) = false ->
    length ws = S n ->
    momentum_pending (B64.runFrames L ws c) = 0%nat.
Proof.
  induction n as [|n IH]; intros c ws Hstop Hlen;
    destruct ws as [|w ws]; try discriminate;
    rewrite runFrames64_cons;
    destruct (runFrame64_momentum L w c) as [Hv Hp].
  - destruct ws; [|discriminate].
    cbn [B64.runFrames fold_left].
    rewrite Hp; now apply rescheduled64_resting.
  - destruct (momentum_pending c) as [|k] eqn:Hk.
    + cbn [B64.rescheduled] in Hp.
      now apply runFrames64_at_rest.
    + apply IH; [|now injection Hlen].
      rewrite Hv, <- decay64_add.
      replace (S k + n)%nat with (S n + k)%nat by lia.
      rewrite decay64_add. now apply moving_decay64_false.
Qed.

Lemma runFrames64_app (L : Layout) (ws1 ws2 : list Window) (c : Canvas) :
  B64.runFrames L (ws1 ++ ws2) c
  = B64.runFrames L ws2 (B64.runFrames L ws1 c).
Proof. unfold B64.runFrames; apply fold_left_app. Qed.

(** ** The length of a run in binary64 *)

Lemma coast64_steps :
  forall (fuel : nat) (v : Point.t) (n : nat),
    B64.coast fuel v = S n ->
    (S n <= fuel)%nat /\
    moving (B64.decay (S n) v) = false /\
    (forall k, (1 <= k < S n)%nat -> moving (B64.decay k v) = true).
Proof.
  induction fuel as [|fuel IH]; intros v n H; cbn [B64.coast] in H;
    [discriminate|].
  destruct (moving (B64.friction v)) eqn:Hm.
  - destruct (B64.coast fuel (B64.friction v)) as [|n'] eqn:Hc;
      [discriminate|].
    injection H as <-.
    destruct (IH _ _ Hc) as (Hle & Hstop & Hgo).
    split; [lia|split; [exact Hstop|]].
    intros [|[|k]] Hk; [lia|exact Hm|].
    change (B64.decay (S (S k)) v) with (B64.decay (S k) (B64.friction v)).
    apply Hgo; lia.
  - injection H as <-; split; [lia|split; [exact Hm|intros k Hk; lia]].
Qed.

Lemma coast64_enough :
  forall (fuel : nat) (v : Point.t) (k : nat),
    (1 <= k <= fuel)%nat -> moving (B64.decay k v) = false ->
    exists n, B64.coast fuel v = S n.
Proof.
  induction fuel as [|fuel IH]; intros v k Hk Hstop; [lia|].
  cbn [B64.coast]; destruct (moving (B64.friction v)) eqn:Hm;
    [|now exists 0%nat].
  destruct k as [|[|k]]; [lia|cbn in Hstop; congruence|].
  destruct (IH (B64.friction v) (S k)) as [n Hn]; [lia|exact Hstop|].
  rewrite Hn; now exists (S n).
Qed.

(** Where every fast component has had one step more than its bound, the
    velocity has stopped [moving]. *)
Lemma settled_after_bounds (v : Point.t) (k : nat) :
  finite v ->
  (forall a, 0.5 < Qabs (coord a v) ->
             (log_bound (coord a v) + 1 <= Z.of_nat k)%Z) ->
  moving (B64.decay k v) = false.
Proof.
  intros Hfin Hk; apply moving_false; intros a.
  destruct (Qlt_le_dec 0.5 (Qabs (coord a v))) as [Hf|Hs].
  - apply decay64_settles; [exact Hf|apply Hfin|now apply Hk].
  - now apply decay64_small.
Qed.

Lemma inertia_steps64_spec (v : Point.t) :
  finite v ->
  exists n, B64.inertia_steps v = S n /\
            (S n <= B64.fuel)%nat /\
            moving (B64.decay (S n) v) = false /\
            (forall k, (1 <= k < S n)%nat -> moving (B64.decay k v) = true).
Proof.
  intros Hfin.
  destruct (coast64_enough B64.fuel v B64.fuel) as [n Hn].
  - unfold B64.fuel; lia.
  - apply settled_after_bounds; [exact Hfin|].
    intros a Hf.
    destruct (log_bound_finite _ Hf (Hfin a)) as [_ H].
    unfold B64.fuel; lia.
  - exists n; split; [exact Hn|now apply coast64_steps].
Qed.

(** ** The inertia run terminates *)

(** C4, on the numbers the browser computes with.  For a finite velocity
    the inertia comes to an end: from every state no continuation is
    pending after more than [B64.inertia_steps v] display refreshes, and a run
    with one continuation pending lasts exactly that many, the continuation
    being pending before each of them and none after the last.  Each step
    multiplies each component by 0.9 up to the rounding of the product.  A
    component above 0.5 is down to 0.5 after at most
    [ceil(log(0.5/|v0|)/log(0.9)) + 1] steps, the formula being the number
    of exact multiplications by 0.9 that bring it there, and a component
    that is not above 0.5 never gets above it; so the run is at most one
    step longer than the largest bound of a component above 0.5, and one
    step long when there is none. *)
Theorem inertia_run_terminates :
  forall (L : Layout) (c : Canvas),
    finite (velocity c) ->
    let v := velocity c in
    let n := B64.inertia_steps v in
    (1 <= n <= B64.fuel)%nat /\
    (forall ws, (n < length ws)%nat ->
                momentum_pending (B64.runFrames L ws c) = 0%nat) /\
    (momentum_pending c = 1%nat ->
     (forall ws, length ws = n ->
                 momentum_pending (B64.runFrames L ws c) = 0%nat) /\
     (forall ws, (length ws < n)%nat ->
                 momentum_pending (B64.runFrames L ws c) = 1%nat) /\
     (forall ws, (length ws <= n)%nat ->
                 velocity (B64.runFrames L ws c) = B64.decay (length ws) v)) /\
    (forall a k,
        Qabs (coord a (B64.decay (S k) v) - coord a (B64.decay k v) * 0.9)
        <= Qabs (coord a (B64.decay k v)) * B64.pow2 (-52)
           + B64.pow2 (-1075)) /\
    (forall a k, 0.5 < Qabs (coord a v) ->
                 (Qabs (coord a v) * friction_pow k <= 0.5
                  <-> (log_bound (coord a v) <= Z.of_nat k)%Z)) /\
    (forall a k, 0.5 < Qabs (coord a v) ->
                 (log_bound (coord a v) + 1 <= Z.of_nat k)%Z ->
                 Qabs (coord a (B64.decay k v)) <= 0.5) /\
    (forall a k, Qabs (coord a v) <= 0.5 ->
                 Qabs (coord a (B64.decay k v)) <= 0.5) /\
    (moving v = true ->
     exists a, 0.5 < Qabs (coord a v) /\
               (Z.of_nat n <= log_bound (coord a v) + 1)%Z) /\
    (moving v = false -> n = 1%nat).
Proof.
  intros L c Hfin v n.
  destruct (inertia_steps64_spec v Hfin) as (n' & Hn & Hle & Hstop & Hgo).
  fold n in Hn; rewrite Hn in *; clear n Hn.
  split; [lia|].
  split.
  { intros ws Hlen.
    rewrite <- (firstn_skipn (S (S n')) ws), runFrames64_app.
    apply runFrames64_at_rest.
    apply (runFrames64_settle L (S n')); [exact Hstop|].
    rewrite length_firstn; lia. }
  split.
  { intros Hp; split; [|split].
    - intros ws Hlen.
      destruct (runFrames64_coasting L ws c Hp) as [_ Hq].
      { intros k Hk; apply Hgo; lia. }
      rewrite Hq; destruct ws as [|w ws]; [discriminate|].
      now rewrite Hlen; fold v; rewrite Hstop.
    - intros ws Hlen.
      destruct (runFrames64_coasting L ws c Hp) as [_ Hq].
      { intros k Hk; apply Hgo; lia. }
      rewrite Hq; destruct ws as [|w ws]; [reflexivity|].
      fold v; rewrite Hgo; [reflexivity|cbn [length] in *; lia].
    - intros ws Hlen.
      destruct (runFrames64_coasting L ws c Hp) as [Hq _]; [|exact Hq].
      intros k Hk; apply Hgo; lia. }
  split.
  { intros a k; rewrite decay64_last, coord_friction64.
    apply round_friction_near. }
  split; [intros a k Ha; now apply settled_iff_log_bound|].
  split; [intros a k Ha Hk; apply decay64_settles; auto|].
  split; [intros a k Ha; now apply decay64_small|].
  split.
  - intros Hm.
    assert (Hsome : forall m : nat,
               (1 <= m)%nat ->
               (forall a, 0.5 < Qabs (coord a v) ->
                          (log_bound (coord a v) + 1 <= Z.of_nat m)%Z) ->
               (S n' <= m)%nat).
    { intros m Hm1 Hb.
      pose proof (settled_after_bounds v m Hfin Hb) as Hs.
      destruct (Nat.le_gt_cases (S n') m) as [H|H]; [exact H|].
      rewrite Hgo in Hs; [discriminate|lia]. }
    assert (Hone : forall a, 0.5 < Qabs (coord a v) ->
                             (1 <= log_bound (coord a v))%Z)
      by (intros a Ha; apply log_bound_finite; [exact Ha|apply Hfin]).
    destruct (Qlt_le_dec 0.5 (Qabs (coord AxisX v))) as [Hx|Hx];
      destruct (Qlt_le_dec 0.5 (Qabs (coord AxisY v))) as [Hy|Hy].
    + pose proof (Hone _ Hx); pose proof (Hone _ Hy).
      destruct (Z_le_dec (log_bound (coord AxisX v))
                  (log_bound (coord AxisY v))) as [Hc|Hc].
      * exists AxisY; split; [exact Hy|].
        pose proof (Hsome (Z.to_nat (log_bound (coord AxisY v) + 1))) as H1.
        assert (S n' <= Z.to_nat (log_bound (coord AxisY v) + 1))%nat;
          [|lia].
        apply H1; [lia|]. intros [|] _; lia.
      * exists AxisX; split; [exact Hx|].
        pose proof (Hsome (Z.to_nat (log_bound (coord AxisX v) + 1))) as H1.
        assert (S n' <= Z.to_nat (log_bound (coord AxisX v) + 1))%nat;
          [|lia].
        apply H1; [lia|]. intros [|] _; lia.
    + pose proof (Hone _ Hx).
      exists AxisX; split; [exact Hx|].
      pose proof (Hsome (Z.to_nat (log_bound (coord AxisX v) + 1))) as H1.
      assert (S n' <= Z.to_nat (log_bound (coord AxisX v) + 1))%nat; [|lia].
      apply H1; [lia|]. intros [|] Ha; [lia|lra].
    + pose proof (Hone _ Hy).
      exists AxisY; split; [exact Hy|].
      pose proof (Hsome (Z.to_nat (log_bound (coord AxisY v) + 1))) as H1.
      assert (S n' <= Z.to_nat (log_bound (coord AxisY v) + 1))%nat; [|lia].
      apply H1; [lia|]. intros [|] Ha; [lra|lia].
    + apply moving_true in Hm; destruct Hm as [[|] Ha]; lra.
  - intros Hm.
    destruct n' as [|n'']; [reflexivity|exfalso].
    assert (H1 : moving (B64.decay 1 v) = true) by (apply Hgo; lia).
    rewrite (moving_decay64_false 1 v Hm) in H1; discriminate.
Qed.

Lemma inertia_run_terminates_witness :
  let c := coasting_start in
  let n := B64.inertia_steps (velocity c) in
  finite (velocity c) /\
  momentum_pending c = 1%nat /\
  n = 29%nat /\
  momentum_pending (B64.runFrames canvasLayout (repeat w500 n) c) = 0%nat /\
  (Z.of_nat n <= log_bound (coord AxisX (velocity c)) + 1)%Z.
Proof.
  intros c n.
  assert (Hfin : finite (velocity c))
    by (intros []; vm_compute; discriminate).
  assert (Hp : momentum_pending c = 1%nat) by reflexivity.
  assert (Hm : moving (velocity c) = true) by (vm_compute; reflexivity).
  destruct (inertia_run_terminates canvasLayout c Hfin)
    as (_ & _ & Hrun & _ & _ & _ & _ & Hlog & _).
  destruct (Hrun Hp) as (Hend & _).
  destruct (Hlog Hm) as ([|] & Ha & Hb).
  - refine (conj Hfin (conj Hp (conj _ (conj
             (Hend (repeat w500 n) (repeat_length w500 n)) Hb)))).
    vm_compute; reflexivity.
  - exfalso; revert Ha; vm_compute; discriminate.
Defined.

(** On the machine an infinite velocity stays infinite, and the loop never
    stops. *)
Lemma infinite_velocity_never_stops :
  forall fuel : nat, fst (coast64 fuel infinity infinity) = 0%nat.
Proof.
  induction fuel as [|fuel IH]; [reflexivity|].
  change (coast64 (S fuel) infinity infinity)
    with (match coast64 fuel infinity infinity with
          | (O, o) => (O, o)
          | (S n, o) => (S (S n), o)
          end).
  destruct (coast64 fuel infinity infinity) as [[|n] o];
    [reflexivity|discriminate IH].
Qed.

(** C4 as stated, on the code.  A release at 0.76207895137936288 along the
    abscissa: four exact multiplications by 0.9 bring it below 0.5, so the
    formula gives 4, but the rounded products are still above 0.5 after
    the fourth step and the run takes 5 (the same count on primitive
    floats).  A release at a quarter of a pixel per event on both axes:
    the formula is negative on both axes, and the run still executes its
    one step.  An infinite velocity, which an overflowing pointer
    displacement produces: the loop runs out of any fuel. *)
Lemma inertia_run_exceeds_log_bound :
  (let c := threshold_start in
   velocity c =p= Point.mk (B64.round 0.76207895137936288) 0 /\
   finite (velocity c) /\
   momentum_pending c = 1%nat /\
   momentum_pending (B64.runFrames canvasLayout (repeat w500 4) c) = 1%nat /\
   momentum_pending (B64.runFrames canvasLayout (repeat w500 5) c) = 0%nat /\
   B64.inertia_steps (velocity c) = 5%nat /\
   (log_bound (coord AxisX (velocity c)) <= 4)%Z /\
   fst (coast64 100 0 0.76207895137936288) = 5%nat) /\
  (let c := slow_start in
   velocity c =p= Point.mk 0.25 0.25 /\
   momentum_pending c = 1%nat /\
   momentum_pending (B64.runFrames canvasLayout [w500] c) = 0%nat /\
   B64.inertia_steps (velocity c) = 1%nat /\
   forall a, (log_bound (coord a (velocity c)) <= -1)%Z) /\
  (forall fuel : nat, fst (coast64 fuel 0 infinity) = 0%nat).
Proof.
  split; [|split].
  - cbv zeta.
    split; [split; vm_compute; reflexivity|].
    split; [intros []; vm_compute; discriminate|].
    split; [vm_compute; reflexivity|].
    split; [vm_compute; reflexivity|].
    split; [vm_compute; reflexivity|].
    split; [vm_compute; reflexivity|].
    split; [|vm_compute; reflexivity].
    apply (settled_iff_log_bound _ 4); [vm_compute; reflexivity|].
    vm_compute; discriminate.
  - cbv zeta.
    assert (Hv : velocity slow_start = Point.mk (0.25 - 0) (0.25 - 0))
      by reflexivity.
    split; [split; vm_compute; reflexivity|].
    split; [vm_compute; reflexivity|].
    split; [vm_compute; reflexivity|].
    split; [vm_compute; reflexivity|].
    rewrite Hv.
    assert (E : forall a, log_bound (coord a (Point.mk (0.25 - 0) (0.25 - 0)))
                          = log_bound 0.25).
    { intros []; unfold log_bound; cbn [coord Point.x Point.y];
        f_equal; f_equal; apply Qeq_eqR; vm_compute; reflexivity. }
    intros a; rewrite E; apply Rceil_le, log_ratio_quarter.
  - intros [|fuel]; [reflexivity|].
    change (coast64 (S fuel) 0 infinity)
      with (match coast64 fuel infinity infinity with
            | (O, o) => (O, o)
            | (S n, o) => (S (S n), o)
            end).
    pose proof (infinite_velocity_never_stops fuel) as H.
    destruct (coast64 fuel infinity infinity) as [[|n] o];
      [reflexivity|discriminate H].
Qed.

(** The rounding of [B64] against the machine's, on primitive floats: the
    literal 0.9, products with it (normal, subnormal, ties), sums, and the
    length of four runs. *)
Example round_agrees_with_machine :
  B64.agrees 0.9 B64.c09 = true /\
  forallb (fun f => B64.agrees (f * 0.9)
                      (B64.round (B64.value f * B64.c09)))
    [10%float; 9%float; 0.5555555555555556%float;
     0.76207895137936288%float; (-3.7)%float; 123456.789%float;
     0.1%float; 1e300%float; 1.7976931348623157e308%float;
     1e-320%float; 5e-324%float; 2.2250738585072014e-308%float] = true /\
  forallb (fun p => B64.agrees (fst p + snd p)
                      (B64.round (B64.value (fst p) + B64.value (snd p))))
    [((-1500.25)%float, 0.1%float); (0.1%float, 0.2%float);
     ((-200)%float, 8.1%float); (9007199254740992%float, 1%float);
     (9007199254740992%float, 3%float);
     ((-1e300)%float, (-1500)%float)] = true /\
  map (fun f => B64.inertia_steps (Point.mk (B64.value f) 0))
    [10%float; 0.5555555555555556%float; 0.76207895137936288%float;
     (-12345.678)%float]
  = map (fun f => fst (coast64 200 0 f))
      [10%float; 0.5555555555555556%float; 0.76207895137936288%float;
       (-12345.678)%float].
Proof. vm_compute. repeat split. Qed.

(** ** An inertia run that is never clamped *)

Lemma coast_distance_S (k : nat) (v : Q) :
  coast_distance (S k) v = v + coast_distance k (v * 0.9).
Proof. reflexivity. Qed.

(** The geometric sum. *)
Lemma coast_distance_closed :
  forall (k : nat) (v : Q),
    coast_distance k v == v * (1 - friction_pow k) / (1 - 0.9).
Proof.
  assert (H : forall k v, coast_distance k v == v * (1 - friction_pow k) * 10).
  { induction k as [|k IH]; intros v; cbn [coast_distance friction_pow];
      [ring|rewrite IH; ring]. }
  intros k v; rewrite H; field; discriminate.
Qed.

Lemma coast_distance_eq (k : nat) (v v' : Q) :
  v == v' -> coast_distance k v == coast_distance k v'.
Proof. intros He; rewrite !coast_distance_closed, He; reflexivity. Qed.

Lemma coast_distance_nonneg :
  forall (k : nat) (v : Q), 0 <= v -> 0 <= coast_distance k v.
Proof.
  induction k as [|k IH]; intros v Hv; cbn [coast_distance]; [lra|].
  specialize (IH (v * 0.9)); lra.
Qed.

Lemma coast_distance_mono :
  forall (k i : nat) (v : Q),
    0 <= v -> coast_distance k v <= coast_distance (k + i) v.
Proof.
  induction k as [|k IH]; intros i v Hv.
  - now apply coast_distance_nonneg.
  - cbn [Nat.add coast_distance]. specialize (IH i (v * 0.9)); lra.
Qed.

Lemma coast_distance_zero :
  forall (k : nat) (v : Q), v == 0 -> coast_distance k v == 0.
Proof.
  induction k as [|k IH]; intros v Hv; cbn [coast_distance]; [lra|].
  rewrite (IH (v * 0.9)); lra.
Qed.

(** While every partial sum stays within the limits of the refresh that
    reaches it, each refresh adds the current velocity to the offset. *)
Lemma run_frames_free (L : Layout) :
  forall (ws : list Window) (c : Canvas),
    momentum_pending c = 1%nat ->
    (forall k, (1 <= k < length ws)%nat ->
               moving (decay k (velocity c)) = true) ->
    (forall j w a,
        nth_error ws j = Some w ->
        lower a (bounds L w)
        <= coord a (offset c) + coast_distance (S j) (coord a (velocity c))
        <= 0) ->
    forall a,
      coord a (offset (run L (frames ws) c))
      == coord a (offset c) + coast_distance (length ws) (coord a (velocity c)).
Proof.
  induction ws as [|w ws IH]; intros c Hp Hmov Hfree a.
  - cbn [frames map run fold_left length coast_distance]; lra.
  - change (run L (frames (w :: ws)) c)
      with (run L (frames ws) (runFrame L w c)).
    destruct (runFrame_coasting L w c Hp) as (Ho & Hv & _ & Hp').
    assert (Hfirst : forall a', coord a' (offset (runFrame L w c))
                                == coord a' (offset c) + coord a' (velocity c)).
    { intros a'. rewrite Ho, coord_clamp, coord_add.
      apply clamp_axis_fix.
      specialize (Hfree 0%nat w a' eq_refl).
      cbn [coast_distance] in Hfree; lra. }
    destruct ws as [|w' ws].
    + cbn [frames map run fold_left length coast_distance].
      rewrite Hfirst; lra.
    + assert (H1 : moving (friction (velocity c)) = true)
        by (apply (Hmov 1%nat); cbn [length]; lia).
      rewrite H1 in Hp'.
      rewrite (IH (runFrame L w c) Hp').
      * rewrite Hv, coord_friction, Hfirst.
        rewrite (coast_distance_S (length (w' :: ws))); lra.
      * intros k Hk; rewrite Hv, <- decay_S; apply Hmov.
        cbn [length] in *; lia.
      * intros j w0 a' Hj.
        rewrite Hv, coord_friction, Hfirst.
        specialize (Hfree (S j) w0 a' Hj).
        rewrite (coast_distance_S (S j)) in Hfree; lra.
Qed.

Lemma coast_of_ten :
  moving (decay 29 (Point.mk 10 0)) = false /\
  (forall k, (1 <= k < 29)%nat -> moving (decay k (Point.mk 10 0)) = true).
Proof.
  apply coast_spec with (fuel := coast_fuel (Point.mk 10 0)).
  vm_compute; reflexivity.
Qed.

Lemma nth_error_firstn_In {A : Type} (k j : nat) (l : list A) (x : A) :
  nth_error (firstn k l) j = Some x -> In x l /\ (j < k)%nat.
Proof.
  rewrite nth_error_firstn.
  destruct (Nat.ltb j k) eqn:Hjk; [|discriminate].
  intros H; split; [now apply nth_error_In with (n := j)|].
  now apply Nat.ltb_lt.
Qed.

(** C7, with the sum evaluated.  A run that starts with velocity (10, 0)
    and is nowhere clamped: after [k] refreshes the velocity is
    [(10 * 0.9^k, 0)] (10, 9, 8.1, ...) and the offset has advanced by
    [10 + 9 + ... + 10 * 0.9^(k-1)]; the continuation is pending before each
    of the first 29 refreshes and none is pending after the 29th; the total
    advance of the abscissa is the geometric sum
    [10 * (1 - 0.9^29) / (1 - 0.9)], which lies between 95.28 and 95.29, and
    the ordinate has not moved. *)
Theorem inertia_settles_from_ten :
  forall (L : Layout) (ws : list Window) (c : Canvas),
    momentum_pending c = 1%nat ->
    velocity c =p= Point.mk 10 0 ->
    length ws = 29%nat ->
    Forall (fun w =>
              in_range (bounds L w) (offset c) /\
              in_range (bounds L w)
                (Point.add (offset c) (Point.mk (coast_distance 29 10) 0)))
           ws ->
    (forall k, (k <= 29)%nat ->
               velocity (run L (frames (firstn k ws)) c)
               =p= Point.mk (10 * friction_pow k) 0) /\
    (forall k, (k <= 29)%nat ->
               offset (run L (frames (firstn k ws)) c)
               =p= Point.add (offset c) (Point.mk (coast_distance k 10) 0)) /\
    (forall k, (k < 29)%nat ->
               momentum_pending (run L (frames (firstn k ws)) c) = 1%nat) /\
    momentum_pending (run L (frames ws) c) = 0%nat /\
    Point.x (offset (run L (frames ws) c)) - Point.x (offset c)
    == 10 * (1 - friction_pow 29) / (1 - 0.9) /\
    95.28 < 10 * (1 - friction_pow 29) / (1 - 0.9) < 95.29 /\
    Point.y (offset (run L (frames ws) c)) == Point.y (offset c).
Proof.
  intros L ws c Hp Hv Hlen Hwide.
  destruct coast_of_ten as [Hstop Hgo].
  assert (Hvx : Point.x (velocity c) == 10) by apply Hv.
  assert (Hvy : Point.y (velocity c) == 0) by apply Hv.
  assert (Hdecay : forall k, moving (decay k (velocity c))
                             = moving (decay k (Point.mk 10 0)))
    by (intros k; now apply moving_eq, decay_eq).
  assert (Hfirstn : forall k, (k <= 29)%nat -> length (firstn k ws) = k)
    by (intros k Hk; rewrite length_firstn; lia).
  assert (Hmov : forall k j, (k <= 29)%nat ->
                             (1 <= j < length (firstn k ws))%nat ->
                             moving (decay j (velocity c)) = true).
  { intros k j Hk Hj; rewrite Hdecay; apply Hgo; rewrite Hfirstn in Hj; lia. }
  assert (Hcoast : forall k, (k <= 29)%nat ->
             velocity (run L (frames (firstn k ws)) c)
             = decay k (velocity c) /\
             momentum_pending (run L (frames (firstn k ws)) c)
             = match k with
               | O => 1%nat
               | S _ => if moving (decay k (Point.mk 10 0)) then 1%nat
                        else 0%nat
               end).
  { intros k Hk.
    destruct (run_frames_coasting L (firstn k ws) c Hp
                (fun j Hj => Hmov k j Hk Hj)) as [Hvel Hpend].
    rewrite Hfirstn in Hvel, Hpend by exact Hk.
    split; [exact Hvel|].
    rewrite Hpend, Hdecay; destruct k, ws; try discriminate; reflexivity. }
  assert (Hoff : forall k, (k <= 29)%nat ->
                 offset (run L (frames (firstn k ws)) c)
                 =p= Point.add (offset c) (Point.mk (coast_distance k 10) 0)).
  { intros k Hk.
    assert (Hfree : forall a,
               coord a (offset (run L (frames (firstn k ws)) c))
               == coord a (offset c)
                  + coast_distance (length (firstn k ws))
                                   (coord a (velocity c))).
    { apply run_frames_free;
        [exact Hp|intros j Hj; exact (Hmov k j Hk Hj)|].
      intros j w a Hj.
      apply nth_error_firstn_In in Hj; destruct Hj as [Hin Hjk].
      rewrite Forall_forall in Hwide.
      destruct (Hwide w Hin) as [Hstart Hend].
      apply in_range_coord with (a := a) in Hstart.
      apply in_range_coord with (a := a) in Hend.
      rewrite coord_add in Hend.
      destruct a; cbn [coord Point.x Point.y] in *.
      - rewrite (coast_distance_eq (S j) _ 10 Hvx).
        pose proof (coast_distance_nonneg (S j) 10 ltac:(lra)).
        pose proof (coast_distance_mono (S j) (29 - S j) 10 ltac:(lra)) as Hm.
        replace (S j + (29 - S j))%nat with 29%nat in Hm by lia.
        lra.
      - rewrite (coast_distance_zero (S j) _ Hvy); lra. }
    rewrite Hfirstn in Hfree by exact Hk.
    split; cbn [Point.add Point.x Point.y].
    + rewrite (Hfree AxisX); cbn [coord].
      now rewrite (coast_distance_eq k _ 10 Hvx).
    + rewrite (Hfree AxisY); cbn [coord].
      rewrite (coast_distance_zero k _ Hvy); lra. }
  assert (Hall : firstn 29 ws = ws) by (rewrite <- Hlen; apply firstn_all).
  split; [|split; [exact Hoff|split; [|split; [|split; [|split]]]]].
  - intros k Hk; destruct (Hcoast k Hk) as [Hvel _]; rewrite Hvel.
    split; cbn [Point.x Point.y].
    + rewrite (decay_coord AxisX); cbn [coord]; now rewrite Hvx.
    + rewrite (decay_coord AxisY); cbn [coord]; rewrite Hvy; lra.
  - intros k Hk; destruct (Hcoast k ltac:(lia)) as [_ Hpend].
    rewrite Hpend; destruct k as [|k]; [reflexivity|].
    rewrite Hgo; [reflexivity|lia].
  - destruct (Hcoast 29%nat ltac:(lia)) as [_ Hpend].
    rewrite Hall in Hpend; rewrite Hpend, Hstop; reflexivity.
  - destruct (Hoff 29%nat ltac:(lia)) as [Hx _].
    rewrite Hall in Hx; rewrite Hx; cbn [Point.add Point.x].
    rewrite coast_distance_closed; lra.
  - vm_compute; split; reflexivity.
  - destruct (Hoff 29%nat ltac:(lia)) as [_ Hy].
    rewrite Hall in Hy; rewrite Hy; cbn [Point.add Point.y]; lra.
Qed.

Lemma inertia_settles_from_ten_witness :
  let c := coasting_start in
  let ws := repeat w500 29 in
  let c' := run canvasLayout (frames ws) c in
  in_range (bounds canvasLayout w500) (offset c) /\
  in_range (bounds canvasLayout w500)
    (Point.add (offset c) (Point.mk (coast_distance 29 10) 0)) /\
  momentum_pending c' = 0%nat /\
  Point.x (offset c') - Point.x (offset c)
  == 10 * (1 - friction_pow 29) / (1 - 0.9).
Proof.
  intros c ws c'.
  assert (Hp : momentum_pending c = 1%nat) by reflexivity.
  assert (Hv : velocity c =p= Point.mk 10 0) by (split; reflexivity).
  assert (Hlen : length ws = 29%nat) by reflexivity.
  assert (Hstart : in_range (bounds canvasLayout w500) (offset c))
    by (repeat split; vm_compute; discriminate).
  assert (Hend : in_range (bounds canvasLayout w500)
                   (Point.add (offset c) (Point.mk (coast_distance 29 10) 0)))
    by (repeat split; vm_compute; discriminate).
  assert (Hwide : Forall (fun w =>
              in_range (bounds canvasLayout w) (offset c) /\
              in_range (bounds canvasLayout w)
                (Point.add (offset c) (Point.mk (coast_distance 29 10) 0)))
            ws).
  { apply Forall_forall; intros w Hw.
    apply repeat_spec in Hw; subst w; exact (conj Hstart Hend). }
  destruct (inertia_settles_from_ten canvasLayout ws c Hp Hv Hlen Hwide)
    as (_ & _ & _ & Hrest & Hsum & _).
  exact (conj Hstart (conj Hend (conj Hrest Hsum))).
Defined.

(** C7 as stated, on the code: the run of [coasting_start] takes 29
    refreshes and advances by 95.2898..., which is not 99.3 to any number
    of digits. *)
Lemma inertia_from_ten_is_not_99_3 :
  let c := coasting_start in
  let c' := run canvasLayout (frames (repeat w500 29)) c in
  let advance := Point.x (offset c') - Point.x (offset c) in
  momentum_pending (run canvasLayout (frames (repeat w500 28)) c) = 1%nat /\
  momentum_pending c' = 0%nat /\
  advance == 10 * (1 - friction_pow 29) / (1 - 0.9) /\
  95.28 < advance < 95.29 /\
  ~ (Qabs (advance - 99.3) <= 0.05).
Proof.
  vm_compute.
  repeat split; try discriminate.
  intros H; apply H; reflexivity.
Qed.

(** ** Content that fits the viewport *)

Lemma lower_fits (a : Axis) (L : Layout) (w : Window) :
  fits a L w -> lower a (bounds L w) == 0.
Proof.
  destruct a; cbn [fits lower bounds minX minY]; intros H; minmax_lra.
Qed.

(** X2.
    Along an axis on which the content fits the viewport at every event of
    a history, an offset that is zero stays zero: no panning is possible.
    (For the component's cards this is the vertical axis of any window at
    least 432 pixels high.) *)
Theorem no_panning_where_content_fits :
  forall (a : Axis) (L : Layout) (tr : list (Window * Event)) (c : Canvas),
    coord a (offset c) == 0 ->
    Forall (fun we => fits a L (fst we)) tr ->
    coord a (offset (run L tr c)) == 0.
Proof.
  intros a L tr; induction tr as [|[w e] tr IH]; intros c H0 Hfit;
    [exact H0|].
  change (run L ((w, e) :: tr) c) with (run L tr (dispatch L w e c)).
  inversion Hfit as [|we tr' Hw Hfit' Heq]; subst; cbn [fst] in Hw.
  apply IH; [|exact Hfit'].
  pose proof (dispatch_offset L w e c) as Hd.
  destruct (mutates e c).
  - apply in_range_coord with (a := a) in Hd.
    rewrite (lower_fits a L w Hw) in Hd; lra.
  - now rewrite Hd.
Qed.

Lemma no_panning_where_content_fits_witness :
  let tr := at500 [PointerDown (Point.mk 0 0) 1%nat;
                   PointerMove (Point.mk (-30) (-70));
                   PointerUp 1%nat; Frame; Frame] in
  Forall (fun we => fits AxisY canvasLayout (fst we)) tr /\
  coord AxisY (offset (run canvasLayout tr mounted)) == 0.
Proof.
  intros tr.
  assert (H0 : coord AxisY (offset mounted) == 0) by reflexivity.
  assert (Hfit : Forall (fun we => fits AxisY canvasLayout (fst we)) tr)
    by (repeat constructor; vm_compute; discriminate).
  exact (conj Hfit (no_panning_where_content_fits AxisY canvasLayout tr mounted
                      H0 Hfit)).
Defined.

(** ** The clamp as a projection *)

Lemma clamp_axis_nearest (m v r : Q) :
  m <= r <= 0 ->
  Qabs (Qmax m (Qmin 0 v) - v) <= Qabs (r - v).
Proof.
  intros Hr.
  apply Qabs_Qle_condition.
  destruct (Qlt_le_dec (r - v) 0) as [Hd|Hd].
  - rewrite (Qabs_neg (r - v)) by lra. split; minmax_lra.
  - rewrite (Qabs_pos (r - v)) by lra. split; minmax_lra.
Qed.

(** X10.
    The clamp moves a proposed offset to the nearest legal one: on each
    axis no point of the range is closer to the proposal than the result,
    and a proposal inside the range is returned as it is. *)
Theorem clamp_picks_nearest_legal_offset :
  forall (b : Bounds) (p r : Point.t),
    in_range b r ->
    in_range b (clamp b p) /\
    (forall a, Qabs (coord a (clamp b p) - coord a p)
               <= Qabs (coord a r - coord a p)) /\
    clamp b r =p= r.
Proof.
  intros b p r Hr.
  assert (Hm : forall a, lower a b <= 0).
  { intros a; apply in_range_coord with (a := a) in Hr; lra. }
  split; [apply clamp_in_range; [apply (Hm AxisX)|apply (Hm AxisY)]|].
  split; [|now apply clamp_fix].
  intros a; rewrite coord_clamp.
  apply clamp_axis_nearest; now apply in_range_coord.
Qed.

Lemma clamp_picks_nearest_legal_offset_witness :
  let b := mkBounds (-1500) 0 in
  let p := Point.mk (-3000) 40 in
  let r := Point.mk (-1200) 0 in
  in_range b r /\
  clamp b p = Point.mk (-1500) 0 /\
  Qabs (coord AxisX (clamp b p) - coord AxisX p)
  <= Qabs (coord AxisX r - coord AxisX p).
Proof.
  intros b p r.
  assert (Hr : in_range b r) by (repeat split; vm_compute; discriminate).
  destruct (clamp_picks_nearest_legal_offset b p r Hr) as (_ & Hnear & _).
  exact (conj Hr (conj eq_refl (Hnear AxisX))).
Defined.

Lemma clamp_axis_monotone (m u v : Q) :
  u <= v -> Qmax m (Qmin 0 u) <= Qmax m (Qmin 0 v).
Proof. intros H; minmax_lra. Qed.

Lemma clamp_axis_nonexpansive (m u v : Q) :
  Qabs (Qmax m (Qmin 0 u) - Qmax m (Qmin 0 v)) <= Qabs (u - v).
Proof.
  apply Qabs_Qle_condition.
  destruct (Qlt_le_dec (u - v) 0) as [Hd|Hd].
  - rewrite (Qabs_neg (u - v)) by lra. split; minmax_lra.
  - rewrite (Qabs_pos (u - v)) by lra. split; minmax_lra.
Qed.

(** X11.
    For any limits the clamp keeps the order of two proposals on each axis
    and never moves them apart. *)
Theorem clamp_monotone_nonexpansive :
  forall (b : Bounds) (p q : Point.t) (a : Axis),
    (coord a p <= coord a q -> coord a (clamp b p) <= coord a (clamp b q)) /\
    Qabs (coord a (clamp b p) - coord a (clamp b q))
    <= Qabs (coord a p - coord a q).
Proof.
  intros b p q a; rewrite !coord_clamp; split.
  - apply clamp_axis_monotone.
  - apply clamp_axis_nonexpansive.
Qed.

(** ** A drag inside the limits follows the pointer *)

Lemma in_range_eq (b : Bounds) (p q : Point.t) :
  p =p= q -> in_range b p -> in_range b q.
Proof.
  intros [Hx Hy] [Hpx Hpy]; split; [rewrite <- Hx|rewrite <- Hy]; assumption.
Qed.

Lemma drag_tracks_pointer (L : Layout) :
  forall (tr : list (Window * Event)) (c : Canvas) (o : Point.t),
    isDragging c = true ->
    momentum_pending c = 0%nat ->
    offset c =p= o ->
    unclamped L o (lastPos c) tr ->
    let c' := run L tr c in
    isDragging c' = true /\
    lastPos c' = pointer_at (lastPos c) tr /\
    offset c' =p= Point.add o (Point.sub (lastPos c') (lastPos c)).
Proof.
  induction tr as [|[w e] tr IH]; intros c o Hd Hp Ho Hu.
  - cbn; repeat split; trivial; destruct Ho as [Hx Hy]; cbn; lra.
  - change (run L ((w, e) :: tr) c) with (run L tr (dispatch L w e c)).
    destruct e as [p pid|p|pid|pid|]; cbn [unclamped] in Hu; try contradiction;
      cbn [dispatch pointer_at].
    + destruct Hu as [Hin Hu].
      pose proof (lastPos_onPointerMove L w p c Hd) as Hl.
      assert (Ho' : offset (onPointerMove L w p c)
                    =p= Point.add o (Point.sub p (lastPos c))).
      { rewrite offset_onPointerMove, Hd.
        assert (Hs : Point.add (offset c) (Point.sub p (lastPos c))
                     =p= Point.add o (Point.sub p (lastPos c))).
        { destruct Ho as [Hx Hy]; split; cbn; lra. }
        assert (Hin' : in_range (bounds L w)
                         (Point.add (offset c) (Point.sub p (lastPos c)))).
        { apply (in_range_eq _ (Point.add o (Point.sub p (lastPos c))));
            [|exact Hin].
          destruct Hs as [Hx Hy]; split; symmetry; assumption. }
        destruct (clamp_fix _ _ Hin') as [Hx Hy], Hs as [Hsx Hsy].
        split; [rewrite Hx|rewrite Hy]; assumption. }
      rewrite <- Hl in Hu at 2.
      destruct (IH (onPointerMove L w p c) _
                  (eq_trans (isDragging_onPointerMove L w p c) Hd)
                  (eq_trans (momentum_pending_onPointerMove L w p c) Hp)
                  Ho' Hu) as (Hd' & Hl' & [Hx Hy]).
      rewrite Hl in Hl', Hx, Hy.
      repeat split; trivial; cbn in *; lra.
    + destruct (runFrame_at_rest L w c Hp) as (Hof & _ & Hdf & Hlf & Hpf).
      rewrite <- Hlf in Hu.
      rewrite <- Hof in Ho.
      destruct (IH (runFrame L w c) o (eq_trans Hdf Hd) Hpf Ho Hu)
        as (Hd' & Hl' & Ho').
      rewrite Hlf in Hl', Ho'.
      repeat split; trivial; apply Ho'.
Qed.

(** X1.
    During a gesture with no inertia in flight, as long as no move asks for
    an offset outside the limits of its viewport, the content follows the
    pointer exactly: the offset has changed by the displacement of the
    pointer since the gesture state was taken, whatever the path and the
    refreshes in between. *)
Theorem drag_follows_pointer :
  forall (L : Layout) (tr : list (Window * Event)) (c : Canvas),
    isDragging c = true ->
    momentum_pending c = 0%nat ->
    unclamped L (offset c) (lastPos c) tr ->
    let c' := run L tr c in
    lastPos c' = pointer_at (lastPos c) tr /\
    offset c' =p= Point.add (offset c) (Point.sub (lastPos c') (lastPos c)).
Proof.
  intros L tr c Hd Hp Hu c'.
  assert (Ho : offset c =p= offset c) by (split; reflexivity).
  destruct (drag_tracks_pointer L tr c (offset c) Hd Hp Ho Hu) as (_ & Hl & H).
  split; assumption.
Qed.

Lemma drag_follows_pointer_witness :
  let c := onPointerDown (Point.mk 300 100) 1%nat mounted in
  let tr := at500 [PointerMove (Point.mk 250 100); Frame;
                   PointerMove (Point.mk 120 100);
                   PointerMove (Point.mk 180 100); Frame] in
  unclamped canvasLayout (offset c) (lastPos c) tr /\
  offset (run canvasLayout tr c) =p= Point.mk (-120) 0.
Proof.
  intros c tr.
  assert (Hu : unclamped canvasLayout (offset c) (lastPos c) tr)
    by (vm_compute; repeat split; discriminate).
  destruct (drag_follows_pointer canvasLayout tr c eq_refl eq_refl Hu)
    as [Hl [Hx Hy]].
  split; [exact Hu|].
  split; [rewrite Hx|rewrite Hy]; vm_compute; reflexivity.
Defined.

(** ** How far inertia carries the content *)

Lemma Qabs_friction (a : Axis) (v : Point.t) :
  Qabs (coord a (friction v)) == Qabs (coord a v) * 0.9.
Proof.
  rewrite coord_friction, Qabs_Qmult.
  now rewrite (Qabs_pos 0.9) by lra.
Qed.

(** The travel so far plus ten times the speed left never grows. *)
Lemma animateMomentum_travel (L : Layout) (w : Window) (a : Axis) (c : Canvas) :
  in_range (bounds L w) (offset c) ->
  let c' := animateMomentum L w c in
  in_range (bounds L w) (offset c') /\
  Qabs (coord a (offset c') - coord a (offset c))
  + 10 * Qabs (coord a (velocity c'))
  <= 10 * Qabs (coord a (velocity c)).
Proof.
  intros Hin c'; subst c'.
  rewrite offset_animateMomentum, velocity_animateMomentum.
  split; [apply clamp_in_range; apply bounds_nonpos|].
  rewrite coord_clamp, coord_add, Qabs_friction.
  apply in_range_coord with (a := a) in Hin.
  destruct (clamp_axis_step (lower a (bounds L w)) (coord a (offset c))
              (coord a (velocity c)) Hin) as [Hs _].
  cbv zeta in Hs.
  pose proof (Qabs_nonneg (coord a (velocity c))).
  lra.
Qed.

Lemma travel_trans (o o1 o2 v v1 v2 : Q) :
  Qabs (o1 - o) + 10 * v1 <= 10 * v ->
  Qabs (o2 - o1) + 10 * v2 <= 10 * v1 ->
  Qabs (o2 - o) + 10 * v2 <= 10 * v.
Proof.
  intros H1 H2.
  pose proof (Qabs_triangle (o2 - o1) (o1 - o)) as Ht.
  assert (He : o2 - o1 + (o1 - o) == o2 - o) by lra.
  rewrite He in Ht; lra.
Qed.

Lemma runCallbacks_travel (L : Layout) (w : Window) (a : Axis) :
  forall (cbs : list (nat * FrameCallback)) (c : Canvas),
    in_range (bounds L w) (offset c) ->
    let c' := runCallbacks L w cbs c in
    in_range (bounds L w) (offset c') /\
    Qabs (coord a (offset c') - coord a (offset c))
    + 10 * Qabs (coord a (velocity c'))
    <= 10 * Qabs (coord a (velocity c)).
Proof.
  induction cbs as [|[h cb] cbs IH]; intros c Hin; cbv zeta.
  - split; [exact Hin|].
    change (runCallbacks L w [] c) with c.
    setoid_replace (coord a (offset c) - coord a (offset c)) with 0 by lra.
    change (Qabs 0) with 0; lra.
  - rewrite runCallbacks_cons.
    destruct cb; cbn [callback snd].
    + destruct (animateMomentum_travel L w a c Hin) as [Hin1 H1].
      destruct (IH _ Hin1) as [Hin2 H2].
      split; [exact Hin2|].
      exact (travel_trans _ _ _ _ _ _ H1 H2).
    + apply (IH (updateTransform c)); exact Hin.
Qed.

Lemma runFrame_travel (L : Layout) (w : Window) (a : Axis) (c : Canvas) :
  in_range (bounds L w) (offset c) ->
  let c' := runFrame L w c in
  in_range (bounds L w) (offset c') /\
  Qabs (coord a (offset c') - coord a (offset c))
  + 10 * Qabs (coord a (velocity c'))
  <= 10 * Qabs (coord a (velocity c)).
Proof.
  intros Hin.
  exact (runCallbacks_travel L w a (frameCallbacks c)
           (set_frameCallbacks [] c) Hin).
Qed.

(** X3.
    From an offset within the limits of a viewport that does not change,
    any number of display refreshes moves the content, on each axis, by at
    most ten times the speed lost meanwhile, hence by at most ten times the
    speed it started with; this holds however many inertia continuations
    are in flight. *)
Theorem inertia_travel_bounded :
  forall (L : Layout) (w : Window) (a : Axis) (n : nat) (c : Canvas),
    in_range (bounds L w) (offset c) ->
    let c' := run L (frames (repeat w n)) c in
    in_range (bounds L w) (offset c') /\
    Qabs (coord a (offset c') - coord a (offset c))
    <= 10 * (Qabs (coord a (velocity c)) - Qabs (coord a (velocity c'))) /\
    Qabs (coord a (offset c') - coord a (offset c))
    <= 10 * Qabs (coord a (velocity c)).
Proof.
  intros L w a n c Hin c'; subst c'.
  assert (H : in_range (bounds L w) (offset (run L (frames (repeat w n)) c)) /\
              Qabs (coord a (offset (run L (frames (repeat w n)) c))
                    - coord a (offset c))
              + 10 * Qabs (coord a (velocity (run L (frames (repeat w n)) c)))
              <= 10 * Qabs (coord a (velocity c))).
  { revert c Hin; induction n as [|n IH]; intros c Hin.
    - exact (runCallbacks_travel L w a [] c Hin).
    - change (run L (frames (repeat w (S n))) c)
        with (run L (frames (repeat w n)) (runFrame L w c)).
      destruct (runFrame_travel L w a c Hin) as [Hin1 H1].
      destruct (IH _ Hin1) as [Hin2 H2].
      split; [exact Hin2|].
      exact (travel_trans _ _ _ _ _ _ H1 H2). }
  destruct H as [Hin' H].
  pose proof (Qabs_nonneg (coord a (velocity (run L (frames (repeat w n)) c)))).
  repeat split; try apply Hin'; lra.
Qed.

Lemma inertia_travel_bounded_witness :
  let c := run canvasLayout
             (at500 [PointerDown (Point.mk 0 0) 1%nat;
                     PointerMove (Point.mk (-40) 0);
                     PointerUp 1%nat]) mounted in
  let c' := run canvasLayout (frames (repeat w500 30)) c in
  in_range (bounds canvasLayout w500) (offset c) /\
  Qabs (coord AxisX (offset c') - coord AxisX (offset c)) <= 10 * 40.
Proof.
  intros c c'.
  assert (Hin : in_range (bounds canvasLayout w500) (offset c))
    by (vm_compute; repeat split; discriminate).
  destruct (inertia_travel_bounded canvasLayout w500 AxisX 30 c Hin)
    as (_ & _ & H).
  exact (conj Hin H).
Defined.

(** ** Animation-frame handles *)

Lemma handles_ok_mounted : handles_ok mounted.
Proof.
  unfold handles_ok; cbn; repeat split; try lia; try constructor;
    try contradiction; discriminate.
Qed.

(** A request leaves the handles in order, whether or not its handle is
    stored in [animationFrame] (the code stores only those of
    [animateMomentum]). *)
Lemma handles_ok_request (cb : FrameCallback) (c c' : Canvas) :
  handles_ok c ->
  nextHandle c' = S (nextHandle c) ->
  frameCallbacks c' = frameCallbacks c ++ [(nextHandle c, cb)] ->
  animationFrame c' = animationFrame c
  \/ (animationFrame c' = Some (nextHandle c) /\ cb = AnimateMomentum) ->
  handles_ok c'.
Proof.
  intros (H1 & Hnd & Hlt & Haf & Ham) Hn Hf Ha.
  unfold handles_ok; rewrite Hn, Hf.
  split; [lia|]. split; [|split; [|split]].
  - rewrite map_app; cbn.
    apply NoDup_app; repeat split; trivial.
    + repeat constructor; intros [].
    + intros h Hin [Heq|[]]; subst h.
      apply in_map_iff in Hin; destruct Hin as (e & He & Hin).
      specialize (Hlt e Hin); lia.
  - intros e Hin; apply in_app_or in Hin; destruct Hin as [Hin|[<-|[]]].
    + specialize (Hlt e Hin); lia.
    + cbn; lia.
  - intros h Hh; destruct Ha as [Ha|[Ha _]]; rewrite Ha in Hh.
    + specialize (Haf h Hh); lia.
    + injection Hh as <-; lia.
  - intros e Hin Hh; apply in_app_or in Hin; destruct Hin as [Hin|[<-|[]]].
    + destruct Ha as [Ha|[Ha _]]; rewrite Ha in Hh.
      * now apply Ham.
      * injection Hh as Hh; specialize (Hlt e Hin); lia.
    + destruct Ha as [Ha|[_ ->]]; [|reflexivity].
      rewrite Ha in Hh; specialize (Haf _ Hh); cbn in Haf; lia.
Qed.

Lemma NoDup_map_filter {A B : Type} (f : A -> B) (g : A -> bool) :
  forall l : list A, NoDup (map f l) -> NoDup (map f (filter g l)).
Proof.
  induction l as [|x l IH]; intros H; [exact H|].
  cbn in H; inversion H as [|y m Hx Hm]; subst.
  cbn; destruct (g x); [|now apply IH].
  cbn; constructor; [|now apply IH].
  intros Hin; apply Hx.
  apply in_map_iff in Hin; destruct Hin as (e & He & Hin).
  apply filter_In in Hin; destruct Hin as [Hin _].
  apply in_map_iff; now exists e.
Qed.

(** Dropping pending callbacks leaves the handles in order. *)
Lemma handles_ok_filter (g : nat * FrameCallback -> bool) (c c' : Canvas) :
  handles_ok c ->
  nextHandle c' = nextHandle c ->
  frameCallbacks c' = filter g (frameCallbacks c) ->
  animationFrame c' = animationFrame c ->
  handles_ok c'.
Proof.
  intros (H1 & Hnd & Hlt & Haf & Ham) Hn Hf Ha.
  unfold handles_ok; rewrite Hn, Hf, Ha.
  split; [lia|]. split; [|split; [|split]].
  - now apply NoDup_map_filter.
  - intros e Hin; apply filter_In in Hin; now apply Hlt.
  - exact Haf.
  - intros e Hin; apply filter_In in Hin; now apply Ham.
Qed.

Lemma filter_all {A : Type} (l : list A) : filter (fun _ => true) l = l.
Proof. induction l as [|x l IH]; cbn; congruence. Qed.

Lemma handles_ok_same (c c' : Canvas) :
  handles_ok c ->
  nextHandle c' = nextHandle c ->
  frameCallbacks c' = frameCallbacks c ->
  animationFrame c' = animationFrame c ->
  handles_ok c'.
Proof.
  intros H Hn Hf Ha.
  apply (handles_ok_filter (fun _ => true) c c' H Hn); [|exact Ha].
  now rewrite filter_all.
Qed.

Lemma handles_ok_onPointerDown (p : Point.t) (pid : nat) (c : Canvas) :
  handles_ok c -> handles_ok (onPointerDown p pid c).
Proof.
  intros H; unfold onPointerDown.
  destruct (animationFrame c) as [[|h]|] eqn:Ha.
  - apply (handles_ok_same c); trivial.
  - apply (handles_ok_filter (fun e => negb (Nat.eqb (fst e) (S h))) c);
      trivial.
  - apply (handles_ok_same c); trivial.
Qed.

Lemma handles_ok_onPointerMove (L : Layout) (w : Window) (p : Point.t)
  (c : Canvas) :
  handles_ok c -> handles_ok (onPointerMove L w p c).
Proof.
  intros H; unfold onPointerMove; destruct (isDragging c); cbn [negb];
    [|exact H].
  apply (handles_ok_request UpdateTransform c); trivial; now left.
Qed.

Lemma handles_ok_onPointerUp (pid : nat) (c : Canvas) :
  handles_ok c -> handles_ok (onPointerUp pid c).
Proof.
  intros H.
  apply (handles_ok_request AnimateMomentum c); trivial; right; now split.
Qed.

Lemma handles_ok_callback (L : Layout) (w : Window) (cb : FrameCallback)
  (c : Canvas) :
  handles_ok c -> handles_ok (callback L w cb c).
Proof.
  intros H; destruct cb; cbn [callback].
  - unfold animateMomentum; cbv zeta.
    destruct (moving _).
    + apply (handles_ok_request AnimateMomentum c); trivial; right; now split.
    + apply (handles_ok_same c); trivial.
  - apply (handles_ok_same c); trivial.
Qed.

Lemma handles_ok_runCallbacks (L : Layout) (w : Window) :
  forall (cbs : list (nat * FrameCallback)) (c : Canvas),
    handles_ok c -> handles_ok (runCallbacks L w cbs c).
Proof.
  induction cbs as [|[h cb] cbs IH]; intros c H; [exact H|].
  rewrite runCallbacks_cons; now apply IH, handles_ok_callback.
Qed.

Lemma handles_ok_runFrame (L : Layout) (w : Window) (c : Canvas) :
  handles_ok c -> handles_ok (runFrame L w c).
Proof.
  intros H; unfold runFrame; apply handles_ok_runCallbacks.
  apply (handles_ok_filter (fun _ => false) c); trivial.
  cbn [frameCallbacks set_frameCallbacks].
  induction (frameCallbacks c); cbn; trivial.
Qed.

Lemma handles_ok_dispatch (L : Layout) (w : Window) (e : Event) (c : Canvas) :
  handles_ok c -> handles_ok (dispatch L w e c).
Proof.
  intros H; destruct e; cbn [dispatch].
  - now apply handles_ok_onPointerDown.
  - now apply handles_ok_onPointerMove.
  - now apply handles_ok_onPointerUp.
  - now apply handles_ok_onPointerUp.
  - now apply handles_ok_runFrame.
Qed.

Lemma handles_ok_run (L : Layout) :
  forall (tr : list (Window * Event)) (c : Canvas),
    handles_ok c -> handles_ok (run L tr c).
Proof.
  induction tr as [|[w e] tr IH]; intros c H; [exact H|].
  change (run L ((w, e) :: tr) c) with (run L tr (dispatch L w e c)).
  now apply IH, handles_ok_dispatch.
Qed.

(** Cancelling a handle that only inertia continuations carry keeps every
    pending render. *)
Lemma filter_render_cancel (h : nat) :
  forall l : list (nat * FrameCallback),
    (forall e, In e l -> fst e = h -> is_momentum e = true) ->
    filter is_render (filter (fun e => negb (Nat.eqb (fst e) h)) l)
    = filter is_render l.
Proof.
  induction l as [|e l IH]; intros H; [reflexivity|].
  cbn [filter].
  assert (IH' := IH (fun e' He' => H e' (or_intror He'))).
  destruct (Nat.eqb (fst e) h) eqn:E; cbn [negb].
  - apply Nat.eqb_eq in E.
    unfold is_render at 2; rewrite (H e (or_introl eq_refl) E); cbn [negb].
    exact IH'.
  - cbn [filter]; destruct (is_render e); now rewrite IH'.
Qed.

Lemma filter_cancel_absent (h : nat) :
  forall l : list (nat * FrameCallback),
    ~ In h (map fst l) ->
    filter (fun e => negb (Nat.eqb (fst e) h)) l = l.
Proof.
  induction l as [|e l IH]; intros H; [reflexivity|].
  cbn [filter].
  destruct (Nat.eqb (fst e) h) eqn:E; cbn [negb].
  - apply Nat.eqb_eq in E; exfalso; apply H; now left.
  - f_equal; apply IH; intros Hin; apply H; now right.
Qed.

Lemma length_cancel (h : nat) :
  forall l : list (nat * FrameCallback),
    NoDup (map fst l) ->
    (length l <= S (length (filter (fun e => negb (Nat.eqb (fst e) h)) l)))%nat.
Proof.
  induction l as [|e l IH]; intros H; [cbn; lia|].
  cbn in H; inversion H as [|y m Hx Hm]; subst.
  cbn [filter].
  destruct (Nat.eqb (fst e) h) eqn:E; cbn [negb length].
  - apply Nat.eqb_eq in E; subst h.
    rewrite (filter_cancel_absent _ l Hx); lia.
  - specialize (IH Hm); lia.
Qed.

(** X7.
    In every state the component reaches, a [pointerdown] cancels no
    pending render and removes at most one pending callback; what it
    removes is an inertia continuation whose handle [animationFrame]
    holds. *)
Theorem pointerdown_cancels_no_render :
  forall (L : Layout) (tr : list (Window * Event)) (p : Point.t) (pid : nat),
    let c := run L tr mounted in
    let c' := onPointerDown p pid c in
    filter is_render (frameCallbacks c') = filter is_render (frameCallbacks c) /\
    (length (frameCallbacks c) <= S (length (frameCallbacks c')))%nat /\
    (forall e, In e (frameCallbacks c) -> ~ In e (frameCallbacks c') ->
               animationFrame c = Some (fst e) /\ is_momentum e = true).
Proof.
  intros L tr p pid c c'.
  destruct (handles_ok_run L tr mounted handles_ok_mounted)
    as (_ & Hnd & _ & _ & Ham).
  fold c in Hnd, Ham.
  subst c'; unfold onPointerDown.
  destruct (animationFrame c) as [[|h]|] eqn:Ha;
    cbn [frameCallbacks setPointerCapture set_captured set_velocity
         set_lastPos set_isDragging cancelAnimationFrame set_frameCallbacks];
    try (split; [reflexivity|split; [lia|intros e Hin Hn; contradiction]]).
  split; [|split].
  - apply filter_render_cancel.
    intros e Hin He; apply Ham; [exact Hin|now rewrite He].
  - now apply length_cancel.
  - intros e Hin Hn.
    destruct (Nat.eqb (fst e) (S h)) eqn:E.
    + apply Nat.eqb_eq in E; split; [now rewrite E|].
      apply Ham; [exact Hin|now rewrite E].
    + exfalso; apply Hn, filter_In; split; [exact Hin|now rewrite E].
Qed.

(** ** The content shows the offset *)

Lemma transform_callback (L : Layout) (w : Window) (cb : FrameCallback)
  (c : Canvas) :
  transform (callback L w cb c) = Some (offset (callback L w cb c)).
Proof.
  destruct cb; cbn [callback]; [|reflexivity].
  unfold animateMomentum; cbv zeta; destruct (moving _); reflexivity.
Qed.

Lemma transform_runCallbacks_shown (L : Layout) (w : Window) :
  forall (cbs : list (nat * FrameCallback)) (c : Canvas),
    transform c = Some (offset c) \/ cbs <> [] ->
    transform (runCallbacks L w cbs c)
    = Some (offset (runCallbacks L w cbs c)).
Proof.
  induction cbs as [|[h cb] cbs IH]; intros c H.
  - destruct H as [H|H]; [exact H|congruence].
  - rewrite runCallbacks_cons; apply IH; left; apply transform_callback.
Qed.

Lemma runFrame_shown (L : Layout) (w : Window) (c : Canvas) :
  in_sync c ->
  transform (runFrame L w c) = Some (offset (runFrame L w c))
  \/ (transform (runFrame L w c) = None /\
      offset (runFrame L w c) = Point.zero).
Proof.
  intros H; unfold runFrame.
  destruct (frameCallbacks c) as [|e l] eqn:E.
  - destruct H as [H|[(e & He & _)|H]].
    + left; exact H.
    + rewrite E in He; contradiction.
    + right; exact H.
  - left; apply transform_runCallbacks_shown; right; discriminate.
Qed.

Lemma in_sync_request (cb : FrameCallback) (c c' : Canvas) :
  in_sync c ->
  frameCallbacks c' = frameCallbacks c ++ [(nextHandle c, cb)] ->
  (transform c' = transform c /\ offset c' = offset c)
  \/ cb = UpdateTransform ->
  in_sync c'.
Proof.
  intros H Hf [[Ht Ho]| ->].
  - unfold in_sync; rewrite Hf, Ht, Ho.
    destruct H as [H|[(e & He & Hr)|H]]; [now left| |now right; right].
    right; left; exists e; split; [apply in_or_app; now left|exact Hr].
  - right; left; exists (nextHandle c, UpdateTransform); rewrite Hf.
    split; [apply in_or_app; right; now left|reflexivity].
Qed.

Lemma in_sync_onPointerDown (p : Point.t) (pid : nat) (c : Canvas) :
  handles_ok c -> in_sync c -> in_sync (onPointerDown p pid c).
Proof.
  intros (_ & _ & _ & _ & Ham) H.
  assert (Hr : filter is_render (frameCallbacks (onPointerDown p pid c))
               = filter is_render (frameCallbacks c)).
  { unfold onPointerDown; destruct (animationFrame c) as [[|h]|] eqn:Ha;
      try reflexivity.
    apply filter_render_cancel.
    intros e Hin He; apply Ham; [exact Hin|now rewrite He]. }
  assert (Ht : transform (onPointerDown p pid c) = transform c)
    by (unfold onPointerDown; destruct (animationFrame c) as [[|h]|];
        reflexivity).
  unfold in_sync; rewrite Ht, offset_onPointerDown.
  destruct H as [H|[(e & He & Her)|H]]; [now left| |now right; right].
  right; left; exists e; split; [|exact Her].
  assert (Hin : In e (filter is_render (frameCallbacks c)))
    by (apply filter_In; now split).
  rewrite <- Hr in Hin; apply filter_In in Hin; apply Hin.
Qed.

Lemma in_sync_dispatch (L : Layout) (w : Window) (e : Event) (c : Canvas) :
  handles_ok c -> in_sync c -> in_sync (dispatch L w e c).
Proof.
  intros Hh H; destruct e; cbn [dispatch].
  - now apply in_sync_onPointerDown.
  - unfold onPointerMove; destruct (isDragging c); cbn [negb]; [|exact H].
    apply (in_sync_request UpdateTransform c); trivial; now right.
  - apply (in_sync_request AnimateMomentum c); trivial; left; now split.
  - apply (in_sync_request AnimateMomentum c); trivial; left; now split.
  - destruct (runFrame_shown L w c H) as [Hs|Hs]; [now left|now right; right].
Qed.

Lemma in_sync_run (L : Layout) :
  forall (tr : list (Window * Event)) (c : Canvas),
    handles_ok c -> in_sync c -> in_sync (run L tr c).
Proof.
  induction tr as [|[w e] tr IH]; intros c Hh H; [exact H|].
  change (run L ((w, e) :: tr) c) with (run L tr (dispatch L w e c)).
  apply IH; [now apply handles_ok_dispatch|now apply in_sync_dispatch].
Qed.

(** X8.
    After every display refresh of every history the content shows the
    current offset (or the component has never rendered and the offset is
    still the origin); between refreshes an offset that is not shown yet
    has a render pending, which nothing cancels. *)
Theorem display_shows_offset_after_refresh :
  forall (L : Layout) (tr : list (Window * Event)) (w : Window),
    in_sync (run L tr mounted) /\
    let c := run L (tr ++ [(w, Frame)]) mounted in
    transform c = Some (offset c)
    \/ (transform c = None /\ offset c = Point.zero).
Proof.
  intros L tr w.
  assert (H : in_sync (run L tr mounted)).
  { apply in_sync_run; [apply handles_ok_mounted|].
    right; right; split; reflexivity. }
  split; [exact H|].
  cbv zeta; rewrite run_snoc; cbn [dispatch].
  now apply runFrame_shown.
Qed.

(** ** Where inertia continuations come from *)





(** ** The listeners of the effect *)

Lemma Listener_eqb_run (l m : Listener) :
  effectRun l <> effectRun m -> Listener_eqb l m = false.
Proof.
  intros H; unfold Listener_eqb.
  apply Nat.eqb_neq in H; rewrite H.
  destruct (EventType_eqb _ _); reflexivity.
Qed.

Lemma existsb_fresh (k : nat) (t : EventType) (h : Handler) :
  forall reg : list Listener,
    (forall m, In m reg -> effectRun m <> k) ->
    existsb (Listener_eqb (mkListener t k h)) reg = false.
Proof.
  induction reg as [|m reg IH]; intros H; [reflexivity|].
  cbn [existsb].
  rewrite Listener_eqb_run, IH; trivial.
  - intros m' Hm'; apply H; now right.
  - cbn [effectRun]; intros E; apply (H m (or_introl eq_refl)); now symmetry.
Qed.

Lemma filter_fresh (k : nat) (t : EventType) (h : Handler) :
  forall reg : list Listener,
    (forall m, In m reg -> effectRun m <> k) ->
    filter (fun m => negb (Listener_eqb (mkListener t k h) m)) reg = reg.
Proof.
  induction reg as [|m reg IH]; intros H; [reflexivity|].
  cbn [filter].
  rewrite Listener_eqb_run, IH; trivial.
  - intros m' Hm'; apply H; now right.
  - cbn [effectRun]; intros E; apply (H m (or_introl eq_refl)); now symmetry.
Qed.

(** A run of the effect appends its four listeners. *)
Lemma registerListeners_fresh (k : nat) (reg : list Listener) :
  (forall m, In m reg -> effectRun m <> k) ->
  registerListeners k reg
  = reg ++ [mkListener pointerdown k OnPointerDown;
            mkListener pointermove k OnPointerMove;
            mkListener pointerup k OnPointerUp;
            mkListener pointerleave k OnPointerUp].
Proof.
  intros H; unfold registerListeners, addEventListener; cbv zeta.
  rewrite (existsb_fresh k _ _ reg H).
  rewrite existsb_app, (existsb_fresh k _ _ reg H).
  cbn [existsb orb Listener_eqb EventType_eqb eventType andb].
  rewrite <- app_assoc; cbn [app].
  rewrite existsb_app, (existsb_fresh k _ _ reg H).
  cbn [existsb orb Listener_eqb EventType_eqb eventType andb].
  rewrite <- app_assoc; cbn [app].
  rewrite existsb_app, (existsb_fresh k _ _ reg H).
  cbn [existsb orb Listener_eqb EventType_eqb eventType andb].
  rewrite <- app_assoc; reflexivity.
Qed.

Lemma cleanupListeners_app (k : nat) (r1 r2 : list Listener) :
  cleanupListeners k (r1 ++ r2)
  = cleanupListeners k r1 ++ cleanupListeners k r2.
Proof.
  unfold cleanupListeners, removeEventListener; cbv zeta.
  now rewrite !filter_app.
Qed.

Lemma cleanupListeners_fresh (k : nat) (reg : list Listener) :
  (forall m, In m reg -> effectRun m <> k) ->
  cleanupListeners k reg = reg.
Proof.
  intros H; unfold cleanupListeners, removeEventListener; cbv zeta.
  now rewrite !(filter_fresh k _ _ reg H).
Qed.

Lemma cleanupListeners_own (k : nat) :
  cleanupListeners k [mkListener pointerdown k OnPointerDown;
                      mkListener pointermove k OnPointerMove;
                      mkListener pointerup k OnPointerUp;
                      mkListener pointerleave k OnPointerUp] = [].
Proof.
  unfold cleanupListeners, removeEventListener, Listener_eqb; cbv zeta.
  do 4 (cbn -[Nat.eqb]; rewrite ?Nat.eqb_refl).
  reflexivity.
Qed.

Lemma fire_app (L : Layout) (w : Window) (r1 r2 : list Listener)
  (e : PointerEvent) (c : Canvas) :
  fire L w (r1 ++ r2) e c = fire L w r2 e (fire L w r1 e c).
Proof. unfold fire; apply fold_left_app. Qed.

(** X9.
    The effect of lines 85-153, for a run [k] whose closures are new to the
    container: its cleanup removes exactly what the run registered; while
    the listeners are registered every pointer event runs its handler
    once, after the listeners that were there before, [pointerleave]
    running the release handler; without a container nothing is
    registered. *)
Theorem effect_listeners_lifecycle :
  forall (L : Layout) (w : Window) (k : nat) (reg : list Listener)
         (e : PointerEvent) (c : Canvas),
    (forall m, In m reg -> effectRun m <> k) ->
    cleanupListeners k (runEffect true k reg) = reg /\
    fire L w (runEffect true k reg) e c
    = dispatch L w (event_of e) (fire L w reg e c) /\
    runEffect false k reg = reg.
Proof.
  intros L w k reg e c H.
  cbn [runEffect]; rewrite (registerListeners_fresh k reg H).
  split; [|split; [|reflexivity]].
  - rewrite cleanupListeners_app, cleanupListeners_own,
      (cleanupListeners_fresh k reg H).
    apply app_nil_r.
  - rewrite fire_app; generalize (fire L w reg e c); intros c0.
    unfold fire, event_of; destruct e as [[] p pid]; reflexivity.
Qed.

Lemma effect_listeners_lifecycle_witness :
  let strict := runEffect true 2 (cleanupListeners 1 (runEffect true 1 [])) in
  let e := mkPointerEvent pointerleave (Point.mk 10 10) 1%nat in
  (forall m, In m (@nil Listener) -> effectRun m <> 1%nat) /\
  length strict = 4%nat /\
  fire canvasLayout w500 strict e mounted = onPointerUp 1%nat mounted.
Proof.
  intros strict e.
  assert (H : forall m, In m (@nil Listener) -> effectRun m <> 1%nat)
    by (intros m []).
  destruct (effect_listeners_lifecycle canvasLayout w500 1 [] e mounted H)
    as (Hc & _ & _).
  split; [exact H|].
  subst strict; rewrite Hc.
  split; reflexivity.
Defined.

(** ** The two layout constants *)

Lemma fold_Qmax_ge :
  forall (l : list Q) (h : Q),
    h <= fold_left Qmax l h /\
    (forall g, In g l -> g <= fold_left Qmax l h).
Proof.
  induction l as [|x l IH]; intros h; cbn [fold_left].
  - split; [lra|intros g []].
  - destruct (IH (Qmax h x)) as [H1 H2].
    pose proof (Q.le_max_l h x); pose proof (Q.le_max_r h x).
    split; [lra|].
    intros g [<-|Hg]; [lra|now apply H2].
Qed.

Lemma fold_Qmax_In :
  forall (l : list Q) (h : Q),
    fold_left Qmax l h = h \/ In (fold_left Qmax l h) l.
Proof.
  induction l as [|x l IH]; intros h; cbn [fold_left]; [now left|].
  destruct (IH (Qmax h x)) as [H|H]; [|right; now right].
  rewrite H; destruct (Qmax_pick h x) as [[_ E]|[_ E]]; rewrite E.
  - right; now left.
  - now left.
Qed.

(** X13.
    For any non-empty list of cards, [tallestCard] is the height of one of
    the cards and no card is higher; [totalWidth] grows by the width of a
    card and a gap with every card and is never below the width of one
    card and the padding. *)
Theorem layout_constants :
  forall (heights : list Q),
    heights <> [] ->
    let L := layoutOf heights in
    In (tallestCard L) heights /\
    (forall h, In h heights -> h <= tallestCard L) /\
    (forall h, totalWidth (layoutOf (h :: heights))
               == totalWidth L + cardWidth + gap) /\
    cardWidth + paddingX <= totalWidth L.
Proof.
  intros [|h0 l] Hne L; [congruence|]; subst L.
  cbn [layoutOf tallestCard totalWidth max_of].
  split; [|split; [|split]].
  - destruct (fold_Qmax_In l h0) as [->|H]; [now left|now right].
  - destruct (fold_Qmax_ge l h0) as [H1 H2].
    intros h [<-|Hh]; [exact H1|now apply H2].
  - intros h; cbn [length].
    rewrite !Nat2Z.inj_succ; unfold Z.succ; rewrite !inject_Z_plus.
    change (inject_Z 1) with 1; unfold cardWidth, gap, paddingX; lra.
  - cbn [length].
    rewrite Nat2Z.inj_succ; unfold Z.succ; rewrite inject_Z_plus.
    change (inject_Z 1) with 1; unfold cardWidth, gap, paddingX.
    assert (0 <= inject_Z (Z.of_nat (length l))).
    { change 0 with (inject_Z 0); rewrite <- Zle_Qle; lia. }
    lra.
Qed.

Lemma layout_constants_witness :
  steps <> [] /\
  canvasLayout = layoutOf steps /\
  tallestCard canvasLayout == 400 /\
  totalWidth canvasLayout == 2212 /\
  forall h, In h steps -> h <= tallestCard canvasLayout.
Proof.
  assert (Hne : steps <> []) by discriminate.
  destruct (layout_constants steps Hne) as (_ & Hmax & _).
  split; [exact Hne|].
  split; [reflexivity|].
  split; [reflexivity|].
  split; [reflexivity|exact Hmax].
Defined.

(** ** Inertia inside wide limits *)

(** One step of an inertia that the limits do not touch keeps the sum of
    the offset and ten velocities, the point [t] it is heading for. *)
Lemma animateMomentum_free (L : Layout) (w : Window) (t : Axis -> Q)
  (c : Canvas) :
  (forall a, lower a (bounds L w) <= coord a (offset c) <= 0) ->
  (forall a, lower a (bounds L w) <= t a <= 0) ->
  (forall a, coord a (offset c) + 10 * coord a (velocity c) == t a) ->
  let c' := animateMomentum L w c in
  (forall a, lower a (bounds L w) <= coord a (offset c') <= 0) /\
  (forall a, coord a (offset c') + 10 * coord a (velocity c') == t a).
Proof.
  intros Ho Ht He c'; subst c'.
  assert (Hstep : forall a, coord a (offset (animateMomentum L w c))
                            == coord a (offset c) + coord a (velocity c)).
  { intros a; rewrite offset_animateMomentum, coord_clamp, coord_add.
    apply clamp_axis_fix.
    specialize (Ho a); specialize (Ht a); specialize (He a); lra. }
  split; intros a; rewrite (Hstep a);
    specialize (Ho a); specialize (Ht a); specialize (He a).
  - lra.
  - rewrite velocity_animateMomentum, coord_friction; lra.
Qed.

Lemma runCallbacks_free (L : Layout) (w : Window) (t : Axis -> Q) :
  forall (cbs : list (nat * FrameCallback)) (c : Canvas),
    (forall a, lower a (bounds L w) <= coord a (offset c) <= 0) ->
    (forall a, lower a (bounds L w) <= t a <= 0) ->
    (forall a, coord a (offset c) + 10 * coord a (velocity c) == t a) ->
    let c' := runCallbacks L w cbs c in
    (forall a, lower a (bounds L w) <= coord a (offset c') <= 0) /\
    (forall a, coord a (offset c') + 10 * coord a (velocity c') == t a).
Proof.
  induction cbs as [|[h cb] cbs IH]; intros c Ho Ht He; [now split|].
  cbv zeta; rewrite runCallbacks_cons.
  destruct cb; cbn [callback].
  - destruct (animateMomentum_free L w t c Ho Ht He) as [Ho' He'].
    now apply IH.
  - now apply (IH (updateTransform c)).
Qed.

(** X4.
    An inertia that the limits do not touch conserves the sum of the offset
    and ten velocities.  From any state whose offset and whose point ten
    velocities ahead both lie within the limits of a viewport that does
    not change, after any number of display refreshes that sum is what it
    was, on each axis and however many continuations are pending; so once
    both speeds are at most 0.5 the content rests within 5 pixels of the
    point ten velocities ahead of where it started. *)
Theorem free_inertia_heads_ten_velocities_ahead :
  forall (L : Layout) (w : Window) (n : nat) (c : Canvas),
    (forall a, lower a (bounds L w) <= coord a (offset c) <= 0) ->
    (forall a, lower a (bounds L w)
               <= coord a (offset c) + 10 * coord a (velocity c) <= 0) ->
    let c' := run L (frames (repeat w n)) c in
    forall a,
      coord a (offset c') + 10 * coord a (velocity c')
      == coord a (offset c) + 10 * coord a (velocity c) /\
      (moving (velocity c') = false ->
       Qabs (coord a (offset c')
             - (coord a (offset c) + 10 * coord a (velocity c))) <= 5).
Proof.
  intros L w n c Ho Ht c' a; subst c'.
  set (t := fun a => coord a (offset c) + 10 * coord a (velocity c)).
  assert (H : (forall a, lower a (bounds L w)
                         <= coord a (offset (run L (frames (repeat w n)) c))
                         <= 0) /\
              (forall a, coord a (offset (run L (frames (repeat w n)) c))
                         + 10 * coord a (velocity
                                           (run L (frames (repeat w n)) c))
                         == t a)).
  { assert (He : forall a, coord a (offset c) + 10 * coord a (velocity c)
                           == t a) by (intros a0; reflexivity).
    change (forall a, lower a (bounds L w) <= t a <= 0) in Ht.
    clearbody t; revert c Ho He; induction n as [|n IH]; intros c Ho He;
      [now split|].
    change (run L (frames (repeat w (S n))) c)
      with (run L (frames (repeat w n)) (runFrame L w c)).
    destruct (runCallbacks_free L w t (frameCallbacks c)
                (set_frameCallbacks [] c) Ho Ht He) as [Ho' He'].
    now apply IH. }
  destruct H as [_ He]; specialize (He a); unfold t in He.
  split; [exact He|].
  intros Hm; pose proof (proj1 (moving_false _) Hm a) as Hv.
  revert Hv He.
  generalize (coord a (offset (run L (frames (repeat w n)) c))).
  generalize (coord a (velocity (run L (frames (repeat w n)) c))).
  intros v' o' Hv He.
  apply Qabs_Qle_condition in Hv; apply Qabs_Qle_condition; lra.
Qed.

Lemma free_inertia_heads_ten_velocities_ahead_witness :
  let c := run canvasLayout
             (at500 [PointerDown (Point.mk 300 100) 1%nat;
                     PointerMove (Point.mk 200 100);
                     PointerMove (Point.mk 190 100);
                     PointerUp 1%nat]) mounted in
  let c' := run canvasLayout (frames (repeat w500 40)) c in
  coord AxisX (offset c) == -110 /\
  coord AxisX (velocity c) == -10 /\
  moving (velocity c') = false /\
  Qabs (coord AxisX (offset c') - (-110 + 10 * -10)) <= 5.
Proof.
  intros c c'.
  assert (Ho : forall a, lower a (bounds canvasLayout w500)
                         <= coord a (offset c) <= 0)
    by (intros []; vm_compute; split; discriminate).
  assert (Hv : forall a, lower a (bounds canvasLayout w500)
                         <= coord a (offset c) + 10 * coord a (velocity c)
                         <= 0)
    by (intros []; vm_compute; split; discriminate).
  assert (Hm : moving (velocity c') = false) by (vm_compute; reflexivity).
  destruct (free_inertia_heads_ten_velocities_ahead canvasLayout w500 40 c
              Ho Hv AxisX) as [_ H].
  exact (conj eq_refl (conj eq_refl (conj Hm (H Hm)))).
Defined.

(** ** Resizing the viewport *)

(** X12.
    An offset within the limits of a viewport is within the limits of every
    viewport that is not larger, so after the window shrinks the next move
    or inertia step finds the offset legal and makes no jump (after it
    grows the limits tighten and the offset may be pulled back). *)
Theorem smaller_viewport_keeps_offset_legal :
  forall (L : Layout) (w w' : Window) (p : Point.t),
    containerWidth w' <= containerWidth w ->
    (innerHeight w' <= innerHeight w)%Z ->
    in_range (bounds L w) p ->
    in_range (bounds L w') p /\ clamp (bounds L w') p =p= p.
Proof.
  intros L w w' p Hw Hh Hin.
  assert (Hin' : in_range (bounds L w') p).
  { rewrite Zle_Qle in Hh.
    destruct Hin as [Hx Hy]; revert Hx Hy.
    unfold in_range; cbn [bounds minX minY].
    generalize (inject_Z (innerHeight w)) (inject_Z (innerHeight w')) Hh.
    intros h h' Hh' Hx Hy; split.
    - revert Hx; minmax_lra.
    - revert Hy; minmax_lra. }
  split; [exact Hin'|now apply clamp_fix].
Qed.

Lemma smaller_viewport_keeps_offset_legal_witness :
  let p := Point.mk (-700) 0 in
  in_range (bounds canvasLayout w1500) p /\
  in_range (bounds canvasLayout w500) p.
Proof.
  intros p.
  assert (Hw : containerWidth w500 <= containerWidth w1500)
    by (vm_compute; discriminate).
  assert (Hh : (innerHeight w500 <= innerHeight w1500)%Z)
    by (vm_compute; discriminate).
  assert (Hin : in_range (bounds canvasLayout w1500) p)
    by (vm_compute; repeat split; discriminate).
  destruct (smaller_viewport_keeps_offset_legal canvasLayout w1500 w500 p
              Hw Hh Hin) as [H _].
  exact (conj Hin H).
Defined.

(** ** A gesture that starts while inertia runs *)

Lemma gesture_start_cancels_tracked_inertia_witness :
  let tr := at500 [PointerDown (Point.mk 0 0) 1%nat;
                   PointerMove (Point.mk (-10) 0);
                   PointerUp 1%nat;
                   Frame] in
  let evs := at500 [PointerMove (Point.mk (-5) 0); Frame] in
  well_formed false tr /\
  Forall drag_event evs /\
  momentum_pending (run canvasLayout tr mounted) = 1%nat /\
  momentum_pending
    (run canvasLayout (tr ++ (w500, PointerDown (Point.mk 0 0) 2%nat) :: evs)
       mounted) = 0%nat.
Proof.
  intros tr evs.
  assert (Hwf : well_formed false tr) by (cbn; auto).
  assert (Hall : Forall drag_event evs) by (repeat constructor).
  destruct (gesture_start_cancels_tracked_inertia canvasLayout tr evs w500
              (Point.mk 0 0) 2%nat Hwf Hall) as (_ & Hp & _).
  exact (conj Hwf (conj Hall (conj eq_refl Hp))).
Defined.

(** ** The same run in binary64 *)

(** With the rounding of the browser's arithmetic the run from velocity 10
    also takes 29 steps, and advances by 95.2898... *)
Example inertia_from_ten_binary64 :
  fst (coast64 100 0%float 10%float) = 29%nat /\
  PrimFloat.ltb 95.28%float (snd (coast64 100 0%float 10%float)) = true /\
  PrimFloat.ltb (snd (coast64 100 0%float 10%float)) 95.29%float = true.
Proof. vm_compute. repeat split. Qed.

